(** * A shallow embedding of vscode-cmantic's C/C++ source model

    The embedded program is the TypeScript module that builds a symbol tree
    from the editor's document symbols ([SourceSymbol], [CSymbol]), masks
    comments and literals out of source text ([maskUnimportantText]), and
    computes where generated code goes ([findPositionForNewMethod],
    [findPositionForNewInclude], [findPositionForNewDefinition],
    [findDefinitionInWorkspace], [getSymbol]).

    Strings are sequences of UTF-16 code units, as in the source language;
    regular expressions are embedded as syntax trees and run by a
    backtracking matcher that lists the possible ends of a match in the order
    the engine tries them. *)

From Stdlib Require Import String Ascii.
From Stdlib Require Import NArith ZArith Lia Bool Arith List.
From Stdlib Require Import Permutation Sorted.
Import ListNotations.
Local Open Scope list_scope.

Set Warnings "-register-all".

(* ------------------------------------------------------------------ *)
(** ** Strings as code units *)

(** A string of the source language: its UTF-16 code units. *)
Definition str := list N.

(** The code units of an ASCII literal. *)
Definition units (s : string) : str :=
  map N_of_ascii (list_ascii_of_string s).

Definition chr (a : ascii) : N := N_of_ascii a.

(** The double quote, which a literal of this file cannot hold. *)
Definition dquote : N := 34%N.

Fixpoint str_eqb (a b : str) : bool :=
  match a, b with
  | [], [] => true
  | x :: a', y :: b' => N.eqb x y && str_eqb a' b'
  | _, _ => false
  end.

(** [s.substring(a, b)] for [a <= b]. *)
Definition substring (s : str) (a b : nat) : str :=
  firstn (b - a) (skipn a s).

(** [c.repeat(n)] for a string [c]. *)
Fixpoint str_repeat (c : str) (n : nat) : str :=
  match n with
  | 0 => []
  | S n' => c ++ str_repeat c n'
  end.

(** A string is truthy when it is not empty; [undefined] is falsy. *)
Definition truthy (s : option str) : bool :=
  match s with
  | Some (_ :: _) => true
  | _ => false
  end.

(** [s.startsWith(t)] *)
Fixpoint startsWith (s t : str) : bool :=
  match t, s with
  | [], _ => true
  | y :: t', x :: s' => N.eqb x y && startsWith s' t'
  | _ :: _, [] => false
  end.

(** [s.includes(t)]: [t] occurs in [s] as a contiguous run. *)
Fixpoint includes (s t : str) : bool :=
  startsWith s t ||
  match s with
  | [] => false
  | _ :: s' => includes s' t
  end.

(* ------------------------------------------------------------------ *)
(** ** Character classes of the regular expressions *)

Definition in_range (lo hi c : N) : bool := (N.leb lo c && N.leb c hi)%bool.

(** [\d] *)
Definition is_digit (c : N) : bool := in_range 48 57 c.

(** [\w], which is also [[\w_]] and [[\w\d_]] *)
Definition is_word (c : N) : bool :=
  in_range 97 122 c || in_range 65 90 c || is_digit c || N.eqb c 95.

(** The line terminators: LF, CR, LS, PS. *)
Definition is_line_terminator (c : N) : bool :=
  N.eqb c 10 || N.eqb c 13 || N.eqb c 8232 || N.eqb c 8233.

(** [\s]: white space and line terminators. *)
Definition is_space (c : N) : bool :=
  in_range 9 13 c || N.eqb c 32 || N.eqb c 160 || N.eqb c 5760
  || in_range 8192 8202 c || N.eqb c 8232 || N.eqb c 8233 || N.eqb c 8239
  || N.eqb c 8287 || N.eqb c 12288 || N.eqb c 65279.

(** The dot, without the s flag *)
Definition is_dot (c : N) : bool := negb (is_line_terminator c).

(* ------------------------------------------------------------------ *)
(** ** Regular expressions *)

Inductive regex : Type :=
| Empty                                   (* the empty pattern *)
| Char (p : N -> bool)                    (* one code unit of a class *)
| Seq (r1 r2 : regex)                     (* r1r2 *)
| Alt (r1 r2 : regex)                     (* r1|r2 *)
| Star (r : regex)                        (* r*, greedy *)
| Ahead (positive : bool) (r : regex)     (* (?=r) and (?!r) *)
| Behind (positive : bool) (r : regex)    (* (?<=r) and (?<!r) *)
| Bol                                     (* ^ without the m flag *)
| Eol                                     (* $ without the m flag *)
| WordBoundary.                           (* \b *)

Definition lit (a : ascii) : regex := Char (N.eqb (chr a)).
Definition litN (c : N) : regex := Char (N.eqb c).
Definition notlit (a : ascii) : regex := Char (fun c => negb (N.eqb c (chr a))).
Definition dot : regex := Char is_dot.
Definition plus (r : regex) : regex := Seq r (Star r).

(** A sequence of patterns. *)
Fixpoint cat (rs : list regex) : regex :=
  match rs with
  | [] => Empty
  | [r] => r
  | r :: rs' => Seq r (cat rs')
  end.

(** The pattern of a literal word. *)
Definition word (s : string) : regex :=
  cat (map lit (list_ascii_of_string s)).

Definition word_at (s : str) (i : nat) : bool :=
  match nth_error s i with
  | Some c => is_word c
  | None => false
  end.

Definition nonempty (l : list nat) : bool :=
  match l with
  | [] => false
  | _ :: _ => true
  end.

(** Greedy iteration: from [i], first every way to match once more (an
    iteration that consumes nothing is refused) followed by the iteration
    again, then stopping at [i]. *)
Fixpoint star (step : nat -> list nat) (fuel : nat) (i : nat) : list nat :=
  match fuel with
  | 0 => [i]
  | S n => flat_map (fun j => if i <? j then star step n j else []) (step i) ++ [i]
  end.

(** [ends r s i]: the positions where a match of [r] that starts at [i] in
    [s] can end, in the order the backtracking matcher tries them. *)
Fixpoint ends (r : regex) (s : str) (i : nat) : list nat :=
  match r with
  | Empty => [i]
  | Char p =>
      match nth_error s i with
      | Some c => if p c then [S i] else []
      | None => []
      end
  | Seq r1 r2 => flat_map (ends r2 s) (ends r1 s i)
  | Alt r1 r2 => ends r1 s i ++ ends r2 s i
  | Star r1 => star (ends r1 s) (length s - i) i
  | Ahead positive r1 =>
      if Bool.eqb positive (nonempty (ends r1 s i)) then [i] else []
  | Behind positive r1 =>
      if Bool.eqb positive
           (existsb (fun j => existsb (Nat.eqb i) (ends r1 s j)) (seq 0 (S i)))
      then [i] else []
  | Bol => if i =? 0 then [i] else []
  | Eol => if i =? length s then [i] else []
  | WordBoundary =>
      if xorb (match i with 0 => false | S j => word_at s j end) (word_at s i)
      then [i] else []
  end.

(** The first match at or after [i]: its start and its end. *)
Fixpoint execFrom (r : regex) (s : str) (fuel i : nat) : option (nat * nat) :=
  match ends r s i with
  | e :: _ => Some (i, e)
  | [] =>
      match fuel with
      | 0 => None
      | S n => execFrom r s n (S i)
      end
  end.

(** [r.exec(s)] with [r.lastIndex = lastIndex]. *)
Definition exec (r : regex) (s : str) (lastIndex : nat) : option (nat * nat) :=
  if lastIndex <=? length s then execFrom r s (length s - lastIndex) lastIndex
  else None.

(** [r.test(s)], and the truth of [s.match(r)] and [r.exec(s)] for a fresh [r]. *)
Definition test (r : regex) (s : str) : bool :=
  match exec r s 0 with
  | Some _ => true
  | None => false
  end.

(** The successive matches of a global pattern: after an empty match the
    search resumes one code unit further. *)
Fixpoint matchesFrom (r : regex) (s : str) (fuel lastIndex : nat)
  : list (nat * nat) :=
  match fuel with
  | 0 => []
  | S n =>
      match exec r s lastIndex with
      | None => []
      | Some (i, e) => (i, e) :: matchesFrom r s n (if e =? i then S e else e)
      end
  end.

(** [s.matchAll(r)] for a global [r]: (index, end) of each match. *)
Definition matchAll (r : regex) (s : str) : list (nat * nat) :=
  matchesFrom r s (S (S (length s))) 0.

(** The result of a replacement: the text between the matches is kept, each
    match gives way to [replacer] of its text. *)
Fixpoint substitute (replacer : str -> str) (s : str) (pos : nat)
                    (ms : list (nat * nat)) : str :=
  match ms with
  | [] => skipn pos s
  | (i, e) :: ms' =>
      if pos <=? i
      then substring s pos i ++ replacer (substring s i e)
           ++ substitute replacer s e ms'
      else substitute replacer s pos ms'
  end.

(** [s.replace(r, replacer)] for a global [r]. *)
Definition replaceAll (r : regex) (replacer : str -> str) (s : str) : str :=
  substitute replacer s 0 (matchAll r s).

(** [s.replace(r, replacer)] for an [r] that is not global. *)
Definition replaceFirst (r : regex) (replacer : str -> str) (s : str) : str :=
  match exec r s 0 with
  | None => s
  | Some (i, e) => substring s 0 i ++ replacer (substring s i e) ++ skipn e s
  end.

(* ------------------------------------------------------------------ *)
(** ** The lexical masker *)

(** The pattern of line 875: after slash-star (lookbehind), the longest run
    of units that are each not a star, or a star with a slash next (the
    star alternative is tried first), up to a star-slash (lookahead). *)
Definition re_blockComment : regex :=
  cat [Behind true (word "/*");
       Star (Alt (Seq (lit "*") (Ahead true (lit "/"))) (notlit "*"));
       Ahead true (word "*/")].

(** The pattern of line 876: after two slashes (lookbehind), the rest of
    the line. *)
Definition re_lineComment : regex :=
  cat [Behind true (word "//"); Star dot].

(** The patterns of lines 878 and 879, by their quote: after a quote
    (lookbehind), the longest run within the line that a quote follows
    (lookahead) and that does not end in a backslash (negative lookbehind). *)
Definition re_quoted (quote : N) : regex :=
  cat [Behind true (litN quote); Star dot; Ahead true (litN quote);
       Behind false (lit "\")].

(** The pattern of line 881: after [<] (lookbehind), the longest run of units
    that are each a [>] with a [>] next, or not a [>], up to a [>]
    (lookahead). *)
Definition re_templateArgs : regex :=
  cat [Behind true (lit "<");
       Star (Alt (Seq (lit ">") (Ahead true (lit ">"))) (notlit ">"));
       Ahead true (lit ">")].

(** [maskUnimportantText(source, maskChar)] *)
Definition maskUnimportantTextWith (maskChar : str) (source : str) : str :=
  let replacer := fun m : str => str_repeat maskChar (length m) in
  (* Mask comments *)
  let source := replaceAll re_blockComment replacer source in
  let source := replaceAll re_lineComment replacer source in
  (* Mask quoted characters *)
  let source := replaceAll (re_quoted dquote) replacer source in
  let source := replaceAll (re_quoted (chr "'")) replacer source in
  (* Mask template arguments *)
  let source := replaceAll re_templateArgs replacer source in
  source.

(** [maskUnimportantText(source)]: [maskChar] defaults to one space. *)
Definition maskUnimportantText (source : str) : str :=
  maskUnimportantTextWith (units " ") source.

(* ------------------------------------------------------------------ *)
(** ** Member names *)

(** Line 179: [^_+[\w_][\w\d_]*_*$] *)
Definition re_underscoresAround : regex :=
  cat [Bol; plus (lit "_"); Char is_word; Star (Char is_word);
       Star (lit "_"); Eol].

(** Line 183: [^_*[\w_][\w\d_]*_+$] *)
Definition re_underscoresAfter : regex :=
  cat [Bol; Star (lit "_"); Char is_word; Star (Char is_word);
       plus (lit "_"); Eol].

(** Line 187: [^m_[\w_][\w\d_]*$] *)
Definition re_mPrefix : regex :=
  cat [Bol; lit "m"; lit "_"; Char is_word; Star (Char is_word); Eol].

(** Line 181: [^_+|_*$], global *)
Definition re_stripAround : regex :=
  Alt (Seq Bol (plus (lit "_"))) (Seq (Star (lit "_")) Eol).

(** Line 185: [^_*|_+$], global *)
Definition re_stripAfter : regex :=
  Alt (Seq Bol (Star (lit "_"))) (Seq (plus (lit "_")) Eol).

(** Line 189: [^m_] *)
Definition re_stripM : regex := cat [Bol; lit "m"; lit "_"].

Definition erase : str -> str := fun _ => [].

(** The body of [CSymbol.baseName], on the identifier [memberName]. *)
Definition baseNameOf (memberName : str) : str :=
  let baseMemberName : option str := None in
  let baseMemberName :=
    if test re_underscoresAround memberName && negb (truthy baseMemberName)
    then Some (replaceAll re_stripAround erase memberName)
    else baseMemberName in
  let baseMemberName :=
    if test re_underscoresAfter memberName && negb (truthy baseMemberName)
    then Some (replaceAll re_stripAfter erase memberName)
    else baseMemberName in
  let baseMemberName :=
    if test re_mPrefix memberName && negb (truthy baseMemberName)
    then Some (replaceFirst re_stripM erase memberName)
    else baseMemberName in
  match baseMemberName with
  | Some (c :: b) => c :: b
  | _ => memberName
  end.

(** Modelled from the spec: [util.firstCharToUpper] of the utility module,
    which the spec calls [capitalize]: the first code unit in upper case
    (for the letters a to z), the rest unchanged. *)
Definition firstCharToUpper (s : str) : str :=
  match s with
  | [] => []
  | c :: rest => (if in_range 97 122 c then (c - 32)%N else c) :: rest
  end.

(* ------------------------------------------------------------------ *)
(** ** Positions, ranges and text documents of the editor

    These are the editor's own types, which the embedded module only calls.
    They are modelled from the editor's documented behaviour: a position is a
    line and a character, both counted from zero; a document holds its lines
    and its line ending. *)

Record Position := mkPosition { line : nat; character : nat }.

Definition isBefore (a b : Position) : bool :=
  (line a <? line b) || ((line a =? line b) && (character a <? character b)).

Definition isAfter (a b : Position) : bool := isBefore b a.

Definition isBeforeOrEqual (a b : Position) : bool := negb (isAfter a b).

Definition pos_eqb (a b : Position) : bool :=
  (line a =? line b) && (character a =? character b).

(** [position.translate(lineDelta, characterDelta)] for deltas that are not
    negative. *)
Definition translate (p : Position) (lineDelta characterDelta : nat) : Position :=
  mkPosition (line p + lineDelta) (character p + characterDelta).

Record Range := mkRange { start : Position; end_ : Position }.

(** [new vscode.Range(a, b)]: the earlier position becomes the start. *)
Definition newRange (a b : Position) : Range :=
  if isBefore a b then mkRange a b else mkRange b a.

(** [range.contains(position)]: both ends belong to the range. *)
Definition contains (r : Range) (p : Position) : bool :=
  negb (isBefore p (start r)) && negb (isBefore (end_ r) p).

(** [range.isEqual(other)] *)
Definition range_eqb (a b : Range) : bool :=
  pos_eqb (start a) (start b) && pos_eqb (end_ a) (end_ b).

Record Uri := mkUri { scheme : str; path : str }.

Record TextDocument := mkTextDocument {
  doc_uri : Uri;
  doc_eol : str;            (* the line ending: LF, or CR LF *)
  doc_lines : list str      (* the lines, without their ending *)
}.

(** The two line endings. *)
Definition LF : str := [10%N].
Definition CRLF : str := [13%N; 10%N].

Definition lineCount (d : TextDocument) : nat := length (doc_lines d).

Definition lineText (d : TextDocument) (n : nat) : str := nth n (doc_lines d) [].

(** The editor moves a position that lies outside the document to the
    nearest one inside. *)
Definition validatePosition (d : TextDocument) (p : Position) : Position :=
  if lineCount d <=? line p
  then mkPosition (lineCount d - 1) (length (lineText d (lineCount d - 1)))
  else mkPosition (line p) (Nat.min (character p) (length (lineText d (line p)))).

Definition validateRange (d : TextDocument) (r : Range) : Range :=
  mkRange (validatePosition d (start r)) (validatePosition d (end_ r)).

(** The offset at which line [n] starts. *)
Fixpoint lineStart (eol : nat) (lines : list str) (n : nat) : nat :=
  match n, lines with
  | S n', l :: rest => length l + eol + lineStart eol rest n'
  | _, _ => 0
  end.

(** [document.offsetAt(position)] *)
Definition offsetAt (d : TextDocument) (p : Position) : nat :=
  let p := validatePosition d p in
  lineStart (length (doc_eol d)) (doc_lines d) (line p) + character p.

Fixpoint join (eol : str) (lines : list str) : str :=
  match lines with
  | [] => []
  | [l] => l
  | l :: rest => l ++ eol ++ join eol rest
  end.

(** [document.getText(range)] *)
Definition getText (d : TextDocument) (r : Range) : str :=
  let r := validateRange d r in
  let a := start r in
  let b := end_ r in
  if isBeforeOrEqual b a then []
  else if line a =? line b
  then substring (lineText d (line a)) (character a) (character b)
  else join (doc_eol d)
         (skipn (character a) (lineText d (line a))
          :: firstn (line b - line a - 1) (skipn (S (line a)) (doc_lines d))
          ++ [firstn (character b) (lineText d (line b))]).

Record TextLine := mkTextLine {
  lineNumber : nat;
  text : str;
  line_range : Range;
  firstNonWhitespaceCharacterIndex : nat;
  isEmptyOrWhitespace : bool
}.

Fixpoint leadingSpaces (s : str) : nat :=
  match s with
  | c :: rest => if is_space c then S (leadingSpaces rest) else 0
  | [] => 0
  end.

(** [document.lineAt(n)]; [None] stands for the error the editor raises when
    the document has no line [n]. *)
Definition lineAt (d : TextDocument) (n : nat) : option TextLine :=
  match nth_error (doc_lines d) n with
  | None => None
  | Some t =>
      Some (mkTextLine n t
              (mkRange (mkPosition n 0) (mkPosition n (length t)))
              (leadingSpaces t)
              (leadingSpaces t =? length t))
  end.

(** [s.trim()] *)
Fixpoint trimStart (s : str) : str :=
  match s with
  | c :: rest => if is_space c then trimStart rest else s
  | [] => []
  end.

Definition trim (s : str) : str := rev (trimStart (rev (trimStart s))).

(* ------------------------------------------------------------------ *)
(** ** Symbols *)

Inductive SymbolKind :=
| File | Module_ | Namespace | Package | Class | Method | Property | Field
| Constructor | Enum | Interface | Function_ | Variable_ | Constant | String_
| Number | Boolean | Array | Object | Key | Null | EnumMember | Struct | Event
| Operator | TypeParameter.

Definition kind_eqb (a b : SymbolKind) : bool :=
  match a, b with
  | File, File | Module_, Module_ | Namespace, Namespace | Package, Package
  | Class, Class | Method, Method | Property, Property | Field, Field
  | Constructor, Constructor | Enum, Enum | Interface, Interface
  | Function_, Function_ | Variable_, Variable_ | Constant, Constant
  | String_, String_ | Number, Number | Boolean, Boolean | Array, Array
  | Object, Object | Key, Key | Null, Null | EnumMember, EnumMember
  | Struct, Struct | Event, Event | Operator, Operator
  | TypeParameter, TypeParameter => true
  | _, _ => false
  end.

(** The editor's document symbol. [rangeRef] is the identity of the Range
    object that the [range] property holds: two symbols share it exactly when
    their [range] properties are one and the same object. *)
Inductive DocumentSymbol := mkDocumentSymbol {
  d_name : str;
  d_detail : str;
  d_kind : SymbolKind;
  d_range : Range;
  d_rangeRef : nat;
  d_selectionRange : Range;
  d_children : list DocumentSymbol
}.

(** [SourceSymbol]: a document symbol with the file it belongs to. The
    [parent] back-reference is not part of the finite tree; the operations
    that read it take the parent beside the node. *)
Inductive SourceSymbol := mkSourceSymbol {
  s_name : str;
  s_detail : str;
  s_kind : SymbolKind;
  s_range : Range;
  s_rangeRef : nat;
  s_selectionRange : Range;
  s_uri : Uri;
  s_children : list SourceSymbol
}.

(** [CSymbol]: a source symbol with the text document it lies in. *)
Inductive CSymbol := mkCSymbol {
  name : str;
  detail : str;
  kind : SymbolKind;
  range : Range;
  rangeRef : nat;
  selectionRange : Range;
  uri : Uri;
  document : TextDocument;
  children : list CSymbol
}.

(** The depth of nesting below a symbol. *)
Fixpoint d_height (d : DocumentSymbol) : nat :=
  match d with
  | mkDocumentSymbol _ _ _ _ _ _ cs => list_max (map (fun c => S (d_height c)) cs)
  end.

Fixpoint s_height (s : SourceSymbol) : nat :=
  match s with
  | mkSourceSymbol _ _ _ _ _ _ _ cs => list_max (map (fun c => S (s_height c)) cs)
  end.

(** A [CSymbol] is a [SourceSymbol]: the view of it at that type. *)
Fixpoint asSourceSymbol (c : CSymbol) : SourceSymbol :=
  match c with
  | mkCSymbol n d k r rr sr u _ cs =>
      mkSourceSymbol n d k r rr sr u (map asSourceSymbol cs)
  end.

(** The comparison function of both [sort] calls (lines 87 and 507), on the
    start of the range: [a.range.start.isAfter(b.range.start) ? 1 : -1]. *)
Definition compareStart (a b : Position) : Z :=
  if isAfter a b then 1%Z else (-1)%Z.

Definition d_compare (a b : DocumentSymbol) : Z :=
  compareStart (start (d_range a)) (start (d_range b)).

Definition s_compare (a b : SourceSymbol) : Z :=
  compareStart (start (s_range a)) (start (s_range b)).

(* ------------------------------------------------------------------ *)
(** ** Construction of the symbol tree *)

Section Construction.

(** [Array.prototype.sort] of the engine that runs the module, by its
    comparison function. *)
Variable sort : forall A : Type, (A -> A -> Z) -> list A -> list A.

(** [new SourceSymbol(docSymbol, uri, parent)]: the children are sorted, then
    converted one by one in that order. [fuel] bounds the depth of the
    conversion. *)
Fixpoint buildSourceSymbol (fuel : nat) (docSymbol : DocumentSymbol) (uri : Uri)
  : SourceSymbol :=
  let sorted := sort _ d_compare (d_children docSymbol) in
  mkSourceSymbol (d_name docSymbol) (d_detail docSymbol) (d_kind docSymbol)
    (d_range docSymbol) (d_rangeRef docSymbol) (d_selectionRange docSymbol) uri
    match fuel with
    | 0 => []
    | S n => map (fun child => buildSourceSymbol n child uri) sorted
    end.

Definition SourceSymbol_new (docSymbol : DocumentSymbol) (uri : Uri) : SourceSymbol :=
  buildSourceSymbol (d_height docSymbol) docSymbol uri.

(** The constructor sorts [docSymbol.children] in place, at every level it
    visits: the argument as the constructor leaves it, for a plain document
    symbol and for a [SourceSymbol]. *)
Fixpoint sortedInPlace (fuel : nat) (docSymbol : DocumentSymbol) : DocumentSymbol :=
  let sorted := sort _ d_compare (d_children docSymbol) in
  mkDocumentSymbol (d_name docSymbol) (d_detail docSymbol) (d_kind docSymbol)
    (d_range docSymbol) (d_rangeRef docSymbol) (d_selectionRange docSymbol)
    match fuel with
    | 0 => sorted
    | S n => map (sortedInPlace n) sorted
    end.

Fixpoint s_sortedInPlace (fuel : nat) (symbol : SourceSymbol) : SourceSymbol :=
  let sorted := sort _ s_compare (s_children symbol) in
  mkSourceSymbol (s_name symbol) (s_detail symbol) (s_kind symbol)
    (s_range symbol) (s_rangeRef symbol) (s_selectionRange symbol) (s_uri symbol)
    match fuel with
    | 0 => sorted
    | S n => map (s_sortedInPlace n) sorted
    end.

(** [new CSymbol(symbol, document, parent)] for a [symbol] that is a
    [SourceSymbol]: the base constructor sorts the children of [symbol] in
    place (and theirs), then each child of [symbol] is converted in that
    order. *)
Fixpoint buildCSymbol (fuel : nat) (symbol : SourceSymbol) (doc : TextDocument)
  : CSymbol :=
  let symbol := s_sortedInPlace (s_height symbol) symbol in
  mkCSymbol (s_name symbol) (s_detail symbol) (s_kind symbol)
    (s_range symbol) (s_rangeRef symbol) (s_selectionRange symbol) (doc_uri doc) doc
    match fuel with
    | 0 => []
    | S n => map (fun child => buildCSymbol n child doc) (s_children symbol)
    end.

Definition CSymbol_new (symbol : SourceSymbol) (doc : TextDocument) : CSymbol :=
  buildCSymbol (s_height symbol) symbol doc.

(** [new CSymbol(symbol, document, parent)] for a [symbol] that is a plain
    document symbol: the base constructor sorts its children in place, the
    symbol is turned into a [SourceSymbol], and the children of that one are
    converted. *)
Definition CSymbol_ofDocumentSymbol (symbol : DocumentSymbol) (doc : TextDocument)
  : CSymbol :=
  let symbol := sortedInPlace (d_height symbol) symbol in
  let symbol' := SourceSymbol_new symbol (doc_uri doc) in
  mkCSymbol (d_name symbol) (d_detail symbol) (d_kind symbol)
    (d_range symbol) (d_rangeRef symbol) (d_selectionRange symbol) (doc_uri doc) doc
    (map (fun child => CSymbol_new child doc) (s_children symbol')).

(** [SourceFile.executeSourceSymbolProvider], on what the symbol provider
    answered for the file. *)
Definition executeSourceSymbolProvider
    (documentSymbols : option (list DocumentSymbol)) (uri : Uri)
  : list SourceSymbol :=
  match documentSymbols with
  | None => []
  | Some documentSymbols =>
      map (fun newSymbol => SourceSymbol_new newSymbol uri)
          (sort _ d_compare documentSymbols)
  end.

End Construction.

(* ------------------------------------------------------------------ *)
(** ** The C/C++ symbol *)

(** [CSymbol.text()]: all the text contained in the symbol. *)
Definition CSymbol_text (this : CSymbol) : str :=
  getText (document this) (range this).

(** [CSymbol.id()]: the identifier of the symbol. *)
Definition id (this : CSymbol) : str :=
  getText (document this) (selectionRange this).

(** [CSymbol.baseName()] *)
Definition baseName (this : CSymbol) : str := baseNameOf (id this).

Definition isMemberVariable (this : CSymbol) : bool :=
  kind_eqb (kind this) Field.

Definition isFunction (this : CSymbol) : bool :=
  match kind this with
  | Operator | Method | Constructor | Function_ => true
  | _ => false
  end.

(** [CSymbol.getterName(memberBaseName?)] *)
Definition getterNameWith (this : CSymbol) (memberBaseName : option str) : str :=
  if negb (isMemberVariable this) then []
  else
    let memberBaseName :=
      match memberBaseName with
      | Some (c :: b) => c :: b
      | _ => baseName this
      end in
    if str_eqb memberBaseName (id this)
    then units "get" ++ firstCharToUpper memberBaseName
    else memberBaseName.

(** [CSymbol.setterName(memberBaseName?)] *)
Definition setterNameWith (this : CSymbol) (memberBaseName : option str) : str :=
  if negb (isMemberVariable this) then []
  else
    let memberBaseName :=
      match memberBaseName with
      | Some (c :: b) => c :: b
      | _ => baseName this
      end in
    units "set" ++ firstCharToUpper memberBaseName.

(** [getterName()] and [setterName()], called without an argument. *)
Definition getterName (this : CSymbol) : str := getterNameWith this None.
Definition setterName (this : CSymbol) : str := setterNameWith this None.

(** [CSymbol.isBefore(offset)] and [CSymbol.isAfter(offset)] *)
Definition CSymbol_isBefore (this : CSymbol) (offset : nat) : bool :=
  offsetAt (document this) (end_ (range this)) <? offset.

Definition CSymbol_isAfter (this : CSymbol) (offset : nat) : bool :=
  offset <? offsetAt (document this) (start (range this)).

Record ProposedPosition := mkProposedPosition {
  value : Position;
  before : option bool;
  after : option bool;
  nextTo : option bool      (* signals not to put a blank line between *)
}.

(** Line 295: a word boundary, [public], white space, a colon. *)
Definition re_public : regex :=
  cat [WordBoundary; word "public"; Star (Char is_space); lit ":"].

(** Line 303: a word unit, more word units, white space, a colon that no
    colon follows. *)
Definition re_label : regex :=
  cat [Char is_word; Star (Char is_word); Star (Char is_space); lit ":";
       Ahead false (lit ":")].

(** The first element of [l] at an index below [n], searched from index
    [n - 1] down to 0, that satisfies [p], with its index. *)
Fixpoint searchDown {A : Type} (p : A -> bool) (l : list A) (n : nat)
  : option (nat * A) :=
  match n with
  | 0 => None
  | S i =>
      match nth_error l i with
      | Some x => if p x then Some (i, x) else searchDown p l i
      | None => searchDown p l i
      end
  end.

Section Methods.

Variable sort : forall A : Type, (A -> A -> Z) -> list A -> list A.

Definition lastChildPositionOrUndefined (this : CSymbol) : option ProposedPosition :=
  match nth_error (children this) (length (children this) - 1) with
  | None => None
  | Some child => Some (mkProposedPosition (end_ (range child)) None (Some true) None)
  end.

Definition symbolIsBetween (symbol : CSymbol) (afterOffset beforeOffset : nat) : bool :=
  isFunction symbol && CSymbol_isAfter symbol afterOffset
  && CSymbol_isBefore symbol beforeOffset.

(** The offset of the first [public:] in the text of the symbol, relative to
    that text (line 295). *)
Definition publicSpecifierIndex (this : CSymbol) : option nat :=
  option_map fst (exec re_public (CSymbol_text this) 0).

(** Lines 302 to 317: the end of the public section, as an offset in the
    document, for a public specifier at offset [publicSpecifierOffset] of
    the document. *)
Definition nextAccessSpecifierOffset (this : CSymbol) (publicSpecifierOffset : nat)
  : nat :=
  let startOffset := offsetAt (document this) (start (range this)) in
  match find (fun m : nat * nat =>
                negb (fst m =? 0) && (publicSpecifierOffset <? fst m))
             (matchAll re_label (CSymbol_text this)) with
  | None => offsetAt (document this) (end_ (range this))
  | Some m => fst m + startOffset
  end.

(** [new CSymbol(this.children[i], this.document, this)] *)
Definition childSymbol (this : CSymbol) (child : CSymbol) : CSymbol :=
  CSymbol_new sort (asSourceSymbol child) (document this).

(** [CSymbol.findPositionForNewMethod(relativeName?, memberVariable?)] *)
Definition findPositionForNewMethod (this : CSymbol) (relativeName : option str)
    (memberVariable : option CSymbol) : option ProposedPosition :=
  if negb (kind_eqb (kind this) Class) && negb (kind_eqb (kind this) Struct)
  then lastChildPositionOrUndefined this
  else
    let startOffset := offsetAt (document this) (start (range this)) in
    match publicSpecifierIndex this with
    | None | Some 0 => lastChildPositionOrUndefined this
    | Some publicSpecifierIndex =>
        let publicSpecifierOffset := publicSpecifierIndex + startOffset in
        let nextAccessSpecifierOffset :=
          nextAccessSpecifierOffset this publicSpecifierOffset in
        let isBetween := fun child =>
          symbolIsBetween (childSymbol this child)
            publicSpecifierOffset nextAccessSpecifierOffset in
        match searchDown isBetween (children this) (length (children this)) with
        | None | Some (0, _) => lastChildPositionOrUndefined this
        | Some (fallbackIndex, child) =>
            let fallbackPosition :=
              mkProposedPosition (end_ (range (childSymbol this child)))
                None (Some true) None in
            match relativeName with
            | None | Some [] => Some fallbackPosition
            | Some relativeName =>
                let isGetter :=
                  match memberVariable with
                  | Some memberVariable =>
                      str_eqb relativeName (setterName memberVariable)
                  | None => false
                  end in
                match searchDown
                        (fun child =>
                           isBetween child
                           && str_eqb (id (childSymbol this child)) relativeName)
                        (children this) (S fallbackIndex) with
                | Some (_, child) =>
                    let symbol := childSymbol this child in
                    if isGetter
                    then Some (mkProposedPosition (start (range symbol))
                                 (Some true) None (Some true))
                    else Some (mkProposedPosition (end_ (range symbol))
                                 None (Some true) (Some true))
                | None => Some fallbackPosition
                end
            end
        end
    end.

End Methods.

(* ------------------------------------------------------------------ *)
(** ** The host editor *)

Record Location := mkLocation { loc_uri : Uri; loc_range : Range }.

(** What the definition provider answers: locations or location links. *)
Inductive DefinitionResult :=
| ALocation (location : Location)
| ALocationLink (targetUri : Uri) (targetRange : Range).

(** The capabilities of the editor that the module calls:
    [vscode.executeDocumentSymbolProvider], [vscode.executeDefinitionProvider]
    and [vscode.workspace.workspaceFolders] (the uri of each folder). *)
Record Host := mkHost {
  documentSymbolProvider : Uri -> option (list DocumentSymbol);
  definitionProvider : Uri -> Position -> option (list DefinitionResult);
  workspaceFolders : option (list Uri)
}.

(** The loop of [findDefinitionInWorkspace] over the results. *)
Fixpoint selectDefinition (folders : option (list Uri)) (position : Position)
    (uri : Uri) (definitionResults : list DefinitionResult) : option Location :=
  match definitionResults with
  | [] => None
  | result :: rest =>
      let location :=
        match result with
        | ALocation l => l
        | ALocationLink targetUri targetRange => mkLocation targetUri targetRange
        end in
      if str_eqb (path (loc_uri location)) (path uri)
         && negb (contains (loc_range location) position)
      then Some location
      else
        match folders with
        | Some folders =>
            if negb (str_eqb (path (loc_uri location)) (path uri))
               && existsb (fun folder =>
                             includes (path (loc_uri location)) (path folder))
                          folders
            then Some location
            else selectDefinition (Some folders) position uri rest
        | None => selectDefinition None position uri rest
        end
  end.

(** [findDefinitionInWorkspace(position, uri)] *)
Definition findDefinitionInWorkspace (host : Host) (position : Position) (uri : Uri)
  : option Location :=
  match definitionProvider host uri position with
  | None => None
  | Some definitionResults =>
      selectDefinition (workspaceFolders host) position uri definitionResults
  end.

(* ------------------------------------------------------------------ *)
(** ** Source files *)

(** The search of [SourceFile.getSymbol] below one symbol whose range
    contains the position: the symbol itself when it has no children, else
    the search among its children. *)
Fixpoint searchBelow (position : Position) (sourceSymbol : SourceSymbol)
  : option SourceSymbol :=
  match sourceSymbol with
  | mkSourceSymbol _ _ _ _ _ _ _ [] => Some sourceSymbol
  | mkSourceSymbol _ _ _ _ _ _ _ cs =>
      (fix searchSymbolTree (sourceSymbols : list SourceSymbol) :=
         match sourceSymbols with
         | [] => None
         | s :: rest =>
             if negb (contains (s_range s) position)
             then searchSymbolTree rest
             else searchBelow position s
         end) cs
  end.

(** [searchSymbolTree] of [SourceFile.getSymbol] (lines 525 to 537). *)
Fixpoint searchSymbolTree (position : Position) (sourceSymbols : list SourceSymbol)
  : option SourceSymbol :=
  match sourceSymbols with
  | [] => None
  | sourceSymbol :: rest =>
      if negb (contains (s_range sourceSymbol) position)
      then searchSymbolTree position rest
      else searchBelow position sourceSymbol
  end.

(** [getEndOfStatement(position, document)] *)
Fixpoint skipSemicolons (doc : TextDocument) (fuel : nat) (position : Position)
  : Position :=
  match fuel with
  | 0 => position
  | S n =>
      let nextPosition := translate position 0 1 in
      if str_eqb (getText doc (newRange position nextPosition)) (units ";")
      then skipSemicolons doc n nextPosition
      else position
  end.

Definition getEndOfStatement (position : Position) (doc : TextDocument) : Position :=
  skipSemicolons doc (length (lineText doc (line position))) position.

(** [a > b] between two objects that define neither [valueOf] nor [toString],
    as the editor's Range: the language converts each to the string
    [[object Object]] and compares the two strings. *)
Definition objectToString {A : Type} (_ : A) : str := units "[object Object]".

Fixpoint str_ltb (a b : str) : bool :=
  match a, b with
  | _, [] => false
  | [], _ :: _ => true
  | x :: a', y :: b' => N.ltb x y || (N.eqb x y && str_ltb a' b')
  end.

Definition object_gt {A : Type} (a b : A) : bool :=
  str_ltb (objectToString b) (objectToString a).

(** Line 764: [^#include\s*(<.+>)] or [(.+)$] between double quotes. *)
Definition re_include : regex :=
  Alt (cat [Bol; word "#include"; Star (Char is_space);
            lit "<"; plus dot; lit ">"])
      (cat [litN dquote; plus dot; litN dquote; Eol]).

(** Line 772: [<.+>] *)
Definition re_angled : regex := cat [lit "<"; plus dot; lit ">"].

(** Line 780: [.+] between double quotes *)
Definition re_dquoted : regex := cat [litN dquote; plus dot; litN dquote].

(** [largestBlock] of [findPositionForNewInclude] (lines 751 to 756), for a
    block that starts at [from]. *)
Definition largestBlock (line : TextLine) (from : Position) (largest : option Range)
  : Range :=
  let r := newRange from (start (line_range line)) in
  match largest with
  | None => r
  | Some largest => if object_gt r largest then r else largest
  end.

Record IncludeBlocks := mkIncludeBlocks {
  systemIncludeStart : option Position;
  projectIncludeStart : option Position;
  largestSystemIncludeBlock : option Range;
  largestProjectIncludeBlock : option Range
}.

(** The body of the loop over the lines (lines 763 to 788). *)
Definition includeLine (line : TextLine) (b : IncludeBlocks) : IncludeBlocks :=
  if negb (test re_include (trim (text line))) then
    match systemIncludeStart b, projectIncludeStart b with
    | Some s, _ =>
        mkIncludeBlocks None (projectIncludeStart b)
          (Some (largestBlock line s (largestSystemIncludeBlock b)))
          (largestProjectIncludeBlock b)
    | None, Some p =>
        mkIncludeBlocks None None (largestSystemIncludeBlock b)
          (Some (largestBlock line p (largestProjectIncludeBlock b)))
    | None, None => b
    end
  else if test re_angled (text line) then
    let systemStart :=
      match systemIncludeStart b with
      | None => Some (start (line_range line))
      | Some s => Some s
      end in
    match projectIncludeStart b with
    | Some p =>
        mkIncludeBlocks systemStart None (largestSystemIncludeBlock b)
          (Some (largestBlock line p (largestProjectIncludeBlock b)))
    | None =>
        mkIncludeBlocks systemStart None (largestSystemIncludeBlock b)
          (largestProjectIncludeBlock b)
    end
  else if test re_dquoted (text line) then
    let projectStart :=
      match projectIncludeStart b with
      | None => Some (start (line_range line))
      | Some p => Some p
      end in
    match systemIncludeStart b with
    | Some s =>
        mkIncludeBlocks None projectStart
          (Some (largestBlock line s (largestSystemIncludeBlock b)))
          (largestProjectIncludeBlock b)
    | None =>
        mkIncludeBlocks None projectStart (largestSystemIncludeBlock b)
          (largestProjectIncludeBlock b)
    end
  else b.

(** The loop over the lines of the document (line 762). *)
Definition includeBlocks (doc : TextDocument) : IncludeBlocks :=
  fold_left
    (fun b i => match lineAt doc i with
                | Some line => includeLine line b
                | None => b
                end)
    (seq 0 (lineCount doc))
    (mkIncludeBlocks None None None None).

(** The last line at an index below [n] that is not blank, searched from
    [n - 1] down to 0 (lines 819 to 824 and 689 to 693); the outer [None] is
    the error of [lineAt]. *)
Fixpoint lastTextLine (doc : TextDocument) (n : nat) : option (option TextLine) :=
  match n with
  | 0 => Some None
  | S i =>
      match lineAt doc i with
      | None => None
      | Some line =>
          if negb (isEmptyOrWhitespace line) then Some (Some line)
          else lastTextLine doc i
      end
  end.

Record IncludePositions := mkIncludePositions {
  system : Position;
  project : Position
}.

Record SourceDocument := mkSourceDocument {
  sd_document : TextDocument;
  symbols : option (list SourceSymbol)     (* the cached tree, once asked for *)
}.

Definition sd_uri (this : SourceDocument) : Uri := doc_uri (sd_document this).

(** The [target] argument of [findPositionForNewDefinition]: the object of
    the call itself ([this]), or another object. *)
Inductive TargetDocument :=
| SameDocument
| OtherDocument (target : SourceDocument).

Section Documents.

Variable sort : forall A : Type, (A -> A -> Z) -> list A -> list A.
Variable host : Host.

(** [if (!this.symbols) this.symbols = await this.executeSourceSymbolProvider()]:
    the tree of the document once it has been asked for. *)
Definition symbolsOf (this : SourceDocument) : list SourceSymbol :=
  match symbols this with
  | Some cached => cached
  | None =>
      executeSourceSymbolProvider sort (documentSymbolProvider host (sd_uri this))
        (sd_uri this)
  end.

(** [SourceFile.getSymbol(position)] *)
Definition getSymbol (this : SourceDocument) (position : Position)
  : option SourceSymbol :=
  searchSymbolTree position (symbolsOf this).

(** [SourceDocument.getSymbol(position)] *)
Definition getCSymbol (this : SourceDocument) (position : Position) : option CSymbol :=
  match getSymbol this position with
  | None => None
  | Some sourceSymbol => Some (CSymbol_new sort sourceSymbol (sd_document this))
  end.

(** [SourceDocument.findPositionForNewInclude()]; [None] stands for the
    error of [lineAt] on a line that the document does not have. *)
Definition findPositionForNewInclude (this : SourceDocument) : option IncludePositions :=
  let b := includeBlocks (sd_document this) in
  let systemIncludePos :=
    match largestSystemIncludeBlock b, largestProjectIncludeBlock b with
    | Some s, _ => Some (end_ s)
    | None, Some p => Some (end_ p)
    | None, None => None
    end in
  let projectIncludePos :=
    match largestSystemIncludeBlock b, largestProjectIncludeBlock b with
    | _, Some p => Some (end_ p)
    | Some s, None => Some (end_ s)
    | None, None => None
    end in
  match systemIncludePos, projectIncludePos with
  | Some systemIncludePos, Some projectIncludePos =>
      Some (mkIncludePositions systemIncludePos projectIncludePos)
  | _, _ =>
      (* the lines [startLineNum] down to 0: their number *)
      let linesToScan :=
        match symbolsOf this with
        | [] => lineCount (sd_document this)
        | first :: _ => S (line (start (s_range first)))
        end in
      match lastTextLine (sd_document this) linesToScan with
      | None => None
      | Some (Some line) =>
          Some (mkIncludePositions (end_ (line_range line)) (end_ (line_range line)))
      | Some None => Some (mkIncludePositions (mkPosition 0 0) (mkPosition 0 0))
      end
  end.

(** Lines 699 to 714: the siblings that come before and after the
    declaration. The test [symbol.range === declaration.range] compares the
    two Range objects by identity. *)
Fixpoint splitSiblings (declarationRangeRef : nat) (siblingSymbols : list SourceSymbol)
    (hitTarget : bool) : list SourceSymbol * list SourceSymbol :=
  match siblingSymbols with
  | [] => ([], [])
  | symbol :: rest =>
      if s_rangeRef symbol =? declarationRangeRef
      then splitSiblings declarationRangeRef rest true
      else
        let (before, after) := splitSiblings declarationRangeRef rest hitTarget in
        if negb hitTarget then (symbol :: before, after)
        else (before, symbol :: after)
  end.

(** The first of [siblings] whose definition is found in the target file
    and is a symbol of the target; the range of that symbol. *)
Fixpoint relativeDefinition (this target : SourceDocument)
    (siblings : list SourceSymbol) : option Range :=
  match siblings with
  | [] => None
  | symbol :: rest =>
      match findDefinitionInWorkspace host (start (s_selectionRange symbol))
              (sd_uri this) with
      | None => relativeDefinition this target rest
      | Some definitionLocation =>
          if negb (str_eqb (path (loc_uri definitionLocation)) (path (sd_uri target)))
          then relativeDefinition this target rest
          else
            match getCSymbol target (start (loc_range definitionLocation)) with
            | Some definition => Some (range definition)
            | None => relativeDefinition this target rest
            end
      end
  end.

(** [SourceDocument.findPositionForNewDefinition(declaration, target?)], for
    a declaration given with its parent. [None] stands for the error that
    reading the last symbol of an empty tree raises. The target is an
    object: when it is [this] itself, passed by the caller or taken by
    line 683, it holds the tree that line 677 has cached in [this]. The
    trees that the call caches in [this] and in [target] are not returned. *)
Definition findPositionForNewDefinition (this : SourceDocument)
    (declaration : SourceSymbol) (parent : option SourceSymbol)
    (target : option TargetDocument) : option ProposedPosition :=
  let thisSymbols := symbolsOf this in
  let this := mkSourceDocument (sd_document this) (Some thisSymbols) in
  if negb (str_eqb (path (s_uri declaration)) (path (sd_uri this)))
     || (match parent with None => true | Some _ => false end
         && (length thisSymbols =? 0))
  then Some (mkProposedPosition (mkPosition 0 0) None None None)
  else
    let target :=
      match target with
      | Some (OtherDocument t) => t
      | Some SameDocument | None => this
      end in
    let targetSymbols := symbolsOf target in
    let emptyTarget :=
      match symbols target with
      | None => length targetSymbols =? 0
      | Some _ => false
      end in
    if emptyTarget then
      match lastTextLine (sd_document target) (lineCount (sd_document target)) with
      | None => None
      | Some (Some line) =>
          Some (mkProposedPosition (end_ (line_range line)) None (Some true) None)
      | Some None => Some (mkProposedPosition (mkPosition 0 0) None None None)
      end
    else
      let target := mkSourceDocument (sd_document target) (Some targetSymbols) in
      let siblingSymbols :=
        match parent with
        | Some parent => s_children parent
        | None => thisSymbols
        end in
      let (before, after) :=
        splitSiblings (s_rangeRef declaration) siblingSymbols false in
      match relativeDefinition this target (rev before) with
      | Some r =>
          Some (mkProposedPosition
                  (getEndOfStatement (end_ r) (sd_document target))
                  None (Some true) None)
      | None =>
          match relativeDefinition this target after with
          | Some r =>
              Some (mkProposedPosition
                      (getEndOfStatement (start r) (sd_document target))
                      (Some true) None None)
          | None =>
              match nth_error targetSymbols (length targetSymbols - 1) with
              | Some lastSymbol =>
                  Some (mkProposedPosition
                          (getEndOfStatement (end_ (s_range lastSymbol))
                             (sd_document target))
                          None (Some true) None)
              | None => None
              end
          end
      end.

End Documents.

(* ------------------------------------------------------------------ *)
(** * Definitions of the statements

    The predicates in which the properties are stated, the regions and
    policies in the words of the spec that the code is compared with, a
    sort that stands for the engine's, and the documents and symbols that
    the properties are tried on. *)

(** ** Accessor names *)

(** A member variable declared as [int m_count;]. *)
Definition doc_m_count : TextDocument :=
  mkTextDocument (mkUri (units "file") (units "/a.h")) LF
    [units "int m_count;"].

Definition sym_m_count : CSymbol :=
  mkCSymbol (units "m_count") [] Field
    (mkRange (mkPosition 0 0) (mkPosition 0 11)) 1
    (mkRange (mkPosition 0 4) (mkPosition 0 11))
    (doc_uri doc_m_count) doc_m_count [].

(** A member variable declared as [int count;]. *)
Definition doc_count : TextDocument :=
  mkTextDocument (mkUri (units "file") (units "/a.h")) LF
    [units "int count;"].

Definition sym_count : CSymbol :=
  mkCSymbol (units "count") [] Field
    (mkRange (mkPosition 0 0) (mkPosition 0 9)) 1
    (mkRange (mkPosition 0 4) (mkPosition 0 9))
    (doc_uri doc_count) doc_count [].

(** ** Selection of a definition *)

Definition locationOf (result : DefinitionResult) : Location :=
  match result with
  | ALocation l => l
  | ALocationLink targetUri targetRange => mkLocation targetUri targetRange
  end.

(** A candidate in the file of the query whose range does not contain the
    queried position. *)
Definition sameFileElsewhere (position : Position) (uri : Uri) (l : Location) : bool :=
  str_eqb (path (loc_uri l)) (path uri) && negb (contains (loc_range l) position).

(** A candidate in another file whose path includes the path of a workspace
    folder. *)
Definition otherFileInWorkspace (folders : option (list Uri)) (uri : Uri)
    (l : Location) : bool :=
  negb (str_eqb (path (loc_uri l)) (path uri))
  && match folders with
     | Some folders =>
         existsb (fun folder => includes (path (loc_uri l)) (path folder)) folders
     | None => false
     end.

(** The selection policy in the words of the spec: the first same-file
    candidate whose range does not contain the position; only when there is
    none, the first candidate under a workspace folder. *)
Definition preferSameFile (folders : option (list Uri)) (position : Position)
    (uri : Uri) (results : list DefinitionResult) : option Location :=
  match find (sameFileElsewhere position uri) (map locationOf results) with
  | Some l => Some l
  | None =>
      find (fun l =>
              match folders with
              | Some folders =>
                  existsb (fun folder => includes (path (loc_uri l)) (path folder))
                          folders
              | None => false
              end)
           (map locationOf results)
  end.

Definition file_uri (p : string) : Uri := mkUri (units "file") (units p).

Definition span (l1 c1 l2 c2 : nat) : Range :=
  mkRange (mkPosition l1 c1) (mkPosition l2 c2).

(** A query from [/ws/a.h] at line 3: the provider lists the definition in
    [/ws/a.cpp] first and another declaration in [/ws/a.h] second. *)
Definition host_two_candidates : Host :=
  mkHost (fun _ => None)
    (fun _ _ =>
       Some [ALocation (mkLocation (file_uri "/ws/a.cpp") (span 10 0 12 1));
             ALocation (mkLocation (file_uri "/ws/a.h") (span 20 0 20 10))])
    (Some [file_uri "/ws"]).

(** ** Symbol lookup by position *)

Section SourceSymbol_induction.

Variable P : SourceSymbol -> Prop.
Hypothesis step : forall s, Forall P (s_children s) -> P s.

Fixpoint SourceSymbol_induction (s : SourceSymbol) : P s :=
  step s
    ((fix all (l : list SourceSymbol) : Forall P l :=
        match l with
        | [] => Forall_nil P
        | c :: l' => Forall_cons c (SourceSymbol_induction c) (all l')
        end) (s_children s)).

End SourceSymbol_induction.

(** The search reaches [s] from the list [l]: [s] is the first symbol of [l]
    whose range contains the position, or lies that way below the first
    such symbol. *)
Inductive Reaches (position : Position) : list SourceSymbol -> SourceSymbol -> Prop :=
| reaches_here pre s post :
    Forall (fun x => contains (s_range x) position = false) pre ->
    contains (s_range s) position = true ->
    Reaches position (pre ++ s :: post) s
| reaches_below pre p post s :
    Forall (fun x => contains (s_range x) position = false) pre ->
    contains (s_range p) position = true ->
    Reaches position (s_children p) s ->
    Reaches position (pre ++ p :: post) s.

(** ** The siblings of a declaration *)

Definition otherRange (declarationRangeRef : nat) (s : SourceSymbol) : bool :=
  negb (s_rangeRef s =? declarationRangeRef).

(** Three sibling declarations of a header, each with a Range object of its
    own (1, 2 and 3). *)
Definition sibling (n : string) (l : nat) (ref : nat) : SourceSymbol :=
  mkSourceSymbol (units n) (units "declaration") Function_
    (span l 0 l 12) ref (span l 5 l 9) (file_uri "/ws/a.h") [].

Definition three_siblings : list SourceSymbol :=
  [sibling "f()" 0 1; sibling "g()" 1 2; sibling "h()" 2 3].

(** The split in the words of the spec: by equality of the range values. *)
Fixpoint splitByRangeValue (declarationRange : Range)
    (siblingSymbols : list SourceSymbol) (hitTarget : bool)
  : list SourceSymbol * list SourceSymbol :=
  match siblingSymbols with
  | [] => ([], [])
  | symbol :: rest =>
      if range_eqb (s_range symbol) declarationRange
      then splitByRangeValue declarationRange rest true
      else
        let (before, after) := splitByRangeValue declarationRange rest hitTarget in
        if negb hitTarget then (symbol :: before, after)
        else (before, symbol :: after)
  end.

(** ** Include blocks *)

(** A header with one system include, a blank line, two more system
    includes, a blank line and a declaration. *)
Definition doc_two_include_runs : TextDocument :=
  mkTextDocument (file_uri "/ws/a.h") LF
    [units "#include <a>";
     units "";
     units "#include <b>";
     units "#include <c>";
     units "";
     units "int x;"].

(** ** Order of the symbol tree, and the engine's sort *)

(** What the construction relies on from the engine's [sort]: the result is
    a rearrangement of the array; and for a comparison function that never
    answers 0 and whose negative answers form a total, transitive relation,
    every element of the result compares negative with the ones after it. *)
Definition ComparisonSort
    (sort : forall A : Type, (A -> A -> Z) -> list A -> list A) : Prop :=
  forall (A : Type) (cmp : A -> A -> Z) (l : list A),
    Permutation l (sort A cmp l)
    /\ ((forall a b, cmp a b <> 0%Z) ->
        (forall a b, (cmp a b < 0)%Z \/ (cmp b a < 0)%Z) ->
        (forall a b c, (cmp a b < 0)%Z -> (cmp b c < 0)%Z -> (cmp a c < 0)%Z) ->
        StronglySorted (fun a b => (cmp a b < 0)%Z) (sort A cmp l)).

(** A sort of that kind: insertion from the right, by the sign of the
    comparison. *)
Fixpoint insertBy {A : Type} (cmp : A -> A -> Z) (x : A) (l : list A) : list A :=
  match l with
  | [] => [x]
  | y :: l' => if (cmp x y <? 0)%Z then x :: y :: l' else y :: insertBy cmp x l'
  end.

Fixpoint insertionSort (A : Type) (cmp : A -> A -> Z) (l : list A) : list A :=
  match l with
  | [] => []
  | x :: l' => insertBy cmp x (insertionSort _ cmp l')
  end.

(** Each position is before or equal to the next one. *)
Definition orderedByStart (starts : list Position) : Prop :=
  forall i a b,
    nth_error starts i = Some a -> nth_error starts (S i) = Some b ->
    isBeforeOrEqual a b = true.

(** The tree of a [SourceSymbol] is ordered: at every level the children
    are in the order of their starts. *)
Inductive s_Ordered : SourceSymbol -> Prop :=
| s_ordered s :
    orderedByStart (map (fun c => start (s_range c)) (s_children s)) ->
    Forall s_Ordered (s_children s) ->
    s_Ordered s.

Inductive c_Ordered : CSymbol -> Prop :=
| c_ordered s :
    orderedByStart (map (fun c => start (range c)) (children s)) ->
    Forall c_Ordered (children s) ->
    c_Ordered s.

(** ** The number of symbols of a tree *)

Fixpoint d_size (d : DocumentSymbol) : nat :=
  match d with
  | mkDocumentSymbol _ _ _ _ _ _ cs => S (list_sum (map d_size cs))
  end.

Fixpoint s_size (s : SourceSymbol) : nat :=
  match s with
  | mkSourceSymbol _ _ _ _ _ _ _ cs => S (list_sum (map s_size cs))
  end.

Fixpoint c_size (c : CSymbol) : nat :=
  match c with
  | mkCSymbol _ _ _ _ _ _ _ _ cs => S (list_sum (map c_size cs))
  end.

(** A class whose members the provider lists out of order, as are the
    parameters of its method. *)
Definition raw_symbol (n : string) (k : SymbolKind) (r : Range) (ref : nat)
    (sel : Range) (cs : list DocumentSymbol) : DocumentSymbol :=
  mkDocumentSymbol (units n) [] k r ref sel cs.

Definition raw_class : DocumentSymbol :=
  raw_symbol "A" Class (span 0 0 6 1) 1 (span 0 6 0 7)
    [raw_symbol "setX(int)" Method (span 3 2 3 17) 2 (span 3 7 3 11)
       [raw_symbol "b" Variable_ (span 3 14 3 15) 5 (span 3 14 3 15) [];
        raw_symbol "a" Variable_ (span 3 12 3 13) 6 (span 3 12 3 13) []];
     raw_symbol "x" Field (span 5 2 5 7) 3 (span 5 6 5 7) [];
     raw_symbol "getX()" Method (span 2 2 2 12) 4 (span 2 6 2 10) []].

(** ** The position of a new method: sample classes *)

Definition classOrStruct (this : CSymbol) : Prop :=
  kind this = Class \/ kind this = Struct.

(** [r] is anchored at [child]: after its end, or before its start. *)
Definition anchoredAt (r : ProposedPosition) (child : CSymbol) : Prop :=
  r = mkProposedPosition (end_ (range child)) None (Some true) None
  \/ r = mkProposedPosition (end_ (range child)) None (Some true) (Some true)
  \/ r = mkProposedPosition (start (range child)) (Some true) None (Some true).

(** A class with a public getter and setter and a private member. *)
Definition doc_classA : TextDocument :=
  mkTextDocument (file_uri "/ws/a.h") LF
    [units "class A {";
     units "public:";
     units "  int getX();";
     units "  void setX(int);";
     units "private:";
     units "  int x;";
     units "};"].

Definition raw_classA : DocumentSymbol :=
  raw_symbol "A" Class (span 0 0 6 1) 1 (span 0 6 0 7)
    [raw_symbol "x" Field (span 5 2 5 7) 4 (span 5 6 5 7) [];
     raw_symbol "setX(int)" Method (span 3 2 3 16) 3 (span 3 7 3 11) [];
     raw_symbol "getX()" Method (span 2 2 2 12) 2 (span 2 6 2 10) []].

Definition classA : CSymbol :=
  Eval vm_compute in CSymbol_ofDocumentSymbol insertionSort raw_classA doc_classA.

Definition classA_getX : CSymbol :=
  mkCSymbol (units "getX()") [] Method (span 2 2 2 12) 2 (span 2 6 2 10)
    (file_uri "/ws/a.h") doc_classA [].

Definition classA_setX : CSymbol :=
  mkCSymbol (units "setX(int)") [] Method (span 3 2 3 16) 3 (span 3 7 3 11)
    (file_uri "/ws/a.h") doc_classA [].

Definition classA_x : CSymbol :=
  mkCSymbol (units "x") [] Field (span 5 2 5 7) 4 (span 5 6 5 7)
    (file_uri "/ws/a.h") doc_classA [].

(** A class whose first lines, private by default, hold a comment that
    mentions [public:]. *)
Definition doc_classB : TextDocument :=
  mkTextDocument (file_uri "/ws/b.h") LF
    [units "class B {";
     units "  // public: below";
     units "  int hidden();";
     units "  void secret();";
     units "public:";
     units "  int getX();";
     units "  void setX(int);";
     units "};"].

Definition raw_classB : DocumentSymbol :=
  raw_symbol "B" Class (span 0 0 7 1) 1 (span 0 6 0 7)
    [raw_symbol "hidden()" Method (span 2 2 2 14) 2 (span 2 6 2 12) [];
     raw_symbol "secret()" Method (span 3 2 3 15) 3 (span 3 7 3 13) [];
     raw_symbol "getX()" Method (span 5 2 5 12) 4 (span 5 6 5 10) [];
     raw_symbol "setX(int)" Method (span 6 2 6 16) 5 (span 6 7 6 11) []].

Definition classB : CSymbol :=
  Eval vm_compute in CSymbol_ofDocumentSymbol insertionSort raw_classB doc_classB.

(** A class that starts at offset 32 of its document. *)
Definition doc_classC : TextDocument :=
  mkTextDocument (file_uri "/ws/c.h") LF
    [units "#pragma once";
     units "#include <string>";
     units "";
     units "class C {";
     units "public:";
     units "  int getX();";
     units "private:";
     units "  int secret();";
     units "};"].

Definition raw_classC : DocumentSymbol :=
  raw_symbol "C" Class (span 3 0 8 1) 1 (span 3 6 3 7)
    [raw_symbol "getX()" Method (span 5 2 5 12) 2 (span 5 6 5 10) [];
     raw_symbol "secret()" Method (span 7 2 7 14) 3 (span 7 6 7 12) []].

Definition classC : CSymbol :=
  Eval vm_compute in CSymbol_ofDocumentSymbol insertionSort raw_classC doc_classC.

Definition tree_classA : list SourceSymbol :=
  [SourceSymbol_new insertionSort raw_classA (file_uri "/ws/a.h")].

(** A class whose first public method is defined in the class, with a
    conditional expression in its body. *)
Definition doc_classE : TextDocument :=
  mkTextDocument (file_uri "/ws/e.h") LF
    [units "class E {";
     units "public:";
     units "  int getX() { return x > 0 ? x : 0; }";
     units "  void setX(int);";
     units "private:";
     units "  int x;";
     units "};"].

Definition raw_classE : DocumentSymbol :=
  raw_symbol "E" Class (span 0 0 6 1) 1 (span 0 6 0 7)
    [raw_symbol "getX()" Method (span 2 2 2 38) 2 (span 2 6 2 10) [];
     raw_symbol "setX(int)" Method (span 3 2 3 16) 3 (span 3 7 3 11) [];
     raw_symbol "x" Field (span 5 2 5 7) 4 (span 5 6 5 7) []].

Definition classE : CSymbol :=
  Eval vm_compute in CSymbol_ofDocumentSymbol insertionSort raw_classE doc_classE.

Definition classE_setX : CSymbol :=
  mkCSymbol (units "setX(int)") [] Method (span 3 2 3 16) 3 (span 3 7 3 11)
    (file_uri "/ws/e.h") doc_classE [].

Definition classE_x : CSymbol :=
  mkCSymbol (units "x") [] Field (span 5 2 5 7) 4 (span 5 6 5 7)
    (file_uri "/ws/e.h") doc_classE [].

(** A declaration whose symbols overlap: the provider gives the struct [P],
    with its member [x], and the name [p], whose range is the whole
    declaration. *)
Definition doc_typedef : TextDocument :=
  mkTextDocument (file_uri "/ws/p.h") LF [units "typedef struct P { int x; } p;"].

Definition raw_typedef : list DocumentSymbol :=
  [raw_symbol "P" Struct (span 0 8 0 27) 1 (span 0 15 0 16)
     [raw_symbol "x" Field (span 0 19 0 25) 2 (span 0 23 0 24) []];
   raw_symbol "p" Variable_ (span 0 0 0 30) 3 (span 0 28 0 29) []].

Definition host_typedef : Host :=
  mkHost (fun _ => Some raw_typedef) (fun _ _ => None) None.

Definition typedef_x : SourceSymbol :=
  mkSourceSymbol (units "x") [] Field (span 0 19 0 25) 2 (span 0 23 0 24)
    (file_uri "/ws/p.h") [].

Definition typedef_P : SourceSymbol :=
  mkSourceSymbol (units "P") [] Struct (span 0 8 0 27) 1 (span 0 15 0 16)
    (file_uri "/ws/p.h") [typedef_x].

Definition typedef_p : SourceSymbol :=
  mkSourceSymbol (units "p") [] Variable_ (span 0 0 0 30) 3 (span 0 28 0 29)
    (file_uri "/ws/p.h") [].

(** ** Matches and their replacement *)

(** The spans of [ms] follow each other from [pos] on, within [n] units. *)
Fixpoint spansFrom (n pos : nat) (ms : list (nat * nat)) : Prop :=
  match ms with
  | [] => True
  | (a, e) :: ms' => pos <= a /\ a <= e /\ e <= n /\ spansFrom n e ms'
  end.

(** The replacer of the masker, for a filler [c] of one unit. *)
Definition fill (c : N) : str -> str := fun m => str_repeat [c] (length m).

(** ** Regions of the lexical masker *)

Definition slash : N := chr "/".
Definition asterisk : N := chr "*".
Definition quote : N := chr "'".
Definition langle : N := chr "<".
Definition rangle : N := chr ">".
Definition space : N := chr " ".

(** The units from [a] up to [e] stand between two delimiters of [s]: after
    a slash-star and before a star-slash; after two slashes; after a quote
    and before a quote of the same kind; after [<] and before [>]. *)
Inductive Delimited (s : str) (a e : nat) : Prop :=
| in_block_comment k :
    a = S (S k) ->
    nth_error s k = Some slash -> nth_error s (S k) = Some asterisk ->
    nth_error s e = Some asterisk -> nth_error s (S e) = Some slash ->
    Delimited s a e
| in_line_comment k :
    a = S (S k) ->
    nth_error s k = Some slash -> nth_error s (S k) = Some slash ->
    Delimited s a e
| in_quotes q k :
    q = dquote \/ q = quote ->
    a = S k ->
    nth_error s k = Some q -> nth_error s e = Some q ->
    Delimited s a e
| in_angles k :
    a = S k ->
    nth_error s k = Some langle -> nth_error s e = Some rangle ->
    Delimited s a e.

(** [t] is [s] with some units inside delimited spans replaced by spaces. *)
Definition Masked (s t : str) : Prop :=
  length t = length s
  /\ forall i x, nth_error t i = Some x ->
       nth_error s i = Some x
       \/ (x = space /\ exists a e, a <= i < e /\ Delimited s a e).

(** The regions of the contract in the words of the spec, read off the text
    by a scanner of the lexical structure: the interior of block comments,
    of line comments, of quoted strings and characters (an escaped unit
    belongs to the literal) and of a first-level list between angle
    brackets. The scanner marks each unit as inside such a region or not;
    the delimiters themselves are outside, except the star that closes a
    block comment, which the scanner cannot tell from a star of the
    comment when it reads it. *)
Inductive LexState :=
| InCode | AfterSlash | InBlockComment | InBlockStar | InLineComment
| InQuoted (q : N) | InEscape (q : N) | InTemplate.

Definition lexCode (c : N) : LexState :=
  if N.eqb c slash then AfterSlash
  else if N.eqb c dquote || N.eqb c quote then InQuoted c
  else if N.eqb c langle then InTemplate
  else InCode.

(** The state after a unit, and whether the unit is inside a region. *)
Definition lexStep (st : LexState) (c : N) : LexState * bool :=
  match st with
  | InCode => (lexCode c, false)
  | AfterSlash =>
      if N.eqb c asterisk then (InBlockComment, false)
      else if N.eqb c slash then (InLineComment, false)
      else (lexCode c, false)
  | InBlockComment =>
      (if N.eqb c asterisk then InBlockStar else InBlockComment, true)
  | InBlockStar =>
      if N.eqb c slash then (InCode, false)
      else (if N.eqb c asterisk then InBlockStar else InBlockComment, true)
  | InLineComment =>
      if is_line_terminator c then (InCode, false) else (InLineComment, true)
  | InQuoted q =>
      if N.eqb c (chr "\") then (InEscape q, true)
      else if N.eqb c q then (InCode, false)
      else (InQuoted q, true)
  | InEscape q => (InQuoted q, true)
  | InTemplate =>
      if N.eqb c rangle then (InCode, false) else (InTemplate, true)
  end.

Fixpoint insideRegions (st : LexState) (s : str) : list bool :=
  match s with
  | [] => []
  | c :: rest => snd (lexStep st c) :: insideRegions (fst (lexStep st c)) rest
  end.

(** A call with two character literals. *)
Definition two_literals : str := units "f('a', 'b')".

(** ** Trees of the data model

    A symbol occurs in a tree; and a tree is well formed at a position when
    no sibling before a symbol whose range contains the position contains
    it too, and the parent of such a symbol contains it as well. *)

Inductive Occurs : list SourceSymbol -> SourceSymbol -> Prop :=
| occurs_here l s : In s l -> Occurs l s
| occurs_below l p s : In p l -> Occurs (s_children p) s -> Occurs l s.

Inductive WellFormedAt (position : Position) : list SourceSymbol -> Prop :=
| wellFormedAt l :
    (forall pre x post,
        l = pre ++ x :: post -> contains (s_range x) position = true ->
        Forall (fun y => contains (s_range y) position = false) pre) ->
    (forall p c,
        In p l -> In c (s_children p) -> contains (s_range c) position = true ->
        contains (s_range p) position = true) ->
    (forall p, In p l -> WellFormedAt position (s_children p)) ->
    WellFormedAt position l.

(* ------------------------------------------------------------------ *)
(** * More of the module: header guards, parameters, matching files *)

(** ** More of the editor's document *)



(** [document.getText()]: the whole text. *)
Definition getAllText (d : TextDocument) : str := join (doc_eol d) (doc_lines d).


(** [s.endsWith(t)] *)
Definition endsWith (s t : str) : bool := startsWith (rev s) (rev t).

(** [s.split(sep)] for a separator of one unit: the pieces between the
    separators, at least one. *)
Fixpoint split (sep : N) (s : str) : list str :=
  match s with
  | [] => [[]]
  | c :: rest =>
      if N.eqb c sep then [] :: split sep rest
      else
        match split sep rest with
        | piece :: pieces => (c :: piece) :: pieces
        | [] => [[c]]
        end
  end.

(** [s.indexOf(c)] for a unit [c] that occurs in [s]; the length of [s] when
    it does not. *)
Fixpoint indexOf (c : N) (s : str) : nat :=
  match s with
  | [] => 0
  | x :: rest => if N.eqb x c then 0 else S (indexOf c rest)
  end.

(* ------------------------------------------------------------------ *)
(** ** The position of a header guard *)

(** [SourceDocument.text()] *)
Definition sd_text (this : SourceDocument) : str := getAllText (sd_document this).






(** Line 654: at the start, white space, [#pragma], white space, [once], a
    word boundary. *)
Definition re_pragmaOnce : regex :=
  cat [Bol; Star (Char is_space); word "#pragma"; plus (Char is_space);
       word "once"; WordBoundary].

(* ------------------------------------------------------------------ *)
(** ** Matching symbols and matching files *)

(** [searchSymbolTree] of [SourceFile.findMatchingSymbol] (lines 548 to 557),
    on the first symbol of the list: both branches of the loop body return,
    so the loop never reaches a second symbol. *)
Fixpoint matchBelow (targetName : str) (docSymbol : SourceSymbol)
  : option SourceSymbol :=
  match docSymbol with
  | mkSourceSymbol n _ _ _ _ _ _ cs =>
      if str_eqb n targetName then Some docSymbol
      else
        match cs with
        | [] => None
        | child :: _ => matchBelow targetName child
        end
  end.

Definition matchSymbolTree (targetName : str) (symbolResults : list SourceSymbol)
  : option SourceSymbol :=
  match symbolResults with
  | [] => None
  | docSymbol :: _ => matchBelow targetName docSymbol
  end.

(** The first symbol of a list, the first child of that one, and so on. *)
Inductive FirstChain : list SourceSymbol -> SourceSymbol -> Prop :=
| first_here s rest : FirstChain (s :: rest) s
| first_below s rest r : FirstChain (s_children s) r -> FirstChain (s :: rest) r.

Section Files.

Variable sort : forall A : Type, (A -> A -> Z) -> list A -> list A.
Variable host : Host.

(** [SourceFile.findMatchingSymbol(target)] *)
Definition findMatchingSymbol (this : SourceDocument) (target : DocumentSymbol)
  : option SourceSymbol :=
  matchSymbolTree (d_name target) (symbolsOf sort host this).

(** [SourceDocument.findMatchingSymbol(target)] *)
Definition findMatchingCSymbol (this : SourceDocument) (target : DocumentSymbol)
  : option CSymbol :=
  match findMatchingSymbol this target with
  | None => None
  | Some sourceSymbol => Some (CSymbol_new sort sourceSymbol (sd_document this))
  end.

(** The functions of the configuration and utility modules that the code
    below calls; they are not part of the embedded module. *)
Variable headerGuardDefine : str -> str.
Variable fileName : str -> str.
Variable fileExtension : str -> str.
Variable fileNameBase : str -> str.
Variable directory : str -> str.
(** [util.compareDirectoryPaths]: a number, taken to be an integer. *)
Variable compareDirectoryPaths : str -> str -> Z.
Variable headerExtensions : list str.
Variable sourceExtensions : list str.
(** [vscode.workspace.findFiles(globPattern)] *)
Variable findFiles : str -> list Uri.

(** [SourceDocument.hasHeaderGuard()] *)
Definition hasHeaderGuard (this : SourceDocument) : bool :=
  if test re_pragmaOnce (sd_text this) then true
  else
    let headerGuardDefine := headerGuardDefine (fileName (path (sd_uri this))) in
    existsb (fun symbol => str_eqb (s_name symbol) headerGuardDefine)
            (symbolsOf sort host this).

(** [SourceFile.isHeader(fileName)] *)
Definition isHeader (fileName : str) : bool :=
  existsb (str_eqb (fileExtension fileName)) headerExtensions.

(** The loop of [findMatchingSourceFile] over the files found (lines 603 to
    613), for the directory [dir] of the file. *)
Fixpoint closestFile (dir : str) (uris : list Uri)
    (bestMatch : option Uri) (smallestDiff : option Z) : option Uri :=
  match uris with
  | [] => bestMatch
  | uri :: rest =>
      if negb (str_eqb (scheme uri) (units "file"))
      then closestFile dir rest bestMatch smallestDiff
      else
        let diff := compareDirectoryPaths (directory (path uri)) dir in
        if match smallestDiff with
           | None => true
           | Some smallest => (diff <? smallest)%Z
           end
        then closestFile dir rest (Some uri) (Some diff)
        else closestFile dir rest bestMatch smallestDiff
  end.

(** The glob pattern of lines 592 and 594. *)
Definition globPattern (baseName : str) (extensions : list str) : str :=
  units "**/" ++ baseName ++ units ".{" ++ join (units ",") extensions ++ units "}".

(** [SourceFile.findMatchingSourceFile(fileName)] *)
Definition findMatchingSourceFile (fileName : str) : option Uri :=
  let extension := fileExtension fileName in
  let baseName := fileNameBase fileName in
  let dir := directory fileName in
  if existsb (str_eqb extension) headerExtensions
  then closestFile dir (findFiles (globPattern baseName sourceExtensions)) None None
  else if existsb (str_eqb extension) sourceExtensions
  then closestFile dir (findFiles (globPattern baseName headerExtensions)) None None
  else None.

End Files.

(* ------------------------------------------------------------------ *)
(** ** Kinds of functions *)

(** [CSymbol.leading()]: the text of the symbol before its identifier. *)
Definition leading (this : CSymbol) : str :=
  getText (document this)
    (newRange (start (range this)) (start (selectionRange this))).

(** [CSymbol.isFunctionDeclaration()] *)
Definition isFunctionDeclaration (this : CSymbol) : bool :=
  isFunction this
  && (str_eqb (detail this) (units "declaration")
      || negb (endsWith (CSymbol_text this) (units "}"))).

(** [this.parent?.id()] as a part of a string: the text [undefined] when
    the symbol has no parent. *)
Definition parentIdText (parent : option CSymbol) : str :=
  match parent with
  | Some p => id p
  | None => units "undefined"
  end.

(** [CSymbol.isConstructor()], for a symbol given with its parent. *)
Definition isConstructor (this : CSymbol) (parent : option CSymbol) : bool :=
  match kind this with
  | Constructor => true
  | Method =>
      match parent with
      | Some p => str_eqb (id this) (id p)
      | None => false
      end
  | _ => false
  end.

(** [CSymbol.isDestructor()], for a symbol given with its parent. *)
Definition isDestructor (this : CSymbol) (parent : option CSymbol) : bool :=
  match kind this with
  | Constructor | Method => str_eqb (id this) (units "~" ++ parentIdText parent)
  | _ => false
  end.

(* ------------------------------------------------------------------ *)
(** ** The accessors of a member among the children *)

(** [CSymbol.findChild(compareFn)]: the first child that satisfies
    [compareFn]. *)
Definition findChild (this : CSymbol) (compareFn : CSymbol -> bool) : option CSymbol :=
  find compareFn (children this).

(** [CSymbol.findGetterFor(memberVariable)]; [parentIsThis] tells whether
    [memberVariable.parent] is this very object. *)
Definition findGetterFor (this : CSymbol) (memberVariable : CSymbol)
    (parentIsThis : bool) : option CSymbol :=
  if negb parentIsThis || negb (isMemberVariable memberVariable) then None
  else
    let getterName := getterName memberVariable in
    findChild this (fun child => str_eqb (id child) getterName).

(** [CSymbol.findSetterFor(memberVariable)] *)
Definition findSetterFor (this : CSymbol) (memberVariable : CSymbol)
    (parentIsThis : bool) : option CSymbol :=
  if negb parentIsThis || negb (isMemberVariable memberVariable) then None
  else
    let setterName := setterName memberVariable in
    findChild this (fun child => str_eqb (id child) setterName).

(* ------------------------------------------------------------------ *)
(** ** Default values of parameters *)

(** Line 888: a unit that is neither a word unit nor white space, and [=]. *)
Definition re_operatorAssign : regex :=
  cat [Char (fun c => negb (is_word c || is_space c)); lit "="].

(** Line 889: [=] with the white space around it, between word boundaries. *)
Definition re_assign : regex :=
  cat [WordBoundary; Star (Char is_space); lit "="; Star (Char is_space);
       WordBoundary].

(** Line 890: an empty pair of parentheses. *)
Definition re_emptyParens : regex := cat [lit "("; lit ")"].

(** The loop of lines 895 to 902. *)
Fixpoint stripLoop (parameters : str) (maskedParameters : list str)
    (charPos : nat) (strippedParameters : str) : str :=
  match maskedParameters with
  | [] => strippedParameters
  | maskedParameter :: rest =>
      let strippedParameters :=
        if includes maskedParameter (units "=")
        then strippedParameters
             ++ substring parameters charPos
                  (charPos + indexOf (chr "=") maskedParameter)
             ++ units ","
        else strippedParameters
             ++ substring parameters charPos (charPos + length maskedParameter)
             ++ units "," in
      stripLoop parameters rest (charPos + length maskedParameter + 1)
        strippedParameters
  end.

(** [stripDefaultValues(parameters)] *)
Definition stripDefaultValues (parameters : str) : str :=
  let parameters := replaceAll re_operatorAssign erase parameters in
  let parameters := replaceAll re_assign (fun _ => units "=") parameters in
  let parameters := replaceAll re_emptyParens erase parameters in
  let maskedParameters := split (chr ",") (maskUnimportantText parameters) in
  let strippedParameters := stripLoop parameters maskedParameters 0 [] in
  substring strippedParameters 0 (length strippedParameters - 1).

(* ------------------------------------------------------------------ *)
(** ** Qualifiers of a declaration *)

(** A keyword between word boundaries (lines 402, 410 and 423). *)
Definition re_keyword (w : string) : regex :=
  cat [WordBoundary; word w; WordBoundary].

(** [CSymbol.isConstexpr()], [isInline()], [isPointer()] and [isConst()] *)
Definition isConstexpr (this : CSymbol) : bool :=
  if test (re_keyword "constexpr") (leading this) then true else false.

Definition isInline (this : CSymbol) : bool :=
  if test (re_keyword "inline") (leading this) then true else false.

Definition isPointer (this : CSymbol) : bool :=
  if includes (leading this) (units "*") then true else false.

Definition isConst (this : CSymbol) : bool :=
  if test (re_keyword "const") (leading this) then true else false.

(** One of several patterns, tried in their order. *)
Fixpoint alts (r : regex) (rs : list regex) : regex :=
  match rs with
  | [] => r
  | r' :: rs' => Alt r (alts r' rs')
  end.

(** The names of line 69, the first one and the others. *)
Definition primitiveTypes : list string :=
  ["bool"; "char"; "wchar_t"; "char8_t"; "char16_t"; "char32_t"; "int";
   "short"; "long"; "signed"; "unsigned"; "float"; "double"]%string.

(** Line 69: [void] or one of the other primitive types, between word
    boundaries. *)
Definition re_primitiveType : regex :=
  cat [WordBoundary; alts (word "void") (map word primitiveTypes); WordBoundary].

(** Line 433: an angle bracket. *)
Definition re_angleBracket : regex :=
  Char (fun c => N.eqb c (chr "<") || N.eqb c (chr ">")).

(** [CSymbol.isPrimitive()] *)
Definition isPrimitive (this : CSymbol) : bool :=
  let leading := leading this in
  if test re_primitiveType leading && negb (test re_angleBracket leading)
  then true else false.

(* ------------------------------------------------------------------ *)
(** ** The definition of a declared function *)

(** An index of the language, which may be negative or beyond the string,
    brought into the string. *)
Definition clampIndex (s : str) (i : Z) : nat := Nat.min (Z.to_nat i) (length s).

(** [s.substring(a, b)] for any two indices: each is brought into the
    string, and the two are swapped when the first is the larger. *)
Definition substringZ (s : str) (a b : Z) : str :=
  let a := clampIndex s a in
  let b := clampIndex s b in
  substring s (Nat.min a b) (Nat.max a b).

(** The first index, counted from [i] at the start of [s], where [t]
    occurs in [s]. *)
Fixpoint findFrom (t s : str) (i : nat) : option nat :=
  if startsWith s t then Some i
  else
    match s with
    | [] => None
    | _ :: rest => findFrom t rest (S i)
    end.

(** [s.indexOf(t, from)]: -1 when [t] does not occur at or after [from]. *)
Definition indexOfFrom (s t : str) (from : Z) : Z :=
  let k := clampIndex s from in
  match findFrom t (skipn k s) k with
  | Some i => Z.of_nat i
  | None => (-1)%Z
  end.

(** [s.lastIndexOf(c)] for a unit [c]. *)
Definition lastIndexOf (s : str) (c : N) : Z :=
  match findFrom [c] (rev s) 0 with
  | Some i => Z.of_nat (length s - 1 - i)
  | None => (-1)%Z
  end.

(** A [CSymbol] is a document symbol: the view of it at that type. *)
Fixpoint asDocumentSymbol (c : CSymbol) : DocumentSymbol :=
  match c with
  | mkCSymbol n d k r rr sr _ _ cs =>
      mkDocumentSymbol n d k r rr sr (map asDocumentSymbol cs)
  end.

(** Line 472: one of four specifiers between word boundaries, and the white
    space after it. *)
Definition re_specifiers : regex :=
  cat [WordBoundary;
       alts (word "virtual") (map word ["static"; "explicit"; "friend"]%string);
       WordBoundary; Star (Char is_space)].

(** Line 478: white space, and [override] or [final] between word
    boundaries. *)
Definition re_overrideFinal : regex :=
  cat [Star (Char is_space); WordBoundary;
       alts (word "override") [word "final"]; WordBoundary].

(** The start of a line: the start of the text, or the place after a line
    terminator, as the m flag has it. *)
Definition lineStartAnchor : regex :=
  Alt Bol (Behind true (Char is_line_terminator)).

(** Line 471: the start of a line and [n] spaces, global. *)
Definition re_newLineAlignment (n : nat) : regex :=
  cat (lineStartAnchor :: repeat (lit " ") n).

Section Definitions.

Variable sort : forall A : Type, (A -> A -> Z) -> list A -> list A.
Variable host : Host.

(** Lines 448 to 454: the scopes that the definition must name, for the
    scopes of the declaration from the outermost one (the result of
    [this.scopes()]). *)
Fixpoint scopeStringFrom (target : SourceDocument) (position : option Position)
    (scopes : list CSymbol) (scopeString : str) : str :=
  match scopes with
  | [] => scopeString
  | scope :: rest =>
      let targetScope := findMatchingSymbol sort host target (asDocumentSymbol scope) in
      let omitted :=
        match targetScope with
        | None => false
        | Some targetScope =>
            match position with
            | Some position => contains (s_range targetScope) position
            | None => true
            end
        end in
      scopeStringFrom target position rest
        (if omitted then scopeString else scopeString ++ id scope ++ units "::")
  end.

(** [CSymbol.newFunctionDefinition(target, position?)], for a symbol given
    with its scopes; [None] stands for the error of [lineAt]. *)
Definition newFunctionDefinition (this : CSymbol) (scopes : list CSymbol)
    (target : SourceDocument) (position : option Position) : option str :=
  if negb (isFunctionDeclaration this) then Some []
  else
    let scopeString := scopeStringFrom target position scopes [] in
    let funcName := id this in
    let declaration := CSymbol_text this in
    let maskedDeclaration := maskUnimportantText declaration in
    let paramStart :=
      (indexOfFrom maskedDeclaration (units "(")
         (indexOfFrom maskedDeclaration funcName 0 + Z.of_nat (length funcName))
       + 1)%Z in
    let lastParen := lastIndexOf maskedDeclaration (chr ")") in
    let trailingReturnOperator :=
      indexOfFrom (substringZ maskedDeclaration paramStart lastParen) (units "->") 0 in
    let paramEnd :=
      if (trailingReturnOperator =? -1)%Z then lastParen
      else lastIndexOf (substringZ maskedDeclaration paramStart trailingReturnOperator)
             (chr ")") in
    let parameters := stripDefaultValues (substringZ declaration paramStart paramEnd) in
    let leadingText := leading this in
    match lineAt (document this) (line (start (range this))) with
    | None => None
    | Some l =>
        let leadingIndent :=
          length (substringZ (text l) 0
                    (Z.of_nat (firstNonWhitespaceCharacterIndex l))) in
        let re_newLineAlignment :=
          re_newLineAlignment (leadingIndent + length leadingText) in
        let leadingText := replaceAll re_specifiers erase leadingText in
        let definition :=
          funcName ++ units "(" ++ parameters ++ units ")"
          ++ substringZ declaration (paramEnd + 1)
               (Z.of_nat (length declaration) - 1) in
        let definition :=
          replaceAll re_newLineAlignment
            (fun _ => str_repeat (units " ")
                        (length leadingText + length scopeString))
            definition in
        let definition := leadingText ++ scopeString ++ definition in
        let definition := replaceAll re_overrideFinal erase definition in
        Some definition
    end.

End Definitions.

(* ------------------------------------------------------------------ *)
(** ** Definitions of the further statements *)

(** The number of semicolons at the start of [s]. *)
Fixpoint semicolons (s : str) : nat :=
  match s with
  | c :: rest => if N.eqb c (chr ";") then S (semicolons rest) else 0
  | [] => 0
  end.

(** A host that answers nothing, and the header of class [A] with its tree. *)
Definition host_silent : Host := mkHost (fun _ => None) (fun _ _ => None) None.

Definition sd_classA : SourceDocument := mkSourceDocument doc_classA (Some tree_classA).

(** ** The closest matching file *)

Definition isFile (uri : Uri) : bool := str_eqb (scheme uri) (units "file").

(** [u] is the closest file of [uris] by the measure [diff]: a file that is
    strictly closer than every file before it in the list and at least as
    close as every file after it. *)
Definition Closest (diff : Uri -> Z) (uris : list Uri) (u : Uri) : Prop :=
  exists pre post,
    uris = pre ++ u :: post
    /\ isFile u = true
    /\ (forall v, In v pre -> isFile v = true -> (diff u < diff v)%Z)
    /\ (forall v, In v post -> isFile v = true -> (diff u <= diff v)%Z).

(** [result] is the best match among [uris]: the closest file, or nothing
    when [uris] holds no file. *)
Definition BestMatch (diff : Uri -> Z) (uris : list Uri) (result : option Uri) : Prop :=
  match result with
  | Some u => Closest diff uris u
  | None => forall v, In v uris -> isFile v = false
  end.

(** ** Include blocks at the start of a line *)

Definition atLineStart (p : option Position) : Prop :=
  forall q, p = Some q -> character q = 0.

Definition endsAtLineStart (r : option Range) : Prop :=
  forall q, r = Some q -> character (end_ q) = 0.

Definition blocksAtLineStart (b : IncludeBlocks) : Prop :=
  atLineStart (systemIncludeStart b) /\ atLineStart (projectIncludeStart b)
  /\ endsAtLineStart (largestSystemIncludeBlock b)
  /\ endsAtLineStart (largestProjectIncludeBlock b).

(** ** Decorated names *)

(** The number of units of a class at the start of [s]. *)
Fixpoint run (p : N -> bool) (s : str) : nat :=
  match s with
  | c :: rest => if p c then S (run p rest) else 0
  | [] => 0
  end.

Definition underscores (n : nat) : str := repeat (chr "_") n.

(** The underscore. *)
Definition underscore : N := chr "_".

(** A name of word units that neither starts nor ends with an underscore. *)
Definition bareName (w : str) : Prop :=
  w <> [] /\ Forall (fun c => is_word c = true) w
  /\ startsWith w (units "_") = false /\ endsWith w (units "_") = false.

(** [w] between [k] and [n] underscores. *)
Definition decorated (k : nat) (w : str) (n : nat) : str :=
  underscores k ++ w ++ underscores n.

(** A member variable declared as [int _value_;]. *)
Definition doc_value : TextDocument :=
  mkTextDocument (mkUri (units "file") (units "/a.h")) LF
    [units "int _value_;"].

Definition sym_value : CSymbol :=
  mkCSymbol (units "_value_") [] Field
    (mkRange (mkPosition 0 0) (mkPosition 0 12)) 1
    (mkRange (mkPosition 0 4) (mkPosition 0 11))
    (doc_uri doc_value) doc_value [].

(** ** The header guard of a document *)

(** The text starts with white space, [#pragma], white space, [once], and
    no word unit follows. *)
Definition StartsWithPragmaOnce (source : str) : Prop :=
  exists ws ws' rest,
    source = ws ++ units "#pragma" ++ ws' ++ units "once" ++ rest
    /\ Forall (fun c => is_space c = true) ws
    /\ ws' <> [] /\ Forall (fun c => is_space c = true) ws'
    /\ match rest with
       | [] => True
       | c :: _ => is_word c = false
       end.

(** ** Whole words *)

(** Whether [s] starts, and whether it ends, with a word unit. *)
Definition firstIsWord (s : str) : bool :=
  match s with
  | [] => false
  | c :: _ => is_word c
  end.

Definition lastIsWord (s : str) : bool := firstIsWord (rev s).

(** [w] occurs in [s] as a whole word: no word unit stands right before it
    or right after it. *)
Definition WholeWord (w s : str) : Prop :=
  exists pre post,
    s = pre ++ w ++ post /\ lastIsWord pre = false /\ firstIsWord post = false.

(* ------------------------------------------------------------------ *)
(** ** A class with one public method *)

(** A class whose only public method is its first member. *)
Definition doc_classD : TextDocument :=
  mkTextDocument (file_uri "/ws/d.h") LF
    [units "class D {";
     units "public:";
     units "  int getX();";
     units "private:";
     units "  int x;";
     units "};"].

Definition raw_classD : DocumentSymbol :=
  raw_symbol "D" Class (span 0 0 5 1) 1 (span 0 6 0 7)
    [raw_symbol "getX()" Method (span 2 2 2 12) 2 (span 2 6 2 10) [];
     raw_symbol "x" Field (span 4 2 4 7) 3 (span 4 6 4 7) []].

Definition classD : CSymbol :=
  Eval vm_compute in CSymbol_ofDocumentSymbol insertionSort raw_classD doc_classD.

Definition classD_getX : CSymbol :=
  mkCSymbol (units "getX()") [] Method (span 2 2 2 12) 2 (span 2 6 2 10)
    (file_uri "/ws/d.h") doc_classD [].

(** ** Plain declarations *)

(** A declaration in one line, without comments, literals, templates and
    default values: the text before the name holds no opening parenthesis,
    the name consists of word units, the parameters hold no arrow, no [=]
    and no empty pair of parentheses, and no closing parenthesis follows
    the one of the parameter list. *)
Definition PlainDeclaration (leadingText funcName parameters rest : str) : Prop :=
  funcName <> [] /\ Forall (fun c => is_word c = true) funcName
  /\ ~ In (chr "(") leadingText /\ ~ In (chr ")") rest
  /\ (forall c,
        In c (leadingText ++ funcName ++ units "(" ++ parameters ++ units ")" ++ rest) ->
        c <> slash /\ c <> dquote /\ c <> quote /\ c <> langle
        /\ is_line_terminator c = false)
  /\ includes parameters (units "->") = false
  /\ includes parameters (units "=") = false
  /\ includes parameters (units "()") = false.

(** The declaration of [getX] in the class [A], with its semicolon. *)
Definition classA_getX_declaration : CSymbol :=
  mkCSymbol (units "getX()") (units "declaration") Method (span 2 2 2 13) 2
    (span 2 6 2 10) (file_uri "/ws/a.h") doc_classA [].

(* ------------------------------------------------------------------ *)
(** ** What comes before the code *)








(** The text from [pos] on after the replacement of every match of [r] by
    as many spaces, the search starting at [pos]. *)
Definition maskedFrom (r : regex) (s : str) (pos : nat) : str :=
  substitute (fill space) s pos (matchesFrom r s (S (S (length s))) pos).









(* ------------------------------------------------------------------ *)
(** * Properties *)

(** ** Strings *)

Lemma str_eqb_refl (a : str) : str_eqb a a = true.
Proof.
  induction a as [|x a IH]; simpl; [reflexivity|].
  now rewrite N.eqb_refl, IH.
Qed.

Lemma str_eqb_eq (a b : str) : str_eqb a b = true <-> a = b.
Proof.
  split.
  - revert b; induction a as [|x a IH]; intros [|y b] H; simpl in H;
      try discriminate; [reflexivity|].
    apply andb_true_iff in H as [Hx Hr].
    apply N.eqb_eq in Hx. apply IH in Hr. now subst.
  - intros ->. apply str_eqb_refl.
Qed.

Lemma str_eqb_neq (a b : str) : str_eqb a b = false <-> a <> b.
Proof.
  split.
  - intros H E. apply str_eqb_eq in E. congruence.
  - intros H. destruct (str_eqb a b) eqn:E; [|reflexivity].
    apply str_eqb_eq in E. contradiction.
Qed.

Lemma firstCharToUpper_length (s : str) :
  length (firstCharToUpper s) = length s.
Proof. destruct s; reflexivity. Qed.

(** ** The matcher *)

Lemma in_ends_char p s i e :
  In e (ends (Char p) s i) ->
  e = S i /\ exists c, nth_error s i = Some c /\ p c = true.
Proof.
  cbn [ends]. destruct (nth_error s i) as [c|]; [|contradiction].
  destruct (p c) eqn:E; [|contradiction].
  intros [<-|[]]. split; [reflexivity|]. now exists c.
Qed.

Lemma in_ends_seq r1 r2 s i e :
  In e (ends (Seq r1 r2) s i) <->
  exists j, In j (ends r1 s i) /\ In e (ends r2 s j).
Proof. cbn [ends]. apply in_flat_map. Qed.

Lemma in_ends_ahead r s i e :
  In e (ends (Ahead true r) s i) -> e = i /\ exists x, In x (ends r s i).
Proof.
  cbn [ends]. destruct (ends r s i) as [|x l]; cbn; [contradiction|].
  intros [<-|[]]. split; [reflexivity|]. exists x. now left.
Qed.

Lemma in_ends_behind r s i e :
  In e (ends (Behind true r) s i) ->
  e = i /\ exists k, k <= i /\ In i (ends r s k).
Proof.
  cbn [ends].
  destruct (existsb _ (seq 0 (S i))) eqn:E; cbn; [|contradiction].
  intros [<-|[]]. split; [reflexivity|].
  apply existsb_exists in E as (k & Hk & E). apply in_seq in Hk.
  apply existsb_exists in E as (x & Hx & E). apply Nat.eqb_eq in E. subst x.
  exists k. split; [lia|assumption].
Qed.

Lemma in_ends_lit c s i e :
  In e (ends (litN c) s i) -> e = S i /\ nth_error s i = Some c.
Proof.
  intros H. apply in_ends_char in H as (-> & x & Hx & E).
  apply N.eqb_eq in E. now subst.
Qed.

(** A match of two given units in a row. *)
Lemma in_ends_two c1 c2 s i e :
  In e (ends (Seq (litN c1) (litN c2)) s i) ->
  e = S (S i) /\ nth_error s i = Some c1 /\ nth_error s (S i) = Some c2.
Proof.
  intros H. apply in_ends_seq in H as (j & H1 & H2).
  apply in_ends_lit in H1 as (-> & H1). apply in_ends_lit in H2 as (-> & H2).
  now repeat split.
Qed.

Lemma star_bounds (step : nat -> list nat) (n : nat) :
  (forall i e, In e (step i) -> i <= e /\ (e = i \/ e <= n)) ->
  forall fuel i e, In e (star step fuel i) -> i <= e /\ (e = i \/ e <= n).
Proof.
  intros Hstep. induction fuel as [|fuel IH]; intros i e; cbn [star].
  - intros [<-|[]]. lia.
  - rewrite in_app_iff, in_flat_map. intros [(j & Hj & He)|[<-|[]]]; [|lia].
    destruct (i <? j) eqn:E; [|contradiction]. apply Nat.ltb_lt in E.
    apply IH in He. apply Hstep in Hj. lia.
Qed.

(** A match ends at or after its start, and within the string. *)
Lemma ends_bounds r s :
  forall i e, In e (ends r s i) -> i <= e /\ (e = i \/ e <= length s).
Proof.
  induction r as [|p|r1 IH1 r2 IH2|r1 IH1 r2 IH2|r IH|b r IH|b r IH| | |];
    intros i e; cbn [ends].
  - intros [<-|[]]. lia.
  - intros H. apply in_ends_char in H as (-> & c & Hc & _).
    assert (i < length s) by (apply nth_error_Some; congruence). lia.
  - rewrite in_flat_map. intros (j & Hj & He).
    apply IH1 in Hj. apply IH2 in He. lia.
  - rewrite in_app_iff. intros [H|H]; [now apply IH1|now apply IH2].
  - apply star_bounds. exact IH.
  - destruct (Bool.eqb _ _); [|contradiction]. intros [<-|[]]. lia.
  - destruct (Bool.eqb _ _); [|contradiction]. intros [<-|[]]. lia.
  - destruct (i =? 0); [|contradiction]. intros [<-|[]]. lia.
  - destruct (i =? length s); [|contradiction]. intros [<-|[]]. lia.
  - destruct (xorb _ _); [|contradiction]. intros [<-|[]]. lia.
Qed.

Lemma execFrom_some r s fuel :
  forall i a e, execFrom r s fuel i = Some (a, e) ->
  i <= a <= i + fuel /\ In e (ends r s a).
Proof.
  induction fuel as [|fuel IH]; intros i a e; cbn [execFrom];
    destruct (ends r s i) as [|x l] eqn:E.
  - discriminate.
  - intros [= <- <-]. rewrite E. split; [lia|now left].
  - intros H. apply IH in H. split; [lia|tauto].
  - intros [= <- <-]. rewrite E. split; [lia|now left].
Qed.

(** A match found by [exec] lies in the string, at or after [lastIndex]. *)
Lemma exec_some r s lastIndex a e :
  exec r s lastIndex = Some (a, e) ->
  lastIndex <= a /\ a <= e /\ e <= length s /\ In e (ends r s a).
Proof.
  unfold exec. destruct (lastIndex <=? length s) eqn:E; [|discriminate].
  apply Nat.leb_le in E. intros H. apply execFrom_some in H as (Ha & He).
  pose proof (ends_bounds r s a e He). repeat split; try assumption; lia.
Qed.

Lemma spansFrom_earlier n pos pos' ms :
  pos <= pos' -> spansFrom n pos' ms -> spansFrom n pos ms.
Proof. destruct ms as [|[a e] ms]; cbn; [trivial|]. intros; repeat split; lia || tauto. Qed.

Lemma matchesFrom_spans r s fuel :
  forall lastIndex, spansFrom (length s) lastIndex (matchesFrom r s fuel lastIndex).
Proof.
  induction fuel as [|fuel IH]; intros lastIndex; cbn [matchesFrom]; [exact I|].
  destruct (exec r s lastIndex) as [[a e]|] eqn:E; [|exact I].
  apply exec_some in E as (Ha & Hae & He & _). cbn [spansFrom].
  repeat split; try assumption.
  apply spansFrom_earlier with (if e =? a then S e else e); [|apply IH].
  destruct (e =? a); lia.
Qed.

Lemma matchesFrom_ends r s fuel :
  forall lastIndex a e,
    In (a, e) (matchesFrom r s fuel lastIndex) -> In e (ends r s a).
Proof.
  induction fuel as [|fuel IH]; intros lastIndex a e; cbn [matchesFrom];
    [contradiction|].
  destruct (exec r s lastIndex) as [[a' e']|] eqn:E; [|contradiction].
  intros [[= <- <-]|H].
  - now apply exec_some in E.
  - now apply IH in H.
Qed.

Lemma length_substring s a b :
  a <= b -> b <= length s -> length (substring s a b) = b - a.
Proof.
  intros Hab Hb. unfold substring. rewrite length_firstn, length_skipn. lia.
Qed.

Lemma nth_error_substring s a b k :
  k < b - a -> nth_error (substring s a b) k = nth_error s (a + k).
Proof.
  intros Hk. unfold substring. rewrite nth_error_firstn, nth_error_skipn.
  apply Nat.ltb_lt in Hk. now rewrite Hk.
Qed.

Lemma length_str_repeat_unit c n : length (str_repeat [c] n) = n.
Proof. induction n as [|n IH]; cbn; congruence. Qed.

Lemma nth_error_str_repeat_unit c n k x :
  nth_error (str_repeat [c] n) k = Some x -> x = c.
Proof.
  revert k. induction n as [|n IH]; intros k; cbn.
  - destruct k; discriminate.
  - destruct k as [|k]; cbn; [congruence|apply IH].
Qed.

Section Filling.

Variable c : N.

Lemma length_fill s a e :
  a <= e -> e <= length s -> length (fill c (substring s a e)) = e - a.
Proof.
  intros. unfold fill. now rewrite length_str_repeat_unit, length_substring.
Qed.

Lemma substitute_fill_length s ms :
  forall pos, spansFrom (length s) pos ms ->
  pos <= length s ->
  length (substitute (fill c) s pos ms) = length s - pos.
Proof.
  induction ms as [|[a e] ms IH]; intros pos Hms Hpos; cbn [substitute].
  - apply length_skipn.
  - destruct Hms as (Ha & Hae & He & Hms).
    apply Nat.leb_le in Ha as Ha'. rewrite Ha'.
    rewrite !length_app, length_fill, length_substring, IH by (assumption || lia).
    lia.
Qed.

(** Every unit of the result is the one of the source at the same place, or
    the filler inside one of the spans. *)
Lemma substitute_fill_nth s ms :
  forall pos, spansFrom (length s) pos ms ->
  pos <= length s ->
  forall k x, nth_error (substitute (fill c) s pos ms) k = Some x ->
    nth_error s (pos + k) = Some x
    \/ (x = c /\ exists a e, In (a, e) ms /\ a <= pos + k < e).
Proof.
  induction ms as [|[a e] ms IH]; intros pos Hms Hpos k x; cbn [substitute].
  - rewrite nth_error_skipn. now left.
  - destruct Hms as (Ha & Hae & He & Hms).
    apply Nat.leb_le in Ha as Ha'. rewrite Ha'.
    rewrite nth_error_app, length_substring by lia.
    destruct (k <? a - pos) eqn:E1.
    + apply Nat.ltb_lt in E1. rewrite nth_error_substring by assumption. now left.
    + apply Nat.ltb_ge in E1.
      rewrite nth_error_app, length_fill by assumption.
      destruct (k - (a - pos) <? e - a) eqn:E2.
      * apply Nat.ltb_lt in E2. intros H.
        apply nth_error_str_repeat_unit in H. right. split; [assumption|].
        exists a, e. split; [now left|lia].
      * apply Nat.ltb_ge in E2. intros H.
        apply IH in H; [|assumption|assumption].
        replace (e + (k - (a - pos) - (e - a))) with (pos + k) in H by lia.
        destruct H as [H|(Hx & a' & e' & Hin & Hr)]; [now left|].
        right. split; [assumption|]. exists a', e'. split; [now right|assumption].
Qed.

(** A global replacement by the filler keeps the length, and changes a unit
    only inside a match, into the filler. *)
Lemma replaceAll_fill r s :
  length (replaceAll r (fill c) s) = length s
  /\ forall i x, nth_error (replaceAll r (fill c) s) i = Some x ->
       nth_error s i = Some x
       \/ (x = c /\ exists a e, a <= i < e /\ e <= length s /\ In e (ends r s a)).
Proof.
  unfold replaceAll, matchAll.
  pose proof (matchesFrom_spans r s (S (S (length s))) 0) as Hms.
  split.
  - rewrite substitute_fill_length by (assumption || lia). lia.
  - intros i x H. apply substitute_fill_nth in H; [|assumption|lia].
    cbn [Nat.add] in H. destruct H as [H|(Hx & a & e & Hin & Hr)]; [now left|].
    right. split; [assumption|]. exists a, e.
    apply matchesFrom_ends in Hin as Hends.
    pose proof (ends_bounds r s a e Hends) as Hb.
    repeat split; try tauto; lia.
Qed.

End Filling.

(** ** The fuel of the matcher is enough

    The iteration and the search for the successive matches are bounded by
    the length of the string; more fuel changes nothing. *)

Lemma flat_map_nil (A B : Type) (f : A -> list B) (l : list A) :
  (forall x, In x l -> f x = []) -> flat_map f l = [].
Proof.
  induction l as [|x l IH]; intros H; cbn [flat_map]; [reflexivity|].
  rewrite (H x (or_introl eq_refl)), IH; [reflexivity|].
  intros y Hy. apply H. now right.
Qed.

Lemma flat_map_ext_in (A B : Type) (f g : A -> list B) (l : list A) :
  (forall x, In x l -> f x = g x) -> flat_map f l = flat_map g l.
Proof.
  induction l as [|x l IH]; intros H; cbn [flat_map]; [reflexivity|].
  rewrite (H x (or_introl eq_refl)), IH; [reflexivity|].
  intros y Hy. apply H. now right.
Qed.

Lemma star_fuel (step : nat -> list nat) (n : nat) :
  (forall i e, In e (step i) -> i <= e /\ (e = i \/ e <= n)) ->
  forall fuel fuel' i,
    n - i <= fuel -> n - i <= fuel' -> star step fuel i = star step fuel' i.
Proof.
  intros Hstep.
  assert (Hzero : forall fuel i, n <= i -> star step fuel i = [i]).
  { intros [|fuel] i Hi; cbn [star]; [reflexivity|].
    rewrite flat_map_nil; [reflexivity|]. intros j Hj.
    apply Hstep in Hj. destruct (i <? j) eqn:E; [|reflexivity].
    apply Nat.ltb_lt in E. lia. }
  induction fuel as [|fuel IH]; intros fuel' i H H'.
  - rewrite !Hzero by lia. reflexivity.
  - destruct fuel' as [|fuel']; [rewrite !Hzero by lia; reflexivity|].
    cbn [star]. f_equal. apply flat_map_ext_in. intros j Hj.
    destruct (i <? j) eqn:E; [|reflexivity]. apply Nat.ltb_lt in E.
    apply IH; lia.
Qed.

Lemma star_fuel_enough r s i fuel :
  length s - i <= fuel -> star (ends r s) fuel i = ends (Star r) s i.
Proof.
  intros H. cbn [ends]. apply star_fuel with (length s); [|assumption|lia].
  apply ends_bounds.
Qed.

Lemma exec_beyond r s lastIndex : length s < lastIndex -> exec r s lastIndex = None.
Proof.
  intros H. unfold exec. apply Nat.leb_gt in H. now rewrite H.
Qed.

Lemma matchesFrom_fuel r s :
  forall fuel fuel' lastIndex,
    S (length s) - lastIndex <= fuel -> S (length s) - lastIndex <= fuel' ->
    matchesFrom r s fuel lastIndex = matchesFrom r s fuel' lastIndex.
Proof.
  assert (Hzero : forall fuel lastIndex,
             length s < lastIndex -> matchesFrom r s fuel lastIndex = []).
  { intros [|fuel] lastIndex H; cbn [matchesFrom]; [reflexivity|].
    now rewrite exec_beyond. }
  induction fuel as [|fuel IH]; intros fuel' lastIndex H H'.
  - rewrite !Hzero by lia. reflexivity.
  - destruct fuel' as [|fuel']; [rewrite !Hzero by lia; reflexivity|].
    cbn [matchesFrom].
    destruct (exec r s lastIndex) as [[a e]|] eqn:E; [|reflexivity].
    apply exec_some in E as (Ha & Hae & He & _). f_equal.
    destruct (e =? a) eqn:Eea.
    + apply Nat.eqb_eq in Eea. apply IH; lia.
    + apply Nat.eqb_neq in Eea. apply IH; lia.
Qed.

Lemma matchAll_fuel_enough r s fuel :
  S (length s) <= fuel -> matchesFrom r s fuel 0 = matchAll r s.
Proof. intros H. unfold matchAll. apply matchesFrom_fuel; lia. Qed.

(** ** The lexical masker keeps the offsets *)

Lemma behind_two c1 c2 rest t a e :
  In e (ends (Seq (Behind true (Seq (litN c1) (litN c2))) rest) t a) ->
  (exists k, a = S (S k) /\ nth_error t k = Some c1 /\ nth_error t (S k) = Some c2)
  /\ In e (ends rest t a).
Proof.
  intros H. apply in_ends_seq in H as (j & H1 & H2).
  apply in_ends_behind in H1 as (-> & k & _ & H1).
  apply in_ends_two in H1 as (-> & Hk1 & Hk2).
  split; [|assumption]. now exists k.
Qed.

Lemma behind_one c rest t a e :
  In e (ends (Seq (Behind true (litN c)) rest) t a) ->
  (exists k, a = S k /\ nth_error t k = Some c) /\ In e (ends rest t a).
Proof.
  intros H. apply in_ends_seq in H as (j & H1 & H2).
  apply in_ends_behind in H1 as (-> & k & _ & H1).
  apply in_ends_lit in H1 as (-> & Hk).
  split; [|assumption]. now exists k.
Qed.

Lemma re_blockComment_delimited t a e :
  In e (ends re_blockComment t a) -> Delimited t a e.
Proof.
  intros H.
  change re_blockComment with
    (Seq (Behind true (Seq (litN slash) (litN asterisk)))
       (Seq (Star (Alt (Seq (lit "*") (Ahead true (lit "/"))) (notlit "*")))
            (Ahead true (Seq (litN asterisk) (litN slash))))) in H.
  apply behind_two in H as ((k & -> & Hk1 & Hk2) & H).
  apply in_ends_seq in H as (j & _ & H).
  apply in_ends_ahead in H as (-> & x & H).
  apply in_ends_two in H as (_ & He1 & He2).
  now apply in_block_comment with k.
Qed.

Lemma re_lineComment_delimited t a e :
  In e (ends re_lineComment t a) -> Delimited t a e.
Proof.
  intros H.
  change re_lineComment with
    (Seq (Behind true (Seq (litN slash) (litN slash))) (Star dot)) in H.
  apply behind_two in H as ((k & -> & Hk1 & Hk2) & _).
  now apply in_line_comment with k.
Qed.

Lemma re_quoted_delimited q t a e :
  q = dquote \/ q = quote ->
  In e (ends (re_quoted q) t a) -> Delimited t a e.
Proof.
  intros Hq H.
  change (re_quoted q) with
    (Seq (Behind true (litN q))
       (Seq (Star dot) (Seq (Ahead true (litN q)) (Behind false (lit "\"))))) in H.
  apply behind_one in H as ((k & -> & Hk) & H).
  apply in_ends_seq in H as (j & _ & H).
  apply in_ends_seq in H as (j' & H & H').
  apply in_ends_ahead in H as (-> & x & H).
  apply in_ends_lit in H as (_ & He).
  assert (e = j) as ->.
  { cbn [ends] in H'. destruct (Bool.eqb _ _); [|contradiction].
    now destruct H' as [<-|[]]. }
  now apply in_quotes with q k.
Qed.

Lemma re_templateArgs_delimited t a e :
  In e (ends re_templateArgs t a) -> Delimited t a e.
Proof.
  intros H.
  change re_templateArgs with
    (Seq (Behind true (litN langle))
       (Seq (Star (Alt (Seq (lit ">") (Ahead true (lit ">"))) (notlit ">")))
            (Ahead true (litN rangle)))) in H.
  apply behind_one in H as ((k & -> & Hk) & H).
  apply in_ends_seq in H as (j & _ & H).
  apply in_ends_ahead in H as (-> & x & H).
  apply in_ends_lit in H as (_ & He).
  now apply in_angles with k.
Qed.

Lemma Masked_refl s : Masked s s.
Proof. split; [reflexivity|]. intros i x H. now left. Qed.

(** A unit of the masked text that is not a space is a unit of the source. *)
Lemma Masked_unit s t i x :
  Masked s t -> nth_error t i = Some x -> x <> space -> nth_error s i = Some x.
Proof. intros [_ H] Hx Hne. destruct (H i x Hx) as [|[]]; [assumption|contradiction]. Qed.

Lemma Masked_delimited s t a e :
  Masked s t -> Delimited t a e -> Delimited s a e.
Proof.
  intros Hm [k Ha H1 H2 H3 H4|k Ha H1 H2|q k Hq Ha H1 H2|k Ha H1 H2].
  - apply in_block_comment with k; try assumption;
      (eapply Masked_unit; [eassumption|eassumption|discriminate]).
  - apply in_line_comment with k; try assumption;
      (eapply Masked_unit; [eassumption|eassumption|discriminate]).
  - apply in_quotes with q k; try assumption;
      (eapply Masked_unit; [eassumption|eassumption|]);
      destruct Hq as [-> | ->]; discriminate.
  - apply in_angles with k; try assumption;
      (eapply Masked_unit; [eassumption|eassumption|discriminate]).
Qed.

(** One pass of the masker. *)
Lemma Masked_pass r s t :
  (forall a e, In e (ends r t a) -> Delimited t a e) ->
  Masked s t ->
  Masked s (replaceAll r (fill space) t).
Proof.
  intros Hr Hm. destruct (replaceAll_fill space r t) as [Hlen Hnth].
  split; [destruct Hm; congruence|].
  intros i x Hx. destruct (Hnth i x Hx) as [H|(-> & a & e & Hi & _ & He)].
  - now apply (proj2 Hm).
  - right. split; [reflexivity|]. exists a, e. split; [assumption|].
    apply Masked_delimited with t; [assumption|now apply Hr].
Qed.

Lemma maskUnimportantText_Masked s : Masked s (maskUnimportantText s).
Proof.
  unfold maskUnimportantText, maskUnimportantTextWith.
  change (fun m : str => str_repeat (units " ") (length m)) with (fill space).
  cbv zeta.
  apply Masked_pass; [apply re_templateArgs_delimited|].
  apply Masked_pass; [intros a e; apply re_quoted_delimited; now right|].
  apply Masked_pass; [intros a e; apply re_quoted_delimited; now left|].
  apply Masked_pass; [apply re_lineComment_delimited|].
  apply Masked_pass; [apply re_blockComment_delimited|].
  apply Masked_refl.
Qed.

(** C1, as the code has it: the masked text has the length of the source,
    and each of its units is the unit of the source at the same offset, or
    a space that stands between two delimiters of the source: after a
    slash-star and before a star-slash, after two slashes, between two
    quotes of one kind, or between [<] and [>]. *)
Theorem maskUnimportantText_keeps_offsets (s : str) :
  length (maskUnimportantText s) = length s
  /\ forall i x,
       nth_error (maskUnimportantText s) i = Some x ->
       nth_error s i = Some x
       \/ (x = space /\ exists a e, a <= i < e /\ Delimited s a e).
Proof. exact (maskUnimportantText_Masked s). Qed.

(** C1 as the spec states it fails: in [f('a', 'b')] the comma at offset 5
    stands between two character literals, inside none of them, and is
    replaced by a space (as are the quotes at offsets 4 and 7): the pattern
    for quoted text runs from the first quote of a line to its last one. *)
Lemma maskUnimportantText_masks_between_literals :
  maskUnimportantText two_literals = units "f('      ')"
  /\ nth_error two_literals 5 = Some (chr ",")
  /\ nth_error (maskUnimportantText two_literals) 5 = Some space
  /\ nth 5 (insideRegions InCode two_literals) false = false.
Proof. repeat split; vm_compute; reflexivity. Qed.

(** ** Accessor names *)

(** The decorations of a private member are stripped; a name without one is
    kept, and so is a name made of underscores only. *)
Example baseNameOf_examples :
  baseNameOf (units "m_count") = units "count"
  /\ baseNameOf (units "_value_") = units "value"
  /\ baseNameOf (units "count_") = units "count"
  /\ baseNameOf (units "count") = units "count"
  /\ baseNameOf (units "___") = units "___".
Proof. repeat split; vm_compute; reflexivity. Qed.

Lemma getterName_unfold (this : CSymbol) :
  isMemberVariable this = true ->
  getterName this =
    if str_eqb (baseName this) (id this)
    then units "get" ++ firstCharToUpper (baseName this)
    else baseName this.
Proof.
  intros H. unfold getterName, getterNameWith. now rewrite H.
Qed.

Lemma setterName_unfold (this : CSymbol) :
  isMemberVariable this = true ->
  setterName this = units "set" ++ firstCharToUpper (baseName this).
Proof.
  intros H. unfold setterName, setterNameWith. now rewrite H.
Qed.

(** C3, as the code has it: for a member variable whose identifier is
    [m_count], [getterName()] is [count] (the base name, since a decoration
    was stripped) and [setterName()] is [setCount]; for one whose
    identifier is [count], [getterName()] is [getCount]. *)
Theorem accessor_names_of_m_count_and_count (this : CSymbol) :
  isMemberVariable this = true ->
  (id this = units "m_count" ->
     getterName this = units "count" /\ setterName this = units "setCount")
  /\ (id this = units "count" -> getterName this = units "getCount").
Proof.
  intros Hm. split.
  - intros Hid. rewrite getterName_unfold, setterName_unfold by assumption.
    unfold baseName. rewrite Hid. split; reflexivity.
  - intros Hid. rewrite getterName_unfold by assumption.
    unfold baseName. rewrite Hid. reflexivity.
Qed.

Lemma accessor_names_witness :
  (getterName sym_m_count = units "count"
   /\ setterName sym_m_count = units "setCount")
  /\ getterName sym_count = units "getCount".
Proof.
  split.
  - apply (accessor_names_of_m_count_and_count sym_m_count); reflexivity.
  - apply (accessor_names_of_m_count_and_count sym_count); reflexivity.
Defined.

(** C3 as the spec states it fails: the member variable [m_count] of
    [int m_count;] has the getter name [count], not [getCount]. *)
Lemma getterName_m_count_is_not_getCount :
  isMemberVariable sym_m_count = true
  /\ id sym_m_count = units "m_count"
  /\ getterName sym_m_count = units "count"
  /\ getterName sym_m_count <> units "getCount".
Proof.
  repeat split; try reflexivity. vm_compute. discriminate.
Qed.

(** C4: for a member variable, [getterName()] is [get] followed by the
    capitalized base name exactly when the base name equals the identifier,
    and is the base name itself otherwise; for any other symbol it is the
    empty string. *)
Theorem getterName_by_cases (this : CSymbol) :
  (isMemberVariable this = true ->
     (getterName this = units "get" ++ firstCharToUpper (baseName this)
      <-> baseName this = id this)
     /\ (baseName this <> id this -> getterName this = baseName this))
  /\ (isMemberVariable this = false -> getterName this = []).
Proof.
  split.
  - intros Hm. rewrite getterName_unfold by assumption.
    destruct (str_eqb (baseName this) (id this)) eqn:E.
    + apply str_eqb_eq in E. split; [tauto|]. intros H. contradiction.
    + apply str_eqb_neq in E. split; [|reflexivity].
      split; [|intros H; contradiction].
      intros H. apply (f_equal (@length N)) in H.
      rewrite length_app, firstCharToUpper_length in H. simpl in H. lia.
  - intros Hm. unfold getterName, getterNameWith. now rewrite Hm.
Qed.

(** ** Selection of a definition *)

Lemma selectDefinition_find folders position uri results :
  selectDefinition folders position uri results =
  find (fun l => sameFileElsewhere position uri l || otherFileInWorkspace folders uri l)
       (map locationOf results).
Proof.
  induction results as [|result rest IH]; [reflexivity|].
  cbn [selectDefinition map find]. fold (locationOf result).
  unfold sameFileElsewhere at 1, otherFileInWorkspace at 1.
  destruct (str_eqb (path (loc_uri (locationOf result))) (path uri)) eqn:Epath;
    cbn [andb negb orb].
  - destruct (contains (loc_range (locationOf result)) position); cbn [negb orb];
      [|reflexivity].
    destruct folders; cbn [andb]; exact IH.
  - destruct folders as [fs|]; [|exact IH].
    destruct (existsb _ fs); [reflexivity|exact IH].
Qed.

(** C2, as the code has it: the result is the first candidate, in the order
    of the provider's list, that is either in the file of the query with a
    range that does not contain the queried position, or in another file
    whose path includes the path of an open workspace folder; a later
    same-file candidate is not preferred to an earlier workspace one. There
    is no result when the provider answers nothing or no candidate
    qualifies. *)
Theorem findDefinitionInWorkspace_first_acceptable
    (host : Host) (position : Position) (uri : Uri) :
  findDefinitionInWorkspace host position uri =
  match definitionProvider host uri position with
  | None => None
  | Some results =>
      find (fun l => sameFileElsewhere position uri l
                     || otherFileInWorkspace (workspaceFolders host) uri l)
           (map locationOf results)
  end.
Proof.
  unfold findDefinitionInWorkspace.
  destruct (definitionProvider host uri position); [|reflexivity].
  apply selectDefinition_find.
Qed.

(** C2 as the spec states it fails: a workspace candidate listed before a
    same-file candidate is the one returned. *)
Lemma findDefinitionInWorkspace_takes_earlier_workspace_candidate :
  findDefinitionInWorkspace host_two_candidates (mkPosition 3 5) (file_uri "/ws/a.h")
    = Some (mkLocation (file_uri "/ws/a.cpp") (span 10 0 12 1))
  /\ preferSameFile (workspaceFolders host_two_candidates) (mkPosition 3 5)
       (file_uri "/ws/a.h")
       [ALocation (mkLocation (file_uri "/ws/a.cpp") (span 10 0 12 1));
        ALocation (mkLocation (file_uri "/ws/a.h") (span 20 0 20 10))]
    = Some (mkLocation (file_uri "/ws/a.h") (span 20 0 20 10)).
Proof. split; reflexivity. Qed.

(** ** Symbol lookup by position *)

Lemma searchBelow_eq (position : Position) (s : SourceSymbol) :
  searchBelow position s =
  match s_children s with
  | [] => Some s
  | _ :: _ => searchSymbolTree position (s_children s)
  end.
Proof.
  destruct s as [n d k r rr sr u cs]. cbn [s_children].
  destruct cs as [|c cs]; [reflexivity|].
  assert (H : forall l,
             (fix loop (sourceSymbols : list SourceSymbol) :=
                match sourceSymbols with
                | [] => None
                | x :: rest =>
                    if negb (contains (s_range x) position)
                    then loop rest
                    else searchBelow position x
                end) l = searchSymbolTree position l).
  { induction l as [|x l IH]; [reflexivity|].
    cbn [searchSymbolTree]. now rewrite IH. }
  exact (H (c :: cs)).
Qed.

Lemma searchSymbolTree_cons position s rest :
  searchSymbolTree position (s :: rest) =
  if negb (contains (s_range s) position) then searchSymbolTree position rest
  else match s_children s with
       | [] => Some s
       | _ :: _ => searchSymbolTree position (s_children s)
       end.
Proof. cbn [searchSymbolTree]. now rewrite searchBelow_eq. Qed.

Lemma searchSymbolTree_leaf position (l : list SourceSymbol) :
  Forall (fun s => forall r, searchBelow position s = Some r ->
                             s_children r = []) l ->
  forall r, searchSymbolTree position l = Some r -> s_children r = [].
Proof.
  induction 1 as [|s l Hs Hl IH]; intros r; cbn [searchSymbolTree]; [discriminate|].
  destruct (negb (contains (s_range s) position)); [apply IH|apply Hs].
Qed.

Lemma searchBelow_leaf position (s : SourceSymbol) :
  forall r, searchBelow position s = Some r -> s_children r = [].
Proof.
  induction s as [s IH] using SourceSymbol_induction. intros r.
  rewrite searchBelow_eq. destruct (s_children s) as [|c cs] eqn:E.
  - intros [= <-]. exact E.
  - apply searchSymbolTree_leaf. exact IH.
Qed.

Lemma searchSymbolTree_found position (l : list SourceSymbol) r :
  searchSymbolTree position l = Some r -> s_children r = [].
Proof.
  apply searchSymbolTree_leaf. apply Forall_forall. intros s _.
  apply searchBelow_leaf.
Qed.

Lemma searchSymbolTree_skip position pre l :
  Forall (fun x => contains (s_range x) position = false) pre ->
  searchSymbolTree position (pre ++ l) = searchSymbolTree position l.
Proof.
  induction 1 as [|x pre Hx _ IH]; [reflexivity|].
  cbn [app searchSymbolTree]. now rewrite Hx.
Qed.

Lemma searchSymbolTree_none position (l : list SourceSymbol) :
  Forall (fun x => contains (s_range x) position = false) l ->
  searchSymbolTree position l = None.
Proof.
  intros H. rewrite <- (app_nil_r l). now rewrite searchSymbolTree_skip.
Qed.

Lemma Reaches_nonempty position l s : Reaches position l s -> l <> [].
Proof. intros H; inversion H; now destruct pre. Qed.

Lemma searchSymbolTree_reaches position l s :
  Reaches position l s ->
  s_children s <> [] ->
  Forall (fun c => contains (s_range c) position = false) (s_children s) ->
  searchSymbolTree position l = None.
Proof.
  induction 1 as [pre s post Hpre Hs | pre p post s Hpre Hp Hr IH];
    intros Hne Hall.
  - rewrite searchSymbolTree_skip, searchSymbolTree_cons by assumption.
    rewrite Hs. cbn [negb]. destruct (s_children s) eqn:E; [contradiction|].
    now apply searchSymbolTree_none.
  - rewrite searchSymbolTree_skip, searchSymbolTree_cons by assumption.
    rewrite Hp. cbn [negb]. apply Reaches_nonempty in Hr as Hne'.
    destruct (s_children p) eqn:E; [contradiction|]. now apply IH.
Qed.

(** ** Trees of the data model

    In the data model of the spec the ranges of two siblings do not
    overlap and a symbol lies within its parent. At a given position this
    says: no sibling before a symbol whose range contains the position
    contains it too, and the parent of such a symbol contains it as well.
    In such a tree the search reaches every symbol whose range contains
    the position. *)

Lemma Occurs_top position l s :
  WellFormedAt position l -> Occurs l s -> contains (s_range s) position = true ->
  exists c, In c l /\ contains (s_range c) position = true.
Proof.
  intros Hwf Hocc. revert Hwf.
  induction Hocc as [l s Hin|l p s Hin Hocc IH]; intros Hwf Hs.
  - now exists s.
  - destruct Hwf as [l _ Hnest Hsub].
    destruct (IH (Hsub p Hin) Hs) as (c & Hc & Hcpos).
    exists p. split; [assumption|]. now apply Hnest with c.
Qed.

Lemma WellFormedAt_reaches position l s :
  WellFormedAt position l -> Occurs l s -> contains (s_range s) position = true ->
  Reaches position l s.
Proof.
  intros Hwf Hocc. revert Hwf.
  induction Hocc as [l s Hin|l p s Hin Hocc IH]; intros Hwf Hs.
  - destruct Hwf as [l Hfirst _ _].
    apply in_split in Hin as (pre & post & ->).
    apply reaches_here; [|assumption]. now apply Hfirst with s post.
  - pose proof Hwf as Hwf'. destruct Hwf as [l Hfirst Hnest Hsub].
    destruct (Occurs_top position (s_children p) s (Hsub p Hin) Hocc Hs)
      as (c & Hc & Hcpos).
    pose proof (Hnest p c Hin Hc Hcpos) as Hp.
    apply in_split in Hin as Hsplit. destruct Hsplit as (pre & post & ->).
    apply reaches_below; [now apply Hfirst with p post|assumption|].
    apply IH; [|assumption]. apply Hsub. apply in_elt.
Qed.

(** C10, amended: a symbol that has children is never the result of
    [getSymbol]. When the search reaches a symbol that has children, none of
    which contains the position, the result is no symbol, although the range
    of that symbol contains the position; and in a tree in which, at that
    position, the ranges of siblings do not overlap and children lie within
    their parent, the search reaches every symbol of the tree whose range
    contains the position, so that this holds of each of them. *)
Theorem getSymbol_never_a_symbol_with_children
    (sort : forall A : Type, (A -> A -> Z) -> list A -> list A) (host : Host)
    (this : SourceDocument) (position : Position) :
  (forall r, getSymbol sort host this position = Some r -> s_children r = [])
  /\ (forall s,
        Reaches position (symbolsOf sort host this) s ->
        s_children s <> [] ->
        Forall (fun c => contains (s_range c) position = false) (s_children s) ->
        contains (s_range s) position = true
        /\ getSymbol sort host this position = None)
  /\ (forall s,
        WellFormedAt position (symbolsOf sort host this) ->
        Occurs (symbolsOf sort host this) s ->
        contains (s_range s) position = true ->
        s_children s <> [] ->
        Forall (fun c => contains (s_range c) position = false) (s_children s) ->
        getSymbol sort host this position = None).
Proof.
  split; [|split].
  - intros r. apply searchSymbolTree_found.
  - intros s Hr Hne Hall. split.
    + clear Hne Hall. induction Hr; assumption.
    + unfold getSymbol. now apply searchSymbolTree_reaches with s.
  - intros s Hwf Hocc Hs Hne Hall. unfold getSymbol.
    apply searchSymbolTree_reaches with s; try assumption.
    now apply WellFormedAt_reaches.
Qed.

Lemma getSymbol_between_members_witness :
  getSymbol insertionSort (mkHost (fun _ => None) (fun _ _ => None) None)
    (mkSourceDocument doc_classA (Some tree_classA)) (mkPosition 4 0)
  = None.
Proof.
  refine (proj2
            (proj1 (proj2 (getSymbol_never_a_symbol_with_children insertionSort _
                             (mkSourceDocument doc_classA (Some tree_classA))
                             (mkPosition 4 0)))
               (SourceSymbol_new insertionSort raw_classA (file_uri "/ws/a.h"))
               _ _ _)).
  - apply (reaches_here (mkPosition 4 0) [] _ []); [constructor|reflexivity].
  - discriminate.
  - repeat constructor.
Defined.

(** C10 as the spec states it fails: the position (0,18), after the brace
    of the struct, lies in the range of [P] and in the range of none of its
    children. The name [p] starts first, so it comes first in the tree; its
    range contains the position too, and [getSymbol] returns it. *)
Lemma getSymbol_returns_an_overlapping_sibling :
  symbolsOf insertionSort host_typedef (mkSourceDocument doc_typedef None)
  = [typedef_p; typedef_P]
  /\ contains (s_range typedef_P) (mkPosition 0 18) = true
  /\ s_children typedef_P = [typedef_x]
  /\ contains (s_range typedef_x) (mkPosition 0 18) = false
  /\ getSymbol insertionSort host_typedef (mkSourceDocument doc_typedef None)
       (mkPosition 0 18)
     = Some typedef_p.
Proof. repeat split; vm_compute; reflexivity. Qed.

(** ** The siblings of a declaration *)

Lemma splitSiblings_after ref (l : list SourceSymbol) :
  splitSiblings ref l true = ([], filter (otherRange ref) l).
Proof.
  induction l as [|x l IH]; [reflexivity|].
  cbn [splitSiblings filter]. unfold otherRange at 1.
  destruct (s_rangeRef x =? ref); cbn [negb]; [exact IH|].
  now rewrite IH.
Qed.

Lemma splitSiblings_no_hit ref (l : list SourceSymbol) :
  Forall (fun s => s_rangeRef s <> ref) l ->
  splitSiblings ref l false = (l, []).
Proof.
  induction 1 as [|x l Hx _ IH]; [reflexivity|].
  cbn [splitSiblings]. apply Nat.eqb_neq in Hx. rewrite Hx, IH. reflexivity.
Qed.

Lemma splitSiblings_hit ref (pre post : list SourceSymbol) d :
  Forall (fun s => s_rangeRef s <> ref) pre ->
  s_rangeRef d = ref ->
  splitSiblings ref (pre ++ d :: post) false = (pre, filter (otherRange ref) post).
Proof.
  induction 1 as [|x pre Hx _ IH]; intros Hd.
  - cbn [app splitSiblings]. apply Nat.eqb_eq in Hd. rewrite Hd.
    apply splitSiblings_after.
  - cbn [app splitSiblings]. apply Nat.eqb_neq in Hx. rewrite Hx, (IH Hd).
    reflexivity.
Qed.

(** C7, as the code has it: the sibling that marks the split is the one
    whose [range] is the very Range object of the declaration (the test is
    [===]). The siblings before the first such sibling are the ones before,
    the later ones (any further sibling sharing that object left out) are
    the ones after; and when no sibling shares the object, also when the
    range of one is equal to the declaration's by value, every sibling
    counts as before and none as after. *)
Theorem splitSiblings_by_range_identity
    (ref : nat) (pre post : list SourceSymbol) (d : SourceSymbol) :
  Forall (fun s => s_rangeRef s <> ref) pre ->
  (s_rangeRef d = ref ->
     splitSiblings ref (pre ++ d :: post) false
     = (pre, filter (otherRange ref) post))
  /\ (s_rangeRef d <> ref ->
      Forall (fun s => s_rangeRef s <> ref) post ->
      splitSiblings ref (pre ++ d :: post) false = (pre ++ d :: post, [])).
Proof.
  intros Hpre. split.
  - now apply splitSiblings_hit.
  - intros Hd Hpost. apply splitSiblings_no_hit.
    apply Forall_app. split; [assumption|]. now constructor.
Qed.

Lemma splitSiblings_witness :
  splitSiblings 2 ([sibling "f()" 0 1] ++ sibling "g()" 1 2 :: [sibling "h()" 2 3]) false
  = ([sibling "f()" 0 1], [sibling "h()" 2 3]).
Proof.
  refine (proj1 (splitSiblings_by_range_identity 2 [sibling "f()" 0 1]
                   [sibling "h()" 2 3] (sibling "g()" 1 2) _) _).
  - repeat constructor. discriminate.
  - reflexivity.
Defined.

(** C7 as the spec states it fails: [g] taken from a rebuilt tree has an
    equal range held by another Range object (7); it does not mark the
    split, and all three siblings count as before. *)
Lemma splitSiblings_ignores_equal_range_of_rebuilt_tree :
  let declaration := sibling "g()" 1 7 in
  Exists (fun s => range_eqb (s_range s) (s_range declaration) = true) three_siblings
  /\ splitSiblings (s_rangeRef declaration) three_siblings false
     = (three_siblings, [])
  /\ splitByRangeValue (s_range declaration) three_siblings false
     = ([sibling "f()" 0 1], [sibling "h()" 2 3]).
Proof.
  cbv zeta. split; [|split; reflexivity].
  apply Exists_cons_tl, Exists_cons_hd. reflexivity.
Qed.

(** ** Include blocks *)

Lemma object_gt_false (A : Type) (a b : A) : object_gt a b = false.
Proof. reflexivity. Qed.

(** A block found earlier is never replaced by a later one. *)
Lemma largestBlock_keeps_first (line : TextLine) (from : Position) (largest : Range) :
  largestBlock line from (Some largest) = largest.
Proof. unfold largestBlock. now rewrite object_gt_false. Qed.

(** C6 fails on the code: of two runs of system includes, of one line
    (ending at line 1) and of two lines (ending at line 4), the first one
    gives both anchors, not the larger one. *)
Lemma findPositionForNewInclude_returns_first_run
    (sort : forall A : Type, (A -> A -> Z) -> list A -> list A) (host : Host) :
  findPositionForNewInclude sort host (mkSourceDocument doc_two_include_runs None)
  = Some (mkIncludePositions (mkPosition 1 0) (mkPosition 1 0)).
Proof. reflexivity. Qed.

(** When blocks of one kind only were found, both anchors are the end of
    the block of that kind. *)
Lemma findPositionForNewInclude_one_kind
    (sort : forall A : Type, (A -> A -> Z) -> list A -> list A) (host : Host)
    (this : SourceDocument) (block : Range) :
  (largestSystemIncludeBlock (includeBlocks (sd_document this)) = Some block
   /\ largestProjectIncludeBlock (includeBlocks (sd_document this)) = None)
  \/ (largestSystemIncludeBlock (includeBlocks (sd_document this)) = None
      /\ largestProjectIncludeBlock (includeBlocks (sd_document this)) = Some block) ->
  findPositionForNewInclude sort host this
  = Some (mkIncludePositions (end_ block) (end_ block)).
Proof.
  unfold findPositionForNewInclude. cbv zeta.
  intros [[-> ->]|[-> ->]]; reflexivity.
Qed.

(** ** Order of the symbol tree *)

Lemma isBefore_spec (a b : Position) :
  isBefore a b = true <->
  line a < line b \/ (line a = line b /\ character a < character b).
Proof.
  unfold isBefore. rewrite orb_true_iff, andb_true_iff.
  rewrite !Nat.ltb_lt, Nat.eqb_eq. tauto.
Qed.

Lemma isBeforeOrEqual_spec (a b : Position) :
  isBeforeOrEqual a b = true <->
  line a < line b \/ (line a = line b /\ character a <= character b).
Proof.
  unfold isBeforeOrEqual, isAfter. rewrite negb_true_iff.
  destruct (isBefore b a) eqn:E.
  - apply isBefore_spec in E. split; [discriminate|lia].
  - split; [intros _|reflexivity].
    assert (H : ~ (line b < line a \/ (line b = line a /\ character b < character a))).
    { intros H. apply isBefore_spec in H. congruence. }
    lia.
Qed.

Lemma compareStart_neg (a b : Position) :
  (compareStart a b < 0)%Z <-> isBeforeOrEqual a b = true.
Proof.
  unfold compareStart, isBeforeOrEqual. destruct (isAfter a b); cbn [negb].
  - split; [lia|discriminate].
  - split; [reflexivity|lia].
Qed.

Lemma compareStart_nonzero (a b : Position) : compareStart a b <> 0%Z.
Proof. unfold compareStart. destruct (isAfter a b); lia. Qed.

Lemma compareStart_total (a b : Position) :
  (compareStart a b < 0)%Z \/ (compareStart b a < 0)%Z.
Proof. rewrite !compareStart_neg, !isBeforeOrEqual_spec. lia. Qed.

Lemma compareStart_trans (a b c : Position) :
  (compareStart a b < 0)%Z -> (compareStart b c < 0)%Z -> (compareStart a c < 0)%Z.
Proof. rewrite !compareStart_neg, !isBeforeOrEqual_spec. lia. Qed.

Lemma insertBy_perm (A : Type) (cmp : A -> A -> Z) x (l : list A) :
  Permutation (x :: l) (insertBy cmp x l).
Proof.
  induction l as [|y l IH]; cbn [insertBy]; [reflexivity|].
  destruct (cmp x y <? 0)%Z; [reflexivity|].
  rewrite perm_swap. now constructor.
Qed.

Lemma insertionSort_perm (A : Type) (cmp : A -> A -> Z) (l : list A) :
  Permutation l (insertionSort _ cmp l).
Proof.
  induction l as [|x l IH]; cbn [insertionSort]; [constructor|].
  rewrite <- insertBy_perm. now constructor.
Qed.

Lemma insertBy_sorted (A : Type) (cmp : A -> A -> Z) x (l : list A) :
  (forall a b, (cmp a b < 0)%Z \/ (cmp b a < 0)%Z) ->
  (forall a b c, (cmp a b < 0)%Z -> (cmp b c < 0)%Z -> (cmp a c < 0)%Z) ->
  StronglySorted (fun a b => (cmp a b < 0)%Z) l ->
  StronglySorted (fun a b => (cmp a b < 0)%Z) (insertBy cmp x l).
Proof.
  intros Htot Htr. induction 1 as [|y l Hl IH Hy]; cbn [insertBy].
  - repeat constructor.
  - destruct (cmp x y <? 0)%Z eqn:E.
    + apply Z.ltb_lt in E. constructor; [now constructor|].
      constructor; [assumption|].
      eapply Forall_impl; [|exact Hy]. intros z Hz. now apply Htr with y.
    + apply Z.ltb_ge in E. constructor; [assumption|].
      eapply Permutation_Forall; [apply insertBy_perm|].
      constructor; [|assumption].
      destruct (Htot x y); [lia|assumption].
Qed.

Lemma insertionSort_is_ComparisonSort : ComparisonSort insertionSort.
Proof.
  intros A cmp l. split; [apply insertionSort_perm|].
  intros _ Htot Htr. induction l as [|x l IH]; cbn [insertionSort].
  - constructor.
  - now apply insertBy_sorted.
Qed.

Lemma StronglySorted_orderedByStart (starts : list Position) :
  StronglySorted (fun a b => (compareStart a b < 0)%Z) starts ->
  orderedByStart starts.
Proof.
  induction 1 as [|x l Hl IH Hx]; intros i a b Ha Hb.
  - destruct i; discriminate.
  - destruct i as [|i].
    + cbn in Ha, Hb. injection Ha as <-. destruct l as [|y l]; [discriminate|].
      injection Hb as <-. apply compareStart_neg. now inversion Hx.
    + cbn in Ha. apply (IH i a b Ha Hb).
Qed.

Lemma StronglySorted_map (A B : Type) (R : B -> B -> Prop) (f : A -> B) (l : list A) :
  StronglySorted (fun a b => R (f a) (f b)) l -> StronglySorted R (map f l).
Proof.
  induction 1 as [|x l Hl IH Hx]; cbn [map]; constructor; [assumption|].
  apply Forall_map. exact Hx.
Qed.

Lemma orderedByStart_nil : orderedByStart [].
Proof. intros [|i] a b H; discriminate. Qed.

Section Ordered.

Variable sort : forall A : Type, (A -> A -> Z) -> list A -> list A.
Hypothesis sort_ok : ComparisonSort sort.

Lemma sort_d_compare_ordered (l : list DocumentSymbol) :
  orderedByStart (map (fun c => start (d_range c)) (sort _ d_compare l)).
Proof.
  apply StronglySorted_orderedByStart, StronglySorted_map.
  apply (sort_ok _ d_compare l); intros; unfold d_compare.
  - apply compareStart_nonzero.
  - apply compareStart_total.
  - eapply compareStart_trans; eassumption.
Qed.

Lemma sort_s_compare_ordered (l : list SourceSymbol) :
  orderedByStart (map (fun c => start (s_range c)) (sort _ s_compare l)).
Proof.
  apply StronglySorted_orderedByStart, StronglySorted_map.
  apply (sort_ok _ s_compare l); intros; unfold s_compare.
  - apply compareStart_nonzero.
  - apply compareStart_total.
  - eapply compareStart_trans; eassumption.
Qed.

Lemma buildSourceSymbol_range fuel d uri :
  s_range (buildSourceSymbol sort fuel d uri) = d_range d.
Proof. destruct fuel; reflexivity. Qed.

Lemma buildSourceSymbol_ordered fuel :
  forall d uri, s_Ordered (buildSourceSymbol sort fuel d uri).
Proof.
  induction fuel as [|n IH]; intros d uri; constructor; cbn.
  - apply orderedByStart_nil.
  - constructor.
  - rewrite map_map.
    rewrite (map_ext _ (fun c => start (d_range c)))
      by (intros c; now rewrite buildSourceSymbol_range).
    apply sort_d_compare_ordered.
  - apply Forall_map, Forall_forall. intros c _. apply IH.
Qed.

Lemma s_sortedInPlace_range fuel s :
  s_range (s_sortedInPlace sort fuel s) = s_range s.
Proof. destruct fuel; reflexivity. Qed.

Lemma s_sortedInPlace_children_ordered fuel s :
  orderedByStart
    (map (fun c => start (s_range c)) (s_children (s_sortedInPlace sort fuel s))).
Proof.
  destruct fuel as [|n]; cbn.
  - apply sort_s_compare_ordered.
  - rewrite map_map.
    rewrite (map_ext _ (fun c => start (s_range c)))
      by (intros c; now rewrite s_sortedInPlace_range).
    apply sort_s_compare_ordered.
Qed.

Lemma buildCSymbol_range fuel s doc :
  range (buildCSymbol sort fuel s doc) = s_range s.
Proof. destruct fuel; cbn; apply s_sortedInPlace_range. Qed.

Lemma buildCSymbol_ordered fuel :
  forall s doc, c_Ordered (buildCSymbol sort fuel s doc).
Proof.
  induction fuel as [|n IH]; intros s doc; constructor; cbn.
  - apply orderedByStart_nil.
  - constructor.
  - rewrite map_map.
    rewrite (map_ext _ (fun c => start (s_range c)))
      by (intros c; now rewrite buildCSymbol_range).
    apply s_sortedInPlace_children_ordered.
  - apply Forall_map, Forall_forall. intros c _. apply IH.
Qed.

Lemma CSymbol_ofDocumentSymbol_ordered d doc :
  c_Ordered (CSymbol_ofDocumentSymbol sort d doc).
Proof.
  constructor; cbn [children CSymbol_ofDocumentSymbol].
  - rewrite map_map.
    rewrite (map_ext _ (fun c => start (s_range c)))
      by (intros c; unfold CSymbol_new; now rewrite buildCSymbol_range).
    pose proof (buildSourceSymbol_ordered
                  (d_height (sortedInPlace sort (d_height d) d))
                  (sortedInPlace sort (d_height d) d) (doc_uri doc)) as H.
    now inversion H.
  - apply Forall_map, Forall_forall. intros c _. apply buildCSymbol_ordered.
Qed.

(** C9: every constructed tree is ordered by the start of the ranges at
    every level: the tree of [new SourceSymbol], the tree of [new CSymbol]
    (from a source symbol and from a document symbol), and the list built by
    [executeSourceSymbolProvider] with the tree of each of its symbols,
    whatever the order of the symbols given to the constructor. The sort of
    the engine is taken to order an array by the sign of the comparison
    function ([sort_ok]); the comparison function of the source answers -1
    for two equal starts, and is shown to be one that such a sort orders
    by. *)
Theorem constructed_trees_are_ordered :
  (forall d uri, s_Ordered (SourceSymbol_new sort d uri))
  /\ (forall s doc, c_Ordered (CSymbol_new sort s doc))
  /\ (forall d doc, c_Ordered (CSymbol_ofDocumentSymbol sort d doc))
  /\ (forall documentSymbols uri,
        orderedByStart
          (map (fun c => start (s_range c))
               (executeSourceSymbolProvider sort documentSymbols uri))
        /\ Forall s_Ordered (executeSourceSymbolProvider sort documentSymbols uri)).
Proof.
  split; [|split; [|split; [|intros documentSymbols uri; split]]].
  - intros d uri. apply buildSourceSymbol_ordered.
  - intros s doc. apply buildCSymbol_ordered.
  - apply CSymbol_ofDocumentSymbol_ordered.
  - destruct documentSymbols as [l|]; cbn [executeSourceSymbolProvider];
      [|apply orderedByStart_nil].
    rewrite map_map.
    rewrite (map_ext _ (fun c => start (d_range c)))
      by (intros c; unfold SourceSymbol_new; now rewrite buildSourceSymbol_range).
    apply sort_d_compare_ordered.
  - destruct documentSymbols as [l|]; cbn [executeSourceSymbolProvider];
      [|constructor].
    apply Forall_map, Forall_forall. intros c _. apply buildSourceSymbol_ordered.
Qed.

End Ordered.

(** ** The construction converts every symbol

    The depth of the tree is fuel enough: the constructed tree has as many
    symbols as the one it was built from. *)

Lemma d_size_eq d : d_size d = S (list_sum (map d_size (d_children d))).
Proof. now destruct d. Qed.

Lemma s_size_eq s : s_size s = S (list_sum (map s_size (s_children s))).
Proof. now destruct s. Qed.

Lemma c_size_eq c : c_size c = S (list_sum (map c_size (children c))).
Proof. now destruct c. Qed.

Lemma d_height_eq d :
  d_height d = list_max (map (fun c => S (d_height c)) (d_children d)).
Proof. now destruct d. Qed.

Lemma s_height_eq s :
  s_height s = list_max (map (fun c => S (s_height c)) (s_children s)).
Proof. now destruct s. Qed.

Lemma list_max_bound (A : Type) (f : A -> nat) (l : list A) (x : A) :
  In x l -> f x <= list_max (map f l).
Proof.
  intros H. assert (Hle : list_max (map f l) <= list_max (map f l)) by lia.
  apply list_max_le in Hle. rewrite Forall_map, Forall_forall in Hle.
  now apply Hle.
Qed.

Lemma list_max_zero (A : Type) (f : A -> nat) (l : list A) :
  list_max (map (fun c => S (f c)) l) = 0 -> l = [].
Proof.
  destruct l as [|x l]; [reflexivity|]. intros H.
  pose proof (list_max_bound _ (fun c => S (f c)) (x :: l) x (or_introl eq_refl)) as Hb.
  cbv beta in Hb. lia.
Qed.

Lemma list_sum_perm (A : Type) (f : A -> nat) (l l' : list A) :
  Permutation l l' -> list_sum (map f l) = list_sum (map f l').
Proof.
  unfold list_sum.
  induction 1 as [|x l l' _ IH|x y l|l l' l'' _ IH1 _ IH2];
    cbn [map fold_right]; lia.
Qed.

Lemma list_max_perm (A : Type) (f : A -> nat) (l l' : list A) :
  Permutation l l' -> list_max (map f l) = list_max (map f l').
Proof.
  unfold list_max.
  induction 1 as [|x l l' _ IH|x y l|l l' l'' _ IH1 _ IH2];
    cbn [map fold_right]; lia.
Qed.

Lemma list_sum_ext_in (A : Type) (f g : A -> nat) (l : list A) :
  (forall x, In x l -> f x = g x) -> list_sum (map f l) = list_sum (map g l).
Proof. intros H. f_equal. now apply map_ext_in. Qed.

Lemma list_max_ext_in (A : Type) (f g : A -> nat) (l : list A) :
  (forall x, In x l -> f x = g x) -> list_max (map f l) = list_max (map g l).
Proof. intros H. f_equal. now apply map_ext_in. Qed.

Section Adequacy.

Variable sort : forall A : Type, (A -> A -> Z) -> list A -> list A.
Hypothesis sort_ok : ComparisonSort sort.

Lemma sort_perm (A : Type) (cmp : A -> A -> Z) (l : list A) :
  Permutation l (sort _ cmp l).
Proof. apply (sort_ok _ cmp l). Qed.

Lemma sort_nil (A : Type) (cmp : A -> A -> Z) : sort _ cmp (@nil A) = [].
Proof. apply Permutation_nil, sort_perm. Qed.

Lemma sorted_child_height d c :
  In c (sort _ d_compare (d_children d)) -> S (d_height c) <= d_height d.
Proof.
  intros H. apply (Permutation_in _ (Permutation_sym (sort_perm _ _ _))) in H.
  rewrite (d_height_eq d).
  exact (list_max_bound _ (fun c => S (d_height c)) _ _ H).
Qed.

Lemma s_sorted_child_height s c :
  In c (sort _ s_compare (s_children s)) -> S (s_height c) <= s_height s.
Proof.
  intros H. apply (Permutation_in _ (Permutation_sym (sort_perm _ _ _))) in H.
  rewrite (s_height_eq s).
  exact (list_max_bound _ (fun c => S (s_height c)) _ _ H).
Qed.

Lemma buildSourceSymbol_size fuel :
  forall d uri, d_height d <= fuel ->
  s_size (buildSourceSymbol sort fuel d uri) = d_size d.
Proof.
  induction fuel as [|n IH]; intros d uri Hh; rewrite s_size_eq, d_size_eq; cbn.
  - assert (E : d_children d = []).
    { apply list_max_zero with d_height. rewrite <- d_height_eq. lia. }
    now rewrite E.
  - f_equal. rewrite map_map.
    rewrite (list_sum_perm _ d_size _ _ (sort_perm _ d_compare (d_children d))).
    apply list_sum_ext_in. intros c Hc. apply IH.
    apply sorted_child_height in Hc. lia.
Qed.

Lemma s_sortedInPlace_size_height fuel :
  forall s, s_height s <= fuel ->
  s_size (s_sortedInPlace sort fuel s) = s_size s
  /\ s_height (s_sortedInPlace sort fuel s) = s_height s.
Proof.
  induction fuel as [|n IH]; intros s Hh;
    rewrite (s_size_eq (s_sortedInPlace _ _ _)), (s_size_eq s),
            (s_height_eq (s_sortedInPlace _ _ _)), (s_height_eq s); cbn.
  - assert (E : s_children s = []).
    { apply list_max_zero with s_height. rewrite <- s_height_eq. lia. }
    now rewrite E, sort_nil.
  - rewrite !map_map.
    rewrite (list_sum_perm _ s_size _ _ (sort_perm _ s_compare (s_children s))).
    rewrite (list_max_perm _ (fun c => S (s_height c)) _ _
               (sort_perm _ s_compare (s_children s))).
    split; [f_equal; apply list_sum_ext_in | apply list_max_ext_in];
      intros c Hc; apply s_sorted_child_height in Hc;
      destruct (IH c) as [E1 E2]; try lia; congruence.
Qed.

Lemma buildCSymbol_size fuel :
  forall s doc, s_height s <= fuel ->
  c_size (buildCSymbol sort fuel s doc) = s_size s.
Proof.
  induction fuel as [|n IH]; intros s doc Hh; rewrite c_size_eq; cbn.
  - assert (E : s_children s = []).
    { apply list_max_zero with s_height. rewrite <- s_height_eq. lia. }
    rewrite s_size_eq, E. reflexivity.
  - destruct (s_sortedInPlace_size_height (s_height s) s (le_n _)) as [E1 E2].
    rewrite <- E1, (s_size_eq (s_sortedInPlace _ _ _)). f_equal.
    rewrite map_map. apply list_sum_ext_in. intros c Hc. apply IH.
    pose proof (list_max_bound _ (fun c => S (s_height c)) _ _ Hc) as Hb.
    rewrite <- s_height_eq, E2 in Hb. lia.
Qed.

(** The constructors convert the whole tree. *)
Lemma constructors_keep_every_symbol :
  (forall d uri, s_size (SourceSymbol_new sort d uri) = d_size d)
  /\ (forall s doc, c_size (CSymbol_new sort s doc) = s_size s).
Proof.
  split; intros.
  - now apply buildSourceSymbol_size.
  - now apply buildCSymbol_size.
Qed.

End Adequacy.

Lemma constructed_trees_are_ordered_witness :
  s_Ordered (SourceSymbol_new insertionSort raw_class (file_uri "/ws/a.h"))
  /\ map s_name
       (s_children (SourceSymbol_new insertionSort raw_class (file_uri "/ws/a.h")))
     = [units "getX()"; units "setX(int)"; units "x"].
Proof.
  split.
  - apply (constructed_trees_are_ordered insertionSort insertionSort_is_ComparisonSort).
  - reflexivity.
Defined.

(** ** The position of a new method *)

Lemma searchDown_some (A : Type) (p : A -> bool) (l : list A) n i x :
  searchDown p l n = Some (i, x) ->
  i < n /\ nth_error l i = Some x /\ p x = true
  /\ (forall k y, i < k < n -> nth_error l k = Some y -> p y = false).
Proof.
  induction n as [|n IH]; cbn [searchDown]; [discriminate|].
  destruct (nth_error l n) as [y|] eqn:E.
  - destruct (p y) eqn:Ep.
    + intros [= <- <-]. repeat split; try assumption; [lia|].
      intros k z Hk. lia.
    + intros H. destruct (IH H) as (Hi & Hx & Hp & Hlater).
      repeat split; try assumption; [lia|].
      intros k z Hk Hz. destruct (Nat.eq_dec k n) as [->|Hne].
      * congruence.
      * apply (Hlater k z); [lia|assumption].
  - intros H. destruct (IH H) as (Hi & Hx & Hp & Hlater).
    repeat split; try assumption; [lia|].
    intros k z Hk Hz. destruct (Nat.eq_dec k n) as [->|Hne].
    + congruence.
    + apply (Hlater k z); [lia|assumption].
Qed.

Lemma searchDown_none (A : Type) (p : A -> bool) (l : list A) n :
  searchDown p l n = None ->
  forall k y, k < n -> nth_error l k = Some y -> p y = false.
Proof.
  induction n as [|n IH]; cbn [searchDown]; intros H k y Hk Hy; [lia|].
  destruct (nth_error l n) as [z|] eqn:E.
  - destruct (p z) eqn:Ep; [discriminate|].
    destruct (Nat.eq_dec k n) as [->|Hne]; [congruence|].
    apply (IH H k y); [lia|assumption].
  - destruct (Nat.eq_dec k n) as [->|Hne]; [congruence|].
    apply (IH H k y); [lia|assumption].
Qed.

Lemma searchDown_finds (A : Type) (p : A -> bool) (l : list A) n k y :
  k < n -> nth_error l k = Some y -> p y = true ->
  exists i x, searchDown p l n = Some (i, x) /\ k <= i.
Proof.
  intros Hk Hy Hp. destruct (searchDown p l n) as [[i x]|] eqn:E.
  - exists i, x. split; [reflexivity|].
    destruct (searchDown_some _ _ _ _ _ _ E) as (_ & _ & _ & Hlater).
    destruct (Nat.le_gt_cases k i) as [|Hgt]; [assumption|].
    rewrite (Hlater k y) in Hp by (try lia; assumption). discriminate.
  - rewrite (searchDown_none _ _ _ _ E _ _ Hk Hy) in Hp. discriminate.
Qed.

Lemma asSourceSymbol_fields (c : CSymbol) :
  s_kind (asSourceSymbol c) = kind c
  /\ s_range (asSourceSymbol c) = range c
  /\ s_selectionRange (asSourceSymbol c) = selectionRange c.
Proof. destruct c; repeat split. Qed.

Section MethodPosition.

Variable sort : forall A : Type, (A -> A -> Z) -> list A -> list A.

(** The symbol built anew from a child keeps the kind and the ranges of the
    child, and lies in the document of [this]. *)
Lemma s_sortedInPlace_fields fuel (s : SourceSymbol) :
  s_kind (s_sortedInPlace sort fuel s) = s_kind s
  /\ s_range (s_sortedInPlace sort fuel s) = s_range s
  /\ s_selectionRange (s_sortedInPlace sort fuel s) = s_selectionRange s.
Proof. destruct fuel; repeat split. Qed.

Lemma buildCSymbol_fields fuel (s : SourceSymbol) (doc : TextDocument) :
  kind (buildCSymbol sort fuel s doc) = s_kind s
  /\ range (buildCSymbol sort fuel s doc) = s_range s
  /\ selectionRange (buildCSymbol sort fuel s doc) = s_selectionRange s
  /\ document (buildCSymbol sort fuel s doc) = doc.
Proof.
  destruct (s_sortedInPlace_fields (s_height s) s) as (Ek & Er & Es).
  destruct fuel; cbn; repeat split; assumption.
Qed.

Lemma childSymbol_fields (this child : CSymbol) :
  kind (childSymbol sort this child) = kind child
  /\ range (childSymbol sort this child) = range child
  /\ selectionRange (childSymbol sort this child) = selectionRange child
  /\ document (childSymbol sort this child) = document this.
Proof.
  destruct (asSourceSymbol_fields child) as (Ek & Er & Es).
  destruct (buildCSymbol_fields (s_height (asSourceSymbol child))
              (asSourceSymbol child) (document this)) as (Fk & Fr & Fs & Fd).
  unfold childSymbol, CSymbol_new. repeat split; congruence.
Qed.

Lemma childSymbol_isFunction this child :
  isFunction (childSymbol sort this child) = isFunction child.
Proof.
  unfold isFunction. now destruct (childSymbol_fields this child) as (-> & _).
Qed.

(** A child is between two offsets when it is a function that starts after
    the first and ends before the second, in the document of [this]. *)
Lemma symbolIsBetween_child this child a b :
  symbolIsBetween (childSymbol sort this child) a b = true <->
  isFunction child = true
  /\ a < offsetAt (document this) (start (range child))
  /\ offsetAt (document this) (end_ (range child)) < b.
Proof.
  unfold symbolIsBetween, CSymbol_isAfter, CSymbol_isBefore.
  rewrite childSymbol_isFunction.
  destruct (childSymbol_fields this child) as (_ & -> & _ & ->).
  rewrite !andb_true_iff, !Nat.ltb_lt. tauto.
Qed.

Lemma classOrStruct_test this :
  classOrStruct this ->
  negb (kind_eqb (kind this) Class) && negb (kind_eqb (kind this) Struct) = false.
Proof. intros [-> | ->]; reflexivity. Qed.

Lemma childSymbol_id this child :
  id (childSymbol sort this child) = getText (document this) (selectionRange child).
Proof.
  unfold id. now destruct (childSymbol_fields this child) as (_ & _ & -> & ->).
Qed.

(** C8, amended: take a class or struct whose text has a [public:] (not at
    its very start) and, among its children, a function [setter] whose
    range lies in the public section as the code bounds it: strictly
    between that [public:] and the offset at which the code ends the
    section. That offset is the one of the first token that looks like a
    label, whatever that token is, and whose index in the text of the
    symbol is greater than the offset of [public:] in the document; it is
    the end of the symbol when there is no such token. The identifier of
    [setter] is [relativeName], no other child has that identifier, and
    another child ([getter]) comes before it. Then, for a member variable
    whose setter name is [relativeName], the position proposed for the new
    method is the start of the range of [setter], with [before] and
    [nextTo] set. *)
Theorem findPositionForNewMethod_getter_before_setter
    (this : CSymbol) (relativeName : str) (memberVariable : CSymbol)
    (p i j : nat) (getter setter : CSymbol) :
  classOrStruct this ->
  publicSpecifierIndex this = Some (S p) ->
  nth_error (children this) i = Some getter ->
  nth_error (children this) j = Some setter ->
  i < j ->
  isFunction setter = true ->
  S p + offsetAt (document this) (start (range this))
    < offsetAt (document this) (start (range setter)) ->
  offsetAt (document this) (end_ (range setter))
    < nextAccessSpecifierOffset this
        (S p + offsetAt (document this) (start (range this))) ->
  getText (document this) (selectionRange setter) = relativeName ->
  (forall k c, nth_error (children this) k = Some c ->
               getText (document this) (selectionRange c) = relativeName -> k = j) ->
  setterName memberVariable = relativeName ->
  relativeName <> [] ->
  findPositionForNewMethod sort this (Some relativeName) (Some memberVariable)
  = Some (mkProposedPosition (start (range setter)) (Some true) None (Some true)).
Proof.
  intros Hkind Hpub Hgetter Hsetter Hij Hfun Hafter Hbefore Hid Honly Hset Hne.
  assert (Hbetween :
            symbolIsBetween (childSymbol sort this setter)
              (S p + offsetAt (document this) (start (range this)))
              (nextAccessSpecifierOffset this
                 (S p + offsetAt (document this) (start (range this)))) = true).
  { apply symbolIsBetween_child. now repeat split. }
  rewrite <- (childSymbol_id this setter) in Hid.
  unfold findPositionForNewMethod.
  rewrite (classOrStruct_test _ Hkind), Hpub. cbv zeta.
  set (pub := S p + offsetAt (document this) (start (range this))) in *.
  set (isBetween := fun child =>
         symbolIsBetween (childSymbol sort this child) pub
           (nextAccessSpecifierOffset this pub)).
  assert (Hj : j < length (children this)).
  { apply nth_error_Some. congruence. }
  destruct (searchDown_finds _ isBetween _ _ _ _ Hj Hsetter Hbetween)
    as (fi & fc & Ef & Hfi).
  rewrite Ef. destruct fi as [|fi]; [lia|].
  destruct relativeName as [|c0 rel]; [contradiction|].
  assert (Hj' : j < S (S fi)) by lia.
  destruct (searchDown_finds _
              (fun child =>
                 isBetween child
                 && str_eqb (id (childSymbol sort this child)) (c0 :: rel))
              _ _ _ _ Hj' Hsetter) as (k & c & Ek & Hk).
  { unfold isBetween at 1. rewrite Hbetween, Hid. apply str_eqb_refl. }
  destruct (searchDown_some _ _ _ _ _ _ Ek) as (_ & Hc & Hp & _).
  unfold isBetween in Ek. cbv beta in Ek. rewrite Ek.
  apply andb_true_iff in Hp as [_ Hp]. apply str_eqb_eq in Hp.
  rewrite childSymbol_id in Hp.
  pose proof (Honly k c Hc Hp) as ->.
  assert (c = setter) as -> by congruence.
  rewrite Hset, str_eqb_refl.
  now destruct (childSymbol_fields this setter) as (_ & -> & _).
Qed.

End MethodPosition.

Section PublicSection.

Variable sort : forall A : Type, (A -> A -> Z) -> list A -> list A.

Lemma nextAccessSpecifierOffset_end_of_symbol (this : CSymbol) (pub : nat) :
  (forall m, In m (matchAll re_label (CSymbol_text this)) -> fst m <= pub) ->
  nextAccessSpecifierOffset this pub = offsetAt (document this) (end_ (range this)).
Proof.
  intros H. unfold nextAccessSpecifierOffset.
  destruct (find _ _) as [m|] eqn:E; [|reflexivity].
  apply find_some in E as [Hin Hm]. apply andb_true_iff in Hm as [_ Hm].
  apply Nat.ltb_lt in Hm. specialize (H m Hin). lia.
Qed.

Lemma nextAccessSpecifierOffset_at_offset_0 (this : CSymbol) (pub : nat) :
  offsetAt (document this) (start (range this)) = 0 ->
  nextAccessSpecifierOffset this pub =
  match find (fun m => pub <? fst m) (matchAll re_label (CSymbol_text this)) with
  | Some m => fst m
  | None => offsetAt (document this) (end_ (range this))
  end.
Proof.
  intros H0. unfold nextAccessSpecifierOffset. rewrite H0.
  assert (E : forall l : list (nat * nat),
             find (fun m => negb (fst m =? 0) && (pub <? fst m)) l
             = find (fun m => pub <? fst m) l).
  { induction l as [|m l IH]; [reflexivity|]. cbn [find]. rewrite IH.
    destruct (pub <? fst m) eqn:Em; [|now rewrite andb_false_r].
    apply Nat.ltb_lt in Em. destruct (fst m =? 0) eqn:Ez; [|reflexivity].
    apply Nat.eqb_eq in Ez. lia. }
  rewrite E. destruct (find _ _); [|reflexivity]. lia.
Qed.

(** C5, as the code has it. The [public:] token is the first one in the raw
    text of the symbol, comments and strings included, and so is the
    label-like token that ends the section. A proposed position that is not
    the fall-back after the last child is anchored at a function child whose
    range lies strictly between the offset of that [public:] and the end of
    the section. The section ends at the end of the symbol when no
    label-like token of the raw text lies after the [public:] token; and
    for a symbol that starts at offset 0 of the document, it ends at the
    first such token. *)
Theorem findPositionForNewMethod_public_section_of_raw_text
    (this : CSymbol) (relativeName : option str) (memberVariable : option CSymbol)
    (r : ProposedPosition) :
  classOrStruct this ->
  findPositionForNewMethod sort this relativeName memberVariable = Some r ->
  (Some r = lastChildPositionOrUndefined this
   \/ exists p e child,
        exec re_public (getText (document this) (range this)) 0 = Some (p, e)
        /\ In child (children this)
        /\ isFunction child = true
        /\ p + offsetAt (document this) (start (range this))
           < offsetAt (document this) (start (range child))
        /\ offsetAt (document this) (end_ (range child))
           < nextAccessSpecifierOffset this
               (p + offsetAt (document this) (start (range this)))
        /\ anchoredAt r child)
  /\ (forall p e,
        exec re_public (getText (document this) (range this)) 0 = Some (p, e) ->
        (forall m, In m (matchAll re_label (getText (document this) (range this))) ->
                   fst m <= p) ->
        nextAccessSpecifierOffset this
          (p + offsetAt (document this) (start (range this)))
        = offsetAt (document this) (end_ (range this)))
  /\ (forall p,
        offsetAt (document this) (start (range this)) = 0 ->
        nextAccessSpecifierOffset this p =
        match find (fun m => p <? fst m)
                (matchAll re_label (getText (document this) (range this))) with
        | Some m => fst m
        | None => offsetAt (document this) (end_ (range this))
        end).
Proof.
  intros Hkind Hr. split; [|split].
  - unfold findPositionForNewMethod in Hr.
    rewrite (classOrStruct_test _ Hkind) in Hr. unfold publicSpecifierIndex in Hr.
    fold (CSymbol_text this).
    destruct (exec re_public (CSymbol_text this) 0) as [[p e]|] eqn:Epub;
      cbn [option_map fst] in Hr; [|now left].
    destruct p as [|p]; [now left|]. cbv zeta in Hr.
    set (pub := S p + offsetAt (document this) (start (range this))) in *.
    set (isBetween := fun child =>
           symbolIsBetween (childSymbol sort this child) pub
             (nextAccessSpecifierOffset this pub)) in *.
    destruct (searchDown isBetween (children this) (length (children this)))
      as [[fi fc]|] eqn:Ef; [|now left].
    destruct fi as [|fi]; [now left|].
    destruct (searchDown_some _ _ _ _ _ _ Ef) as (_ & Hfc & Hbf & _).
    apply symbolIsBetween_child in Hbf as (Hfun & Hafter & Hbefore).
    assert (Hfallback :
              r = mkProposedPosition (end_ (range (childSymbol sort this fc)))
                    None (Some true) None ->
              exists p0 e0 child,
                Some (S p, e) = Some (p0, e0)
                /\ In child (children this)
                /\ isFunction child = true
                /\ p0 + offsetAt (document this) (start (range this))
                   < offsetAt (document this) (start (range child))
                /\ offsetAt (document this) (end_ (range child))
                   < nextAccessSpecifierOffset this
                       (p0 + offsetAt (document this) (start (range this)))
                /\ anchoredAt r child).
    { intros ->. exists (S p), e, fc. repeat split; try assumption.
      - apply (nth_error_In _ _ Hfc).
      - left. now destruct (childSymbol_fields sort this fc) as (_ & -> & _). }
    destruct relativeName as [[|c0 rel]|];
      [right; apply Hfallback; congruence| |right; apply Hfallback; congruence].
    destruct (searchDown _ (children this) (S (S fi))) as [[k c]|] eqn:Ek;
      [|right; apply Hfallback; congruence].
    destruct (searchDown_some _ _ _ _ _ _ Ek) as (_ & Hc & Hbc & _).
    apply andb_true_iff in Hbc as [Hbc _].
    apply symbolIsBetween_child in Hbc as (Hcfun & Hcafter & Hcbefore).
    right. exists (S p), e, c. repeat split; try assumption.
    + apply (nth_error_In _ _ Hc).
    + destruct (childSymbol_fields sort this c) as (_ & Erange & _).
      rewrite Erange in Hr. unfold anchoredAt.
      destruct (match memberVariable with
                | Some mv => str_eqb (c0 :: rel) (setterName mv)
                | None => false
                end); injection Hr as <-; tauto.
  - intros p e _ Hnone. apply nextAccessSpecifierOffset_end_of_symbol.
    intros m Hm. specialize (Hnone m Hm). lia.
  - intros p H0. now apply nextAccessSpecifierOffset_at_offset_0.
Qed.

End PublicSection.

Lemma classA_children : children classA = [classA_getX; classA_setX; classA_x].
Proof. reflexivity. Qed.

Lemma findPositionForNewMethod_getter_before_setter_witness :
  findPositionForNewMethod insertionSort classA (Some (units "setX")) (Some classA_x)
  = Some (mkProposedPosition (mkPosition 3 2) (Some true) None (Some true)).
Proof.
  apply (findPositionForNewMethod_getter_before_setter insertionSort classA
           (units "setX") classA_x 9 0 1 classA_getX classA_setX).
  - left. reflexivity.
  - vm_compute. reflexivity.
  - reflexivity.
  - reflexivity.
  - lia.
  - reflexivity.
  - vm_compute. lia.
  - vm_compute. lia.
  - vm_compute. reflexivity.
  - intros k c Hc Hidc. rewrite classA_children in Hc.
    destruct k as [|[|[|k]]]; cbn [nth_error] in Hc.
    + injection Hc as <-. vm_compute in Hidc. discriminate Hidc.
    + reflexivity.
    + injection Hc as <-. vm_compute in Hidc. discriminate Hidc.
    + destruct k; discriminate Hc.
  - vm_compute. reflexivity.
  - discriminate.
Defined.

(** C8 as the spec states it fails: the public section of class [E] holds
    [getX()] and then [setX(int)], but the body of [getX] holds a
    conditional expression, and its [x :] (offset 48) is taken for the token
    that ends the section. The range of [getX] (offsets 20 to 56) does not
    end before it and the range of [setX] (59 to 73) starts after it: no
    function lies in the section, and the position proposed is the one after
    the last child, the private [x], and not the start of [setX], (3,2). *)
Lemma findPositionForNewMethod_section_ended_by_a_conditional :
  map id (children classE) = [units "getX"; units "setX"; units "x"]
  /\ nth_error (children classE) 1 = Some classE_setX
  /\ map isFunction (children classE) = [true; true; false]
  /\ publicSpecifierIndex classE = Some 10
  /\ map fst (matchAll re_label (CSymbol_text classE)) = [10; 48; 75]
  /\ nextAccessSpecifierOffset classE 10 = 48
  /\ map (fun c => (offsetAt doc_classE (start (range c)),
                    offsetAt doc_classE (end_ (range c)))) (children classE)
     = [(20, 56); (59, 73); (86, 91)]
  /\ setterName classE_x = units "setX"
  /\ start (range classE_setX) = mkPosition 3 2
  /\ findPositionForNewMethod insertionSort classE (Some (units "setX"))
       (Some classE_x)
     = Some (mkProposedPosition (mkPosition 5 7) None (Some true) None).
Proof. repeat split; vm_compute; reflexivity. Qed.

Lemma findPositionForNewMethod_public_section_witness :
  exists p e child,
    exec re_public (getText (document classA) (range classA)) 0 = Some (p, e)
    /\ In child (children classA)
    /\ isFunction child = true
    /\ anchoredAt (mkProposedPosition (mkPosition 3 2) (Some true) None (Some true))
         child.
Proof.
  assert (Hk : classOrStruct classA) by (left; reflexivity).
  assert (Hr : findPositionForNewMethod insertionSort classA (Some (units "setX"))
                 (Some classA_x)
               = Some (mkProposedPosition (mkPosition 3 2) (Some true) None
                         (Some true)))
    by (vm_compute; reflexivity).
  destruct (proj1 (findPositionForNewMethod_public_section_of_raw_text
                     insertionSort classA (Some (units "setX")) (Some classA_x)
                     _ Hk Hr))
    as [H | (p & e & child & H1 & H2 & H3 & _ & _ & H6)].
  - vm_compute in H. discriminate H.
  - exists p, e, child. auto.
Defined.

(** C5 as the spec states it fails: the [public:] that is located is the
    one inside the comment (offset 15), which the masked text does not have
    (its first [public:] is at offset 62); the section then ends at the real
    [public:], and the new method is placed after [secret()], a private
    function that ends (offset 60) before the public section begins. *)
Lemma findPositionForNewMethod_matches_public_in_comment :
  publicSpecifierIndex classB = Some 15
  /\ option_map fst (exec re_public (maskUnimportantText (CSymbol_text classB)) 0)
     = Some 62
  /\ findPositionForNewMethod insertionSort classB None None
     = Some (mkProposedPosition (mkPosition 3 15) None (Some true) None)
  /\ offsetAt doc_classB (mkPosition 3 15) = 60.
Proof. repeat split; vm_compute; reflexivity. Qed.

(** The end of the section when the symbol does not start the document: the
    index of a later token within the symbol (32 for [private:]) is compared
    with the offset of [public:] in the document (42), so the token is
    passed over, the section runs to the end of the symbol (offset 90), and
    the position proposed is after [secret()]. *)
Lemma findPositionForNewMethod_passes_over_later_specifier :
  publicSpecifierIndex classC = Some 10
  /\ offsetAt doc_classC (start (range classC)) = 32
  /\ map fst (matchAll re_label (CSymbol_text classC)) = [10; 32]
  /\ nextAccessSpecifierOffset classC (10 + 32) = 90
  /\ findPositionForNewMethod insertionSort classC None None
     = Some (mkProposedPosition (mkPosition 7 14) None (Some true) None).
Proof. repeat split; vm_compute; reflexivity. Qed.

(* ------------------------------------------------------------------ *)
(** ** The siblings of a declaration, all of them *)

Lemma splitSiblings_concat ref (l : list SourceSymbol) :
  forall hit,
    fst (splitSiblings ref l hit) ++ snd (splitSiblings ref l hit)
    = filter (otherRange ref) l
    /\ (hit = true -> fst (splitSiblings ref l hit) = []).
Proof.
  induction l as [|s l IH]; intros hit; simpl.
  - now split.
  - unfold otherRange at 1.
    destruct (s_rangeRef s =? ref) eqn:E; simpl.
    + destruct (IH true) as [H1 H2]. split; [exact H1|intros _; now apply H2].
    + destruct (IH hit) as [H1 H2].
      destruct (splitSiblings ref l hit) as [b a] eqn:Es. simpl in *.
      destruct hit; simpl.
      * rewrite (H2 eq_refl) in *. simpl in *. split; [now rewrite H1|reflexivity].
      * split; [now rewrite H1|discriminate].
Qed.

(** X1. The split of [findPositionForNewDefinition] loses no sibling: the
    symbols before the declaration followed by the symbols after it are the
    siblings in their order, without those that hold the Range object of the
    declaration. *)
Theorem splitSiblings_keeps_the_other_siblings
    (declarationRangeRef : nat) (siblingSymbols : list SourceSymbol) :
  fst (splitSiblings declarationRangeRef siblingSymbols false)
  ++ snd (splitSiblings declarationRangeRef siblingSymbols false)
  = filter (otherRange declarationRangeRef) siblingSymbols.
Proof. apply splitSiblings_concat. Qed.

(* ------------------------------------------------------------------ *)
(** ** What a definition query never answers *)

(** X2. A location that [findDefinitionInWorkspace] returns is one of the
    provider's candidates; when it lies in the file of the query, its range
    does not contain the queried position (the symbol is never its own
    definition); when it lies in another file, a workspace is open and the
    path of one of its folders occurs in the path of the location. *)
Theorem findDefinitionInWorkspace_result_is_acceptable
    (host : Host) (position : Position) (uri : Uri) (l : Location) :
  findDefinitionInWorkspace host position uri = Some l ->
  (exists results,
      definitionProvider host uri position = Some results
      /\ In l (map locationOf results))
  /\ (path (loc_uri l) = path uri -> contains (loc_range l) position = false)
  /\ (path (loc_uri l) <> path uri ->
      exists folders folder,
        workspaceFolders host = Some folders /\ In folder folders
        /\ includes (path (loc_uri l)) (path folder) = true).
Proof.
  unfold findDefinitionInWorkspace.
  destruct (definitionProvider host uri position) as [results|]; [|discriminate].
  rewrite selectDefinition_find. intros H.
  apply find_some in H. destruct H as [Hin Hok].
  split; [exists results; now split|].
  apply orb_true_iff in Hok.
  unfold sameFileElsewhere, otherFileInWorkspace in Hok.
  split.
  - intros Hp. destruct Hok as [Hs|Ho].
    + apply andb_true_iff in Hs. destruct Hs as [_ Hs].
      now apply negb_true_iff in Hs.
    + apply andb_true_iff in Ho. destruct Ho as [Ho _].
      apply negb_true_iff, str_eqb_neq in Ho. contradiction.
  - intros Hp. destruct Hok as [Hs|Ho].
    + apply andb_true_iff in Hs. destruct Hs as [Hs _].
      apply str_eqb_eq in Hs. contradiction.
    + apply andb_true_iff in Ho. destruct Ho as [_ Ho].
      destruct (workspaceFolders host) as [folders|]; [|discriminate].
      apply existsb_exists in Ho. destruct Ho as [folder [Hf Hi]].
      now exists folders, folder.
Qed.

Lemma findDefinitionInWorkspace_result_witness :
  (exists results,
      definitionProvider host_two_candidates (file_uri "/ws/a.h") (mkPosition 3 5)
      = Some results
      /\ In (mkLocation (file_uri "/ws/a.cpp") (span 10 0 12 1))
            (map locationOf results))
  /\ (path (file_uri "/ws/a.cpp") = path (file_uri "/ws/a.h") ->
      contains (span 10 0 12 1) (mkPosition 3 5) = false)
  /\ (path (file_uri "/ws/a.cpp") <> path (file_uri "/ws/a.h") ->
      exists folders folder,
        workspaceFolders host_two_candidates = Some folders /\ In folder folders
        /\ includes (path (file_uri "/ws/a.cpp")) (path folder) = true).
Proof.
  apply (findDefinitionInWorkspace_result_is_acceptable host_two_candidates
           (mkPosition 3 5) (file_uri "/ws/a.h")
           (mkLocation (file_uri "/ws/a.cpp") (span 10 0 12 1))).
  reflexivity.
Defined.

(* ------------------------------------------------------------------ *)
(** ** The symbol at a position *)

Lemma Reaches_skip position s l r :
  contains (s_range s) position = false ->
  Reaches position l r -> Reaches position (s :: l) r.
Proof.
  intros Hs H. inversion H as [pre x post Hpre Hx|pre p post x Hpre Hp Hc]; subst.
  - apply (reaches_here position (s :: pre)); [now constructor|assumption].
  - apply (reaches_below position (s :: pre)); [now constructor|assumption..].
Qed.

Lemma searchSymbolTree_sound_level position (l : list SourceSymbol) :
  Forall (fun s => forall r, searchSymbolTree position (s_children s) = Some r ->
                             Reaches position (s_children s) r) l ->
  forall r, searchSymbolTree position l = Some r -> Reaches position l r.
Proof.
  induction 1 as [|s l Hs _ IH]; intros r; [discriminate|].
  rewrite searchSymbolTree_cons.
  destruct (contains (s_range s) position) eqn:Ec; simpl.
  - destruct (s_children s) as [|c cs] eqn:Ech.
    + intros [= <-]. now apply (reaches_here position []).
    + intros Hr. apply (reaches_below position [] s l r); [constructor|assumption|].
      rewrite Ech. now apply Hs.
  - intros Hr. apply Reaches_skip; [assumption|now apply IH].
Qed.

Lemma searchSymbolTree_sound position (l : list SourceSymbol) r :
  searchSymbolTree position l = Some r -> Reaches position l r.
Proof.
  apply searchSymbolTree_sound_level.
  apply Forall_forall. intros s _. revert s.
  apply (SourceSymbol_induction
           (fun s => forall r, searchSymbolTree position (s_children s) = Some r ->
                               Reaches position (s_children s) r)).
  intros s Hs. now apply searchSymbolTree_sound_level.
Qed.

Lemma Reaches_contains position l r :
  Reaches position l r -> contains (s_range r) position = true /\ Occurs l r.
Proof.
  induction 1 as [pre s post _ Hs|pre p post s _ Hp _ [IH1 IH2]].
  - split; [assumption|]. apply occurs_here. apply in_or_app. right. now left.
  - split; [assumption|]. apply (occurs_below _ p); [|assumption].
    apply in_or_app. right. now left.
Qed.

(** X3. The symbol that [getSymbol] returns is a symbol of the tree of the
    document, its range contains the position, and the search reached it
    through the first symbol of each level whose range contains the
    position. *)
Theorem getSymbol_returns_a_symbol_at_the_position
    (sort : forall A : Type, (A -> A -> Z) -> list A -> list A) (host : Host)
    (this : SourceDocument) (position : Position) (r : SourceSymbol) :
  getSymbol sort host this position = Some r ->
  Occurs (symbolsOf sort host this) r
  /\ contains (s_range r) position = true
  /\ Reaches position (symbolsOf sort host this) r.
Proof.
  intros H. apply searchSymbolTree_sound in H.
  destruct (Reaches_contains _ _ _ H) as [Hc Ho]. now repeat split.
Qed.

Lemma getSymbol_at_the_position_witness :
  Occurs (symbolsOf insertionSort host_silent sd_classA) (asSourceSymbol classA_getX)
  /\ contains (s_range (asSourceSymbol classA_getX)) (mkPosition 2 5) = true
  /\ Reaches (mkPosition 2 5) (symbolsOf insertionSort host_silent sd_classA)
       (asSourceSymbol classA_getX).
Proof.
  apply (getSymbol_returns_a_symbol_at_the_position insertionSort host_silent
           sd_classA (mkPosition 2 5) (asSourceSymbol classA_getX)).
  reflexivity.
Defined.

Lemma CSymbol_new_leaf
    (sort : forall A : Type, (A -> A -> Z) -> list A -> list A)
    (s : SourceSymbol) (doc : TextDocument) :
  s_children s = [] -> children (CSymbol_new sort s doc) = [].
Proof.
  intros E. unfold CSymbol_new. rewrite s_height_eq, E. reflexivity.
Qed.

(** X4. The [CSymbol] that [SourceDocument.getSymbol] returns is made of the
    symbol that [SourceFile.getSymbol] finds: it has no children, its range
    contains the position, it holds the Range object of that symbol, and it
    lies in the document. *)
Theorem getCSymbol_returns_a_leaf_at_the_position
    (sort : forall A : Type, (A -> A -> Z) -> list A -> list A) (host : Host)
    (this : SourceDocument) (position : Position) (c : CSymbol) :
  getCSymbol sort host this position = Some c ->
  children c = []
  /\ contains (range c) position = true
  /\ document c = sd_document this
  /\ uri c = sd_uri this
  /\ exists r,
       getSymbol sort host this position = Some r
       /\ Occurs (symbolsOf sort host this) r
       /\ name c = s_name r /\ kind c = s_kind r
       /\ range c = s_range r /\ rangeRef c = s_rangeRef r
       /\ selectionRange c = s_selectionRange r.
Proof.
  unfold getCSymbol.
  destruct (getSymbol sort host this position) as [r|] eqn:E; [|discriminate].
  intros [= <-].
  pose proof (searchSymbolTree_found _ _ _ E) as Hleaf.
  apply searchSymbolTree_sound, Reaches_contains in E. destruct E as [Hc Ho].
  destruct (buildCSymbol_fields sort (s_height r) r (sd_document this))
    as [Hk [Hr [Hs Hd]]].
  unfold CSymbol_new at 2 3 4 5 6 7 8 9.
  split; [now apply CSymbol_new_leaf|].
  split; [now rewrite Hr|]. split; [assumption|].
  split; [now destruct (s_height r)|].
  exists r. split; [reflexivity|]. split; [assumption|].
  split; [now destruct (s_height r); cbn; destruct (s_height r)|].
  split; [assumption|]. split; [assumption|].
  split; [now destruct (s_height r); cbn; destruct (s_height r)|assumption].
Qed.

Lemma getCSymbol_returns_a_leaf_witness :
  children classA_getX = []
  /\ contains (range classA_getX) (mkPosition 2 5) = true
  /\ document classA_getX = sd_document sd_classA
  /\ uri classA_getX = sd_uri sd_classA
  /\ exists r,
       getSymbol insertionSort host_silent sd_classA (mkPosition 2 5) = Some r
       /\ Occurs (symbolsOf insertionSort host_silent sd_classA) r
       /\ name classA_getX = s_name r /\ kind classA_getX = s_kind r
       /\ range classA_getX = s_range r /\ rangeRef classA_getX = s_rangeRef r
       /\ selectionRange classA_getX = s_selectionRange r.
Proof.
  apply (getCSymbol_returns_a_leaf_at_the_position insertionSort host_silent
           sd_classA (mkPosition 2 5) classA_getX).
  reflexivity.
Defined.

(* ------------------------------------------------------------------ *)
(** ** Matching symbols *)

Lemma matchBelow_eq targetName (s : SourceSymbol) :
  matchBelow targetName s =
  if str_eqb (s_name s) targetName then Some s
  else matchSymbolTree targetName (s_children s).
Proof. destruct s as [n d k r rr sr u cs]. simpl. now destruct cs. Qed.

Lemma matchSymbolTree_sound_level targetName (l : list SourceSymbol) :
  Forall (fun s => forall r, matchSymbolTree targetName (s_children s) = Some r ->
                             s_name r = targetName /\ FirstChain (s_children s) r) l ->
  forall r, matchSymbolTree targetName l = Some r ->
            s_name r = targetName /\ FirstChain l r.
Proof.
  intros H r. destruct H as [|s l Hs _]; [discriminate|].
  simpl. rewrite matchBelow_eq.
  destruct (str_eqb (s_name s) targetName) eqn:E.
  - intros [= <-]. apply str_eqb_eq in E. split; [assumption|constructor].
  - intros Hr. destruct (Hs r Hr) as [Hn Hc]. split; [assumption|].
    now apply first_below.
Qed.

Lemma matchSymbolTree_sound targetName (l : list SourceSymbol) r :
  matchSymbolTree targetName l = Some r -> s_name r = targetName /\ FirstChain l r.
Proof.
  apply matchSymbolTree_sound_level.
  apply Forall_forall. intros s _. revert s.
  apply (SourceSymbol_induction
           (fun s => forall r, matchSymbolTree targetName (s_children s) = Some r ->
                               s_name r = targetName /\ FirstChain (s_children s) r)).
  intros s Hs. now apply matchSymbolTree_sound_level.
Qed.

Lemma matchSymbolTree_complete targetName (l : list SourceSymbol) r :
  FirstChain l r -> s_name r = targetName ->
  exists r', matchSymbolTree targetName l = Some r'.
Proof.
  induction 1 as [s rest|s rest r _ IH]; intros Hn; simpl; rewrite matchBelow_eq.
  - subst. rewrite str_eqb_refl. now exists s.
  - destruct (str_eqb (s_name s) targetName); [now exists s|now apply IH].
Qed.

(** X5. [findMatchingSymbol] looks at the first symbol of the file, at the
    first child of that one, and so on, and at no other symbol: what it
    returns has the name of the target and lies on that chain; it returns a
    symbol as soon as the chain holds one of that name; and the symbols
    after the first one of the file never change the result. *)
Theorem findMatchingSymbol_follows_the_first_symbols
    (sort : forall A : Type, (A -> A -> Z) -> list A -> list A) (host : Host)
    (this : SourceDocument) (target : DocumentSymbol) :
  (forall r, findMatchingSymbol sort host this target = Some r ->
             s_name r = d_name target /\ FirstChain (symbolsOf sort host this) r)
  /\ (forall r, FirstChain (symbolsOf sort host this) r ->
                s_name r = d_name target ->
                exists r', findMatchingSymbol sort host this target = Some r')
  /\ (forall first rest,
        symbolsOf sort host this = first :: rest ->
        findMatchingSymbol sort host this target
        = findMatchingSymbol sort host
            (mkSourceDocument (sd_document this) (Some [first])) target).
Proof.
  unfold findMatchingSymbol. repeat split.
  - now apply matchSymbolTree_sound in H.
  - now apply matchSymbolTree_sound in H.
  - intros r. apply matchSymbolTree_complete.
  - intros first rest E. now rewrite E.
Qed.

(* ------------------------------------------------------------------ *)
(** ** The position of a new method, whatever the symbol *)

Lemma lastChildPositionOrUndefined_none (this : CSymbol) :
  lastChildPositionOrUndefined this = None <-> children this = [].
Proof.
  unfold lastChildPositionOrUndefined.
  destruct (children this) as [|c cs] eqn:E; simpl; [tauto|].
  destruct (nth_error (c :: cs) (length cs - 0)) eqn:En.
  - split; discriminate.
  - apply nth_error_None in En. simpl in En. lia.
Qed.

Lemma lastChildPositionOrUndefined_some (this : CSymbol) r :
  lastChildPositionOrUndefined this = Some r ->
  exists child, In child (children this) /\ anchoredAt r child.
Proof.
  unfold lastChildPositionOrUndefined.
  destruct (nth_error (children this) (length (children this) - 1)) as [child|] eqn:E;
    [|discriminate].
  intros [= <-]. exists child. split; [now apply nth_error_In in E|now left].
Qed.

Section AnyPosition.

Variable sort : forall A : Type, (A -> A -> Z) -> list A -> list A.

Lemma findPositionForNewMethod_cases (this : CSymbol) (relativeName : option str)
    (memberVariable : option CSymbol) :
  findPositionForNewMethod sort this relativeName memberVariable
  = lastChildPositionOrUndefined this
  \/ exists r child,
       findPositionForNewMethod sort this relativeName memberVariable = Some r
       /\ In child (children this) /\ anchoredAt r child.
Proof.
  unfold findPositionForNewMethod.
  destruct (negb (kind_eqb (kind this) Class) && negb (kind_eqb (kind this) Struct));
    [now left|].
  destruct (publicSpecifierIndex this) as [[|p]|]; [now left| |now left].
  set (pub := S p + offsetAt (document this) (start (range this))).
  set (isBetween := fun child : CSymbol =>
         symbolIsBetween (childSymbol sort this child) pub
           (nextAccessSpecifierOffset this pub)).
  destruct (searchDown isBetween (children this) (length (children this)))
    as [[[|i] fallback]|] eqn:Ef; [now left| |now left].
  right.
  apply searchDown_some in Ef. destruct Ef as [_ [Hf _]].
  apply nth_error_In in Hf.
  destruct (childSymbol_fields sort this fallback) as [_ [Rf _]].
  assert (Hfallback : anchoredAt
            (mkProposedPosition (end_ (range (childSymbol sort this fallback)))
               None (Some true) None) fallback)
    by (left; now rewrite Rf).
  destruct relativeName as [[|c relativeName]|];
    [now eexists; exists fallback| |now eexists; exists fallback].
  match goal with
  | |- context [searchDown ?p ?l ?n] => destruct (searchDown p l n) as [[j child]|] eqn:Er
  end; [|now eexists; exists fallback].
  apply searchDown_some in Er. destruct Er as [_ [Hc _]].
  apply nth_error_In in Hc.
  destruct (childSymbol_fields sort this child) as [_ [Rc _]].
  match goal with
  | |- context [if ?b then _ else _] => destruct b
  end; eexists; exists child; (split; [reflexivity|split; [assumption|]]);
    rewrite Rc; [now right; right|now right; left].
Qed.

(** X6. Whatever the kind of the symbol, [findPositionForNewMethod] returns
    nothing exactly when the symbol has no children; and every position it
    proposes is anchored at one of the children: it is the end of the range
    of that child, to insert after it, or its start, to insert before it. *)
Theorem findPositionForNewMethod_anchored_at_a_child
    (this : CSymbol) (relativeName : option str) (memberVariable : option CSymbol) :
  (findPositionForNewMethod sort this relativeName memberVariable = None
   <-> children this = [])
  /\ (forall r,
        findPositionForNewMethod sort this relativeName memberVariable = Some r ->
        exists child, In child (children this) /\ anchoredAt r child).
Proof.
  destruct (findPositionForNewMethod_cases this relativeName memberVariable)
    as [E|[r [child [E [Hin Ha]]]]].
  - rewrite E. split; [apply lastChildPositionOrUndefined_none|].
    intros r. apply lastChildPositionOrUndefined_some.
  - rewrite E. split.
    + split; [discriminate|]. intros Hnil. rewrite Hnil in Hin. contradiction.
    + intros r' [= <-]. now exists child.
Qed.

(** X7. The test [!fallbackIndex] of line 328 takes the index 0 for no
    index: when no child after the first one is a function that lies in the
    public section as the code bounds it, [findPositionForNewMethod] gives
    what it gives without a public function, the position after the last
    child, whatever section that child is in and whatever the relative name
    is, even if the first child is a function of the public section. (With
    a function of the section after the first child, the loop of line 338
    goes down to index 0 and can propose a position next to the first
    child.) *)
Theorem findPositionForNewMethod_passes_over_the_first_child
    (this : CSymbol) (relativeName : option str) (memberVariable : option CSymbol) :
  (forall p k child,
      publicSpecifierIndex this = Some (S p) ->
      0 < k -> nth_error (children this) k = Some child ->
      symbolIsBetween (childSymbol sort this child)
        (S p + offsetAt (document this) (start (range this)))
        (nextAccessSpecifierOffset this
           (S p + offsetAt (document this) (start (range this))))
      = false) ->
  findPositionForNewMethod sort this relativeName memberVariable
  = lastChildPositionOrUndefined this.
Proof.
  intros Hnone. unfold findPositionForNewMethod.
  destruct (negb (kind_eqb (kind this) Class) && negb (kind_eqb (kind this) Struct));
    [reflexivity|].
  destruct (publicSpecifierIndex this) as [[|p]|] eqn:Ep; try reflexivity.
  match goal with
  | |- context [searchDown ?f ?l ?n] => destruct (searchDown f l n) as [[[|i] c]|] eqn:Ef
  end; try reflexivity.
  exfalso. apply searchDown_some in Ef. destruct Ef as [_ [Hn [Hb _]]].
  rewrite (Hnone p (S i) c eq_refl (Nat.lt_0_succ i) Hn) in Hb. discriminate.
Qed.

End AnyPosition.

(** In class [D] the public method [getX] is the first child: the new method
    goes after the private member [x]. *)
Lemma findPositionForNewMethod_passes_over_the_first_child_witness :
  findPositionForNewMethod insertionSort classD None None
  = lastChildPositionOrUndefined classD
  /\ lastChildPositionOrUndefined classD
     = Some (mkProposedPosition (mkPosition 4 7) None (Some true) None)
  /\ nth_error (children classD) 0 = Some classD_getX
  /\ symbolIsBetween (childSymbol insertionSort classD classD_getX) 10 32 = true
  /\ publicSpecifierIndex classD = Some 10
  /\ nextAccessSpecifierOffset classD 10 = 32.
Proof.
  split; [|repeat split; reflexivity].
  apply (findPositionForNewMethod_passes_over_the_first_child insertionSort classD
           None None).
  intros p k child Hp Hk Hn.
  vm_compute in Hp. injection Hp as <-.
  destruct k as [|[|[|k]]]; [lia| | |]; vm_compute in Hn; try discriminate Hn.
  injection Hn as <-. reflexivity.
Defined.

(* ------------------------------------------------------------------ *)
(** ** The two accessor names of a member *)

Lemma getterName_setterName_differ (this : CSymbol) :
  isMemberVariable this = true -> getterName this <> setterName this.
Proof.
  intros Hm. rewrite (getterName_unfold this Hm), (setterName_unfold this Hm).
  destruct (str_eqb (baseName this) (id this)).
  - simpl. discriminate.
  - intros E. apply (f_equal (@length N)) in E.
    rewrite length_app, firstCharToUpper_length in E. simpl in E. lia.
Qed.

(** X8. The getter and the setter of a member variable never have the same
    name. *)
Theorem getterName_differs_from_setterName (this : CSymbol) :
  isMemberVariable this = true -> getterName this <> setterName this.
Proof. apply getterName_setterName_differ. Qed.

Lemma getterName_differs_from_setterName_witness :
  getterName sym_m_count <> setterName sym_m_count.
Proof. apply (getterName_differs_from_setterName sym_m_count). reflexivity. Defined.

(** X9. [findGetterFor] and [findSetterFor] return a child of the symbol
    whose identifier is the name of the getter, or of the setter, of the
    member, and only for a member variable whose parent is the symbol
    itself; the getter and the setter found for one member are never the
    same child. *)
Theorem findGetterFor_and_findSetterFor_find_two_children
    (this memberVariable : CSymbol) (parentIsThis : bool) :
  (forall g, findGetterFor this memberVariable parentIsThis = Some g ->
             In g (children this) /\ id g = getterName memberVariable
             /\ parentIsThis = true /\ isMemberVariable memberVariable = true)
  /\ (forall s, findSetterFor this memberVariable parentIsThis = Some s ->
                In s (children this) /\ id s = setterName memberVariable
                /\ parentIsThis = true /\ isMemberVariable memberVariable = true)
  /\ (forall g s,
        findGetterFor this memberVariable parentIsThis = Some g ->
        findSetterFor this memberVariable parentIsThis = Some s ->
        g <> s).
Proof.
  assert (Hg : forall g, findGetterFor this memberVariable parentIsThis = Some g ->
             In g (children this) /\ id g = getterName memberVariable
             /\ parentIsThis = true /\ isMemberVariable memberVariable = true).
  { unfold findGetterFor, findChild. intros g.
    destruct parentIsThis; [|discriminate].
    destruct (isMemberVariable memberVariable); [|discriminate].
    cbn [negb orb]. intros H. apply find_some in H. destruct H as [Hin Hid].
    apply str_eqb_eq in Hid. now repeat split. }
  assert (Hs : forall s, findSetterFor this memberVariable parentIsThis = Some s ->
             In s (children this) /\ id s = setterName memberVariable
             /\ parentIsThis = true /\ isMemberVariable memberVariable = true).
  { unfold findSetterFor, findChild. intros s.
    destruct parentIsThis; [|discriminate].
    destruct (isMemberVariable memberVariable); [|discriminate].
    cbn [negb orb]. intros H. apply find_some in H. destruct H as [Hin Hid].
    apply str_eqb_eq in Hid. now repeat split. }
  split; [assumption|]. split; [assumption|].
  intros g s HG HS E. subst s.
  destruct (Hg g HG) as [_ [E1 [_ Hm]]]. destruct (Hs g HS) as [_ [E2 _]].
  apply (getterName_setterName_differ memberVariable Hm). congruence.
Qed.

(* ------------------------------------------------------------------ *)
(** ** Constructors and destructors *)

(** X10. Only functions are constructors or destructors, and a symbol of
    kind Method is never both: its identifier cannot be the identifier of
    its parent and that identifier after a tilde. *)
Theorem isConstructor_isDestructor_of_a_method
    (this : CSymbol) (parent : option CSymbol) :
  (isConstructor this parent = true -> isFunction this = true)
  /\ (isDestructor this parent = true -> isFunction this = true)
  /\ (kind this = Method ->
      isConstructor this parent = true -> isDestructor this parent = false).
Proof.
  unfold isConstructor, isDestructor, isFunction. repeat split.
  - destruct (kind this); congruence.
  - destruct (kind this); congruence.
  - intros Hk. rewrite Hk. destruct parent as [p|]; [|discriminate].
    intros E. apply str_eqb_eq in E. apply str_eqb_neq. simpl. rewrite E.
    intros E'. apply (f_equal (@length N)) in E'. simpl in E'. lia.
Qed.

(* ------------------------------------------------------------------ *)
(** ** The end of a statement *)

Lemma getText_unit (doc : TextDocument) (p : Position) :
  getText doc (newRange p (translate p 0 1))
  = match nth_error (lineText doc (line p)) (character p) with
    | Some c => [c]
    | None => []
    end.
Proof.
  destruct p as [l c].
  unfold newRange, translate, isBefore. simpl.
  rewrite Nat.add_0_r, Nat.ltb_irrefl, Nat.eqb_refl. simpl.
  replace (c <? c + 1) with true by (symmetry; apply Nat.ltb_lt; lia).
  unfold getText, validateRange, validatePosition. simpl.
  destruct (lineCount doc <=? l) eqn:El; simpl.
  - unfold isBeforeOrEqual, isAfter, isBefore. simpl.
    rewrite Nat.ltb_irrefl, Nat.eqb_refl, Nat.ltb_irrefl. simpl.
    apply Nat.leb_le in El. unfold lineText, lineCount in *.
    rewrite (nth_overflow _ _ El). now destruct c.
  - set (t := lineText doc l).
    unfold isBeforeOrEqual, isAfter, isBefore. simpl.
    rewrite Nat.ltb_irrefl, Nat.eqb_refl. simpl.
    destruct (nth_error t c) as [x|] eqn:En.
    + assert (Hc : c < length t) by (apply nth_error_Some; congruence).
      rewrite (Nat.min_l c), (Nat.min_l (c + 1)) by lia.
      replace (c <? c + 1) with true by (symmetry; apply Nat.ltb_lt; lia).
      simpl. unfold substring. replace (c + 1 - c) with 1 by lia.
      rewrite <- (firstn_skipn c t) in En at 1.
      rewrite nth_error_app2 in En by (rewrite length_firstn; lia).
      rewrite length_firstn, Nat.min_l in En by lia.
      replace (c - c) with 0 in En by lia.
      destruct (skipn c t); simpl in *; congruence.
    + apply nth_error_None in En.
      rewrite (Nat.min_r c), (Nat.min_r (c + 1)) by lia.
      now rewrite Nat.ltb_irrefl.
Qed.

Lemma str_eqb_unit (x c : N) : str_eqb [x] [c] = N.eqb x c.
Proof. simpl. now rewrite andb_true_r. Qed.

Lemma skipn_nth_error (s : str) (c : nat) :
  skipn c s = match nth_error s c with
              | Some x => x :: skipn (S c) s
              | None => []
              end.
Proof.
  revert c. induction s as [|y s IH]; intros [|c]; simpl; try reflexivity.
  apply IH.
Qed.

Lemma skipSemicolons_spec (doc : TextDocument) (fuel : nat) :
  forall l c,
    length (lineText doc l) <= fuel + c ->
    skipSemicolons doc fuel (mkPosition l c)
    = mkPosition l (c + semicolons (skipn c (lineText doc l))).
Proof.
  induction fuel as [|fuel IH]; intros l c Hf.
  - simpl. rewrite skipn_all2 by (simpl in Hf; lia). simpl. now rewrite Nat.add_0_r.
  - cbn [skipSemicolons]. rewrite getText_unit. cbn [line character].
    rewrite (skipn_nth_error (lineText doc l) c).
    destruct (nth_error (lineText doc l) c) as [x|] eqn:En.
    + change (units ";") with [chr ";"].
      rewrite str_eqb_unit. cbn [semicolons].
      destruct (N.eqb x (chr ";")) eqn:Ex.
      * unfold translate. cbn [line character].
        rewrite Nat.add_0_r. replace (c + 1) with (S c) by lia.
        rewrite IH by lia. f_equal. lia.
      * now rewrite Nat.add_0_r.
    + simpl. now rewrite Nat.add_0_r.
Qed.

Lemma semicolons_spec (s : str) :
  (forall k, k < semicolons s -> nth_error s k = Some (chr ";"))
  /\ nth_error s (semicolons s) <> Some (chr ";").
Proof.
  induction s as [|x s [IH1 IH2]]; cbn [semicolons].
  - split; [intros k Hk; lia|discriminate].
  - destruct (N.eqb x (chr ";")) eqn:Ex.
    + apply N.eqb_eq in Ex. subst x. split.
      * intros [|k] Hk; [reflexivity|]. apply IH1. lia.
      * exact IH2.
    + split; [intros k Hk; lia|].
      simpl. intros [= E]. subst x. now rewrite N.eqb_refl in Ex.
Qed.

Lemma nth_error_skipn_add (s : str) (c k : nat) :
  nth_error (skipn c s) k = nth_error s (c + k).
Proof.
  revert c. induction s as [|x s IH]; intros [|c]; simpl; try reflexivity.
  - now destruct k.
  - apply IH.
Qed.

(** X11. [getEndOfStatement] stays on the line of the position and moves
    right over the semicolons that start at the position, all of them and
    nothing else: the units it passes are semicolons and the unit at the
    result is not one. A position outside the text of its line is returned
    as it is. The number of steps that the embedding allows the loop, the
    length of the line, is never what stops it: any larger number gives the
    same position. *)
Theorem getEndOfStatement_skips_the_semicolons
    (position : Position) (doc : TextDocument) :
  let text := lineText doc (line position) in
  let n := semicolons (skipn (character position) text) in
  getEndOfStatement position doc = translate position 0 n
  /\ (forall k, k < n -> nth_error text (character position + k) = Some (chr ";"))
  /\ nth_error text (character position + n) <> Some (chr ";")
  /\ (forall fuel, length text <= fuel ->
        skipSemicolons doc fuel position = getEndOfStatement position doc).
Proof.
  intros t n. destruct position as [l c]. cbn [line character] in *.
  unfold getEndOfStatement. cbn [line].
  rewrite skipSemicolons_spec by (fold t; lia). fold t. fold n.
  destruct (semicolons_spec (skipn c t)) as [H1 H2]. fold n in H1, H2.
  repeat split.
  - unfold translate. simpl. now rewrite Nat.add_0_r.
  - intros k Hk. rewrite <- nth_error_skipn_add. now apply H1.
  - rewrite <- nth_error_skipn_add. exact H2.
  - intros fuel Hf. rewrite skipSemicolons_spec by (fold t; lia). reflexivity.
Qed.

(* ------------------------------------------------------------------ *)
(** ** The matching file *)

Section MatchingFile.

Variable fileExtension : str -> str.
Variable fileNameBase : str -> str.
Variable directory : str -> str.
Variable compareDirectoryPaths : str -> str -> Z.
Variable headerExtensions : list str.
Variable sourceExtensions : list str.
Variable findFiles : str -> list Uri.

Lemma Closest_later diff uri rest u :
  (isFile uri = true -> (diff u < diff uri)%Z) ->
  Closest diff rest u -> Closest diff (uri :: rest) u.
Proof.
  intros Huri [pre [post [E [Hu [Hpre Hpost]]]]].
  exists (uri :: pre), post. subst rest. repeat split; try assumption.
  intros v [<-|Hv] Hf; [now apply Huri|now apply Hpre].
Qed.

Lemma closestFile_best (dir : str) (uris : list Uri) :
  let diff := fun uri => compareDirectoryPaths (directory (path uri)) dir in
  forall bestMatch smallestDiff,
    (closestFile directory compareDirectoryPaths dir uris bestMatch smallestDiff
     = bestMatch
     /\ forall v, In v uris -> isFile v = true ->
          match smallestDiff with
          | Some smallest => (smallest <= diff v)%Z
          | None => False
          end)
    \/ (exists u,
          closestFile directory compareDirectoryPaths dir uris bestMatch smallestDiff
          = Some u
          /\ Closest diff uris u
          /\ match smallestDiff with
             | Some smallest => (diff u < smallest)%Z
             | None => True
             end).
Proof.
  intros diff. induction uris as [|uri rest IH]; intros best sd.
  - left. split; [reflexivity|intros v []].
  - cbn [closestFile]. fold (isFile uri).
    destruct (isFile uri) eqn:Ef; cbn [negb].
    + fold (diff uri).
      destruct (match sd with
                | Some smallest => (diff uri <? smallest)%Z
                | None => true
                end) eqn:Ec.
      * right.
        assert (Hsd : match sd with
                      | Some smallest => (diff uri < smallest)%Z
                      | None => True
                      end)
          by (destruct sd; [now apply Z.ltb_lt|exact I]).
        destruct (IH (Some uri) (Some (diff uri))) as [[E H]|[u [E [Hc Hd]]]].
        -- exists uri. split; [assumption|]. split; [|assumption].
           exists [], rest. repeat split; [assumption|intros v []|assumption].
        -- exists u. split; [assumption|]. split.
           ++ apply Closest_later; [now intros _|assumption].
           ++ destruct sd; [lia|exact I].
      * destruct sd as [smallest|]; [|discriminate].
        apply Z.ltb_ge in Ec.
        destruct (IH best (Some smallest)) as [[E H]|[u [E [Hc Hd]]]].
        -- left. split; [assumption|]. intros v [<-|Hv] Hf; [assumption|now apply H].
        -- right. exists u. split; [assumption|]. split; [|assumption].
           apply Closest_later; [intros _; lia|assumption].
    + destruct (IH best sd) as [[E H]|[u [E [Hc Hd]]]].
      * left. split; [assumption|]. intros v [<-|Hv] Hf; [congruence|now apply H].
      * right. exists u. split; [assumption|]. split; [|assumption].
        apply Closest_later; [congruence|assumption].
Qed.

Lemma closestFile_is_BestMatch (dir : str) (uris : list Uri) :
  BestMatch (fun uri => compareDirectoryPaths (directory (path uri)) dir) uris
    (closestFile directory compareDirectoryPaths dir uris None None).
Proof.
  destruct (closestFile_best dir uris None None) as [[E H]|[u [E [Hc _]]]];
    rewrite E; simpl; [|assumption].
  intros v Hv. destruct (isFile v) eqn:Ef; [|reflexivity].
  now destruct (H v Hv Ef).
Qed.

(** X12. [findMatchingSourceFile] searches the source files of the same base
    name for a header and the header files for a source file, and nothing
    for a file of another extension. Among the files found it returns the
    one whose directory compares closest to the directory of the file, the
    first such one in the order of the search; files that are not of the
    scheme [file] are passed over, and nothing is returned when no other is
    found. *)
Theorem findMatchingSourceFile_returns_the_closest_file (name : str) :
  let diff := fun uri =>
    compareDirectoryPaths (directory (path uri)) (directory name) in
  let result :=
    findMatchingSourceFile fileExtension fileNameBase directory
      compareDirectoryPaths headerExtensions sourceExtensions findFiles name in
  (existsb (str_eqb (fileExtension name)) headerExtensions = true ->
   BestMatch diff (findFiles (globPattern (fileNameBase name) sourceExtensions)) result)
  /\ (existsb (str_eqb (fileExtension name)) headerExtensions = false ->
      existsb (str_eqb (fileExtension name)) sourceExtensions = true ->
      BestMatch diff (findFiles (globPattern (fileNameBase name) headerExtensions))
        result)
  /\ (existsb (str_eqb (fileExtension name)) headerExtensions = false ->
      existsb (str_eqb (fileExtension name)) sourceExtensions = false ->
      result = None).
Proof.
  intros diff result. unfold result, findMatchingSourceFile. repeat split.
  - intros ->. apply closestFile_is_BestMatch.
  - intros -> ->. apply closestFile_is_BestMatch.
  - now intros -> ->.
Qed.

End MatchingFile.

(* ------------------------------------------------------------------ *)
(** ** Where the searches over lines and symbols fail *)

Lemma lineAt_some (doc : TextDocument) (i : nat) :
  i < lineCount doc -> exists line, lineAt doc i = Some line.
Proof.
  intros Hi. unfold lineAt.
  destruct (nth_error (doc_lines doc) i) eqn:E; [eauto|].
  apply nth_error_None in E. unfold lineCount in Hi. lia.
Qed.

Lemma lineAt_none (doc : TextDocument) (i : nat) :
  lineCount doc <= i -> lineAt doc i = None.
Proof.
  intros Hi. unfold lineAt.
  destruct (nth_error (doc_lines doc) i) eqn:E; [|reflexivity].
  assert (i < length (doc_lines doc)) by (apply nth_error_Some; congruence).
  unfold lineCount in Hi. lia.
Qed.

Lemma lastTextLine_none (doc : TextDocument) (n : nat) :
  lastTextLine doc n = None <-> lineCount doc < n.
Proof.
  induction n as [|i IH]; simpl.
  - split; [discriminate|lia].
  - destruct (Nat.lt_ge_cases i (lineCount doc)) as [Hi|Hi].
    + destruct (lineAt_some doc i Hi) as [line ->].
      destruct (negb (isEmptyOrWhitespace line)).
      * split; [discriminate|lia].
      * rewrite IH. lia.
    + rewrite (lineAt_none doc i Hi). split; [lia|reflexivity].
Qed.

Section Failures.

Variable sort : forall A : Type, (A -> A -> Z) -> list A -> list A.
Variable host : Host.

Lemma relativeDefinition_some (this target : SourceDocument)
    (siblings : list SourceSymbol) (r : Range) :
  relativeDefinition sort host this target siblings = Some r ->
  symbolsOf sort host target <> [].
Proof.
  induction siblings as [|symbol rest IH]; simpl; [discriminate|].
  destruct (findDefinitionInWorkspace host (start (s_selectionRange symbol))
              (sd_uri this)) as [l|]; [|assumption].
  destruct (negb (str_eqb (path (loc_uri l)) (path (sd_uri target)))); [assumption|].
  unfold getCSymbol, getSymbol.
  destruct (symbolsOf sort host target) as [|s l']; [simpl; assumption|].
  intros _. discriminate.
Qed.

(** X13. [findPositionForNewDefinition] fails, on reading the range of the
    last symbol of an empty tree, exactly when the declaration belongs to
    this file, the early return for a top-level declaration of a file
    without symbols does not apply, and the tree of the target is empty and
    was cached before line 686 tests it: the target is another object whose
    tree is cached and empty, or it is this object itself, passed by the
    caller or taken for a missing target, and the tree that line 677 has
    cached in it is empty. In every other case it returns a position. *)
Theorem findPositionForNewDefinition_fails_on_a_cached_empty_tree
    (this : SourceDocument) (declaration : SourceSymbol)
    (parent : option SourceSymbol) (target : option TargetDocument) :
  findPositionForNewDefinition sort host this declaration parent target = None
  <-> (path (s_uri declaration) = path (sd_uri this)
       /\ (parent = None -> symbolsOf sort host this <> [])
       /\ match target with
          | Some (OtherDocument t) => symbols t = Some []
          | Some SameDocument | None => symbolsOf sort host this = []
          end).
Proof.
  unfold findPositionForNewDefinition.
  set (thisSymbols := symbolsOf sort host this).
  set (this' := mkSourceDocument (sd_document this) (Some thisSymbols)).
  change (sd_uri this') with (sd_uri this).
  destruct (str_eqb (path (s_uri declaration)) (path (sd_uri this))) eqn:Ep;
    cbn [negb orb].
  2:{ apply str_eqb_neq in Ep. split; [discriminate|]. intros [H _]. contradiction. }
  apply str_eqb_eq in Ep.
  assert (Hlen : forall l : list SourceSymbol, (length l =? 0) = true <-> l = []).
  { intros [|x l]; simpl; split; congruence. }
  destruct ((match parent with None => true | Some _ => false end)
            && (length thisSymbols =? 0)) eqn:Eearly.
  { apply andb_true_iff in Eearly. destruct Eearly as [Hp Hs]. apply Hlen in Hs.
    split; [discriminate|]. intros [_ [H _]].
    destruct parent; [discriminate|]. now destruct (H eq_refl). }
  assert (Hearly : parent = None -> thisSymbols <> []).
  { intros ->. simpl in Eearly. intros E. apply Hlen in E. congruence. }
  set (target' := match target with
                  | Some (OtherDocument t) => t
                  | Some SameDocument | None => this'
                  end).
  set (targetSymbols := symbolsOf sort host target').
  assert (Hcached : match symbols target' with
                    | None => length targetSymbols =? 0
                    | Some _ => false
                    end = false ->
                    (match target with
                     | Some (OtherDocument t) => symbols t = Some []
                     | Some SameDocument | None => thisSymbols = []
                     end <-> targetSymbols = [])).
  { intros Eempty. destruct target as [[|t]|]; subst targetSymbols target';
      simpl in *; try reflexivity.
    unfold symbolsOf in *. destruct (symbols t) as [cached|].
    - split; [now intros [= ->]|now intros ->].
    - split; [discriminate|]. intros E. rewrite E in Eempty. discriminate. }
  assert (Huncached : match symbols target' with
                      | None => length targetSymbols =? 0
                      | Some _ => false
                      end = true ->
                      ~ match target with
                        | Some (OtherDocument t) => symbols t = Some []
                        | Some SameDocument | None => thisSymbols = []
                        end).
  { intros Eempty H. destruct target as [[|t]|]; subst target'; simpl in Eempty;
      try discriminate.
    now rewrite H in Eempty. }
  destruct (match symbols target' with
            | None => length targetSymbols =? 0
            | Some _ => false
            end) eqn:Eempty.
  - (* the tree of the target was not cached and is empty *)
    specialize (Huncached eq_refl).
    destruct (lastTextLine (sd_document target') (lineCount (sd_document target')))
      as [[line|]|] eqn:El.
    + split; [discriminate|]. intros [_ [_ H]]. contradiction.
    + split; [discriminate|]. intros [_ [_ H]]. contradiction.
    + apply lastTextLine_none in El. lia.
  - specialize (Hcached eq_refl).
    set (target'' := mkSourceDocument (sd_document target') (Some targetSymbols)).
    destruct (splitSiblings (s_rangeRef declaration)
                match parent with
                | Some parent0 => s_children parent0
                | None => thisSymbols
                end false) as [before after].
    assert (Hsome : forall siblings r,
               relativeDefinition sort host this' target'' siblings = Some r ->
               targetSymbols <> [])
      by (intros siblings r H; exact (relativeDefinition_some _ _ _ _ H)).
    destruct (relativeDefinition sort host this' target'' (rev before)) eqn:Eb.
    { split; [discriminate|]. intros [_ [_ H]]. apply Hcached in H.
      now destruct (Hsome _ _ Eb). }
    destruct (relativeDefinition sort host this' target'' after) eqn:Ea.
    { split; [discriminate|]. intros [_ [_ H]]. apply Hcached in H.
      now destruct (Hsome _ _ Ea). }
    destruct (nth_error targetSymbols (length targetSymbols - 1)) eqn:En.
    + split; [discriminate|]. intros [_ [_ H]]. apply Hcached in H.
      rewrite H in En. discriminate.
    + split; [|reflexivity]. intros _. split; [assumption|]. split; [assumption|].
      apply Hcached. apply nth_error_None in En.
      destruct targetSymbols; [reflexivity|simpl in En; lia].
Qed.

End Failures.

(** The member [x] of the struct [P], for a document whose tree has not been
    asked for and a provider that gives nothing: with the document itself as
    target the call fails, with another object for the same document it
    proposes the end of the last line that is not blank. *)
Lemma findPositionForNewDefinition_fails_on_a_cached_empty_tree_witness :
  findPositionForNewDefinition insertionSort host_silent
    (mkSourceDocument doc_typedef None) typedef_x (Some typedef_P)
    (Some SameDocument)
  = None
  /\ findPositionForNewDefinition insertionSort host_silent
       (mkSourceDocument doc_typedef None) typedef_x (Some typedef_P)
       (Some (OtherDocument (mkSourceDocument doc_typedef None)))
     = Some (mkProposedPosition (mkPosition 0 30) None (Some true) None).
Proof.
  split.
  - apply (proj2 (findPositionForNewDefinition_fails_on_a_cached_empty_tree
                    insertionSort host_silent (mkSourceDocument doc_typedef None)
                    typedef_x (Some typedef_P) (Some SameDocument))).
    split; [reflexivity|]. split; [discriminate|reflexivity].
  - vm_compute. reflexivity.
Defined.

(* ------------------------------------------------------------------ *)
(** ** The positions of a new include *)

Lemma newRange_end (a b : Position) :
  end_ (newRange a b) = a \/ end_ (newRange a b) = b.
Proof. unfold newRange. destruct (isBefore a b); simpl; auto. Qed.

Lemma largestBlock_atLineStart (line : TextLine) (from : Position)
    (largest : option Range) :
  character (start (line_range line)) = 0 ->
  character from = 0 ->
  endsAtLineStart largest ->
  endsAtLineStart (Some (largestBlock line from largest)).
Proof.
  intros Hl Hf Hlargest q [= <-]. unfold largestBlock.
  destruct largest as [r|].
  - rewrite object_gt_false. now apply Hlargest.
  - destruct (newRange_end from (start (line_range line))) as [-> | ->]; assumption.
Qed.

Lemma includeLine_atLineStart (line : TextLine) (b : IncludeBlocks) :
  character (start (line_range line)) = 0 ->
  blocksAtLineStart b -> blocksAtLineStart (includeLine line b).
Proof.
  intros Hl [Hs [Hp [Hls Hlp]]].
  assert (Hnew : atLineStart (Some (start (line_range line))))
    by (intros q [= <-]; assumption).
  assert (Hnone : atLineStart None) by (intros q; discriminate).
  unfold includeLine.
  destruct (negb (test re_include (trim (text line)))).
  - destruct (systemIncludeStart b) as [s|] eqn:Es.
    + repeat split; simpl; try assumption.
      apply largestBlock_atLineStart; try assumption. now apply Hs.
    + destruct (projectIncludeStart b) as [p|] eqn:Ep.
      * repeat split; simpl; try assumption.
        apply largestBlock_atLineStart; try assumption. now apply Hp.
      * repeat split; try assumption; now rewrite ?Es, ?Ep.
  - destruct (test re_angled (text line)).
    + destruct (projectIncludeStart b) as [p|] eqn:Ep;
        (repeat split; simpl; try assumption;
         [destruct (systemIncludeStart b); assumption|..]).
      apply largestBlock_atLineStart; try assumption. now apply Hp.
    + destruct (test re_dquoted (text line)); [|now repeat split].
      destruct (systemIncludeStart b) as [s|] eqn:Es;
        (repeat split; simpl; try assumption;
         try (destruct (projectIncludeStart b); assumption)).
      apply largestBlock_atLineStart; try assumption. now apply Hs.
Qed.

Lemma includeBlocks_atLineStart (doc : TextDocument) :
  blocksAtLineStart (includeBlocks doc).
Proof.
  unfold includeBlocks.
  assert (H0 : blocksAtLineStart (mkIncludeBlocks None None None None))
    by (repeat split; intros q; discriminate).
  revert H0. generalize (mkIncludeBlocks None None None None).
  generalize (seq 0 (lineCount doc)).
  intros l. induction l as [|i l IH]; intros b Hb; simpl; [assumption|].
  apply IH. unfold lineAt.
  destruct (nth_error (doc_lines doc) i); [|assumption].
  now apply includeLine_atLineStart.
Qed.

Section IncludePositions.

Variable sort : forall A : Type, (A -> A -> Z) -> list A -> list A.
Variable host : Host.

(** X14. [findPositionForNewInclude] fails, on asking the document for a
    line that it does not have, exactly when no include block was recorded
    and the first symbol of the tree starts on a line beyond the last one of
    the document. When a block was recorded, both positions returned are at
    the start of a line; and the two positions differ only if a block of
    each kind, system and project, was recorded. *)
Theorem findPositionForNewInclude_positions (this : SourceDocument) :
  let b := includeBlocks (sd_document this) in
  (findPositionForNewInclude sort host this = None
   <-> (largestSystemIncludeBlock b = None /\ largestProjectIncludeBlock b = None
        /\ exists first rest,
             symbolsOf sort host this = first :: rest
             /\ lineCount (sd_document this) <= line (start (s_range first))))
  /\ (forall p,
        findPositionForNewInclude sort host this = Some p ->
        (largestSystemIncludeBlock b <> None \/ largestProjectIncludeBlock b <> None ->
         character (system p) = 0 /\ character (project p) = 0)
        /\ (system p <> project p ->
            largestSystemIncludeBlock b <> None
            /\ largestProjectIncludeBlock b <> None)).
Proof.
  intros b. unfold findPositionForNewInclude. fold b.
  destruct (includeBlocks_atLineStart (sd_document this)) as [_ [_ [Hs Hp]]].
  fold b in Hs, Hp.
  destruct (largestSystemIncludeBlock b) as [s|] eqn:Es;
    destruct (largestProjectIncludeBlock b) as [p|] eqn:Ep.
  - split; [split; [discriminate|now intros [H _]]|].
    intros q [= <-]. simpl. split; [|split; discriminate].
    intros _. split; [now apply Hs|now apply Hp].
  - split; [split; [discriminate|now intros [H _]]|].
    intros q [= <-]. simpl. split; [|now intros H].
    intros _. split; now apply Hs.
  - split; [split; [discriminate|now intros [_ [H _]]]|].
    intros q [= <-]. simpl. split; [|now intros H].
    intros _. split; now apply Hp.
  - set (linesToScan := match symbolsOf sort host this with
                        | [] => lineCount (sd_document this)
                        | first :: _ => S (line (start (s_range first)))
                        end).
    assert (Hnone : lastTextLine (sd_document this) linesToScan = None
                    <-> exists first rest,
                          symbolsOf sort host this = first :: rest
                          /\ lineCount (sd_document this)
                             <= line (start (s_range first))).
    { rewrite lastTextLine_none. unfold linesToScan.
      destruct (symbolsOf sort host this) as [|first rest].
      - split; [lia|]. now intros [f [r [H _]]].
      - split.
        + intros H. exists first, rest. split; [reflexivity|lia].
        + intros [f [r [[= <- <-] H]]]. lia. }
    destruct (lastTextLine (sd_document this) linesToScan) as [[line|]|].
    + split.
      * split; [discriminate|]. intros [_ [_ H]]. apply Hnone in H. discriminate.
      * intros q [= <-]. simpl. split; [now intros [H|H]|now intros H].
    + split.
      * split; [discriminate|]. intros [_ [_ H]]. apply Hnone in H. discriminate.
      * intros q [= <-]. simpl. split; [now intros [H|H]|now intros H].
    + split.
      * split; [|reflexivity]. intros _. split; [reflexivity|]. split; [reflexivity|].
        now apply Hnone.
      * intros q. discriminate.
Qed.

End IncludePositions.

(* ------------------------------------------------------------------ *)
(** ** What the constructors pass on *)

Section PassedOn.

Variable sort : forall A : Type, (A -> A -> Z) -> list A -> list A.
Hypothesis sort_ok : ComparisonSort sort.

Lemma buildSourceSymbol_rangeRef fuel d uri :
  s_rangeRef (buildSourceSymbol sort fuel d uri) = d_rangeRef d.
Proof. now destruct fuel. Qed.

Lemma s_sortedInPlace_rangeRef fuel s :
  s_rangeRef (s_sortedInPlace sort fuel s) = s_rangeRef s.
Proof. now destruct fuel. Qed.

Lemma buildCSymbol_rangeRef fuel s doc :
  rangeRef (buildCSymbol sort fuel s doc) = s_rangeRef s.
Proof. destruct fuel; cbn; apply s_sortedInPlace_rangeRef. Qed.

Lemma SourceSymbol_new_children_refs d uri :
  Permutation (map d_rangeRef (d_children d))
    (map s_rangeRef (s_children (SourceSymbol_new sort d uri))).
Proof.
  unfold SourceSymbol_new. destruct (d_height d) as [|n] eqn:Eh; cbn.
  - assert (E : d_children d = []).
    { apply list_max_zero with d_height. now rewrite <- d_height_eq. }
    now rewrite E.
  - rewrite map_map.
    rewrite (map_ext (fun x => s_rangeRef (buildSourceSymbol sort n x uri)) d_rangeRef)
      by (intros c; apply buildSourceSymbol_rangeRef).
    apply Permutation_map, (sort_perm sort sort_ok).
Qed.

Lemma s_sortedInPlace_children_refs fuel s :
  Permutation (map s_rangeRef (s_children s))
    (map s_rangeRef (s_children (s_sortedInPlace sort fuel s))).
Proof.
  destruct fuel as [|n]; cbn.
  - apply Permutation_map, (sort_perm sort sort_ok).
  - rewrite map_map.
    rewrite (map_ext (fun x => s_rangeRef (s_sortedInPlace sort n x)) s_rangeRef)
      by (intros c; apply s_sortedInPlace_rangeRef).
    apply Permutation_map, (sort_perm sort sort_ok).
Qed.

Lemma CSymbol_new_children_refs s doc :
  Permutation (map s_rangeRef (s_children s))
    (map rangeRef (children (CSymbol_new sort s doc))).
Proof.
  unfold CSymbol_new. destruct (s_height s) as [|n] eqn:Eh; cbn.
  - assert (E : s_children s = []).
    { apply list_max_zero with s_height. now rewrite <- s_height_eq. }
    now rewrite E.
  - rewrite map_map.
    rewrite (map_ext (fun x => rangeRef (buildCSymbol sort n x doc)) s_rangeRef)
      by (intros c; apply buildCSymbol_rangeRef).
    apply (s_sortedInPlace_children_refs (s_height s) s).
Qed.

(** X15. The constructors lose nothing. A [SourceSymbol] made of a document
    symbol has its name, detail, kind, selection range and range, holds the
    same Range object, and belongs to the given file; its children hold the
    Range objects of the children of the document symbol, rearranged; and
    its tree has as many symbols. The same holds for a [CSymbol] made of a
    [SourceSymbol], except that it belongs to the file of the document that
    it is given, whatever the file of the [SourceSymbol]. The tree that
    [executeSourceSymbolProvider] makes of the answer of the provider holds
    the Range objects of the answer, rearranged, and as many symbols; it is
    empty when the provider answers nothing. *)
Theorem constructors_pass_on_every_symbol :
  (forall d uri,
      let s := SourceSymbol_new sort d uri in
      s_name s = d_name d /\ s_detail s = d_detail d /\ s_kind s = d_kind d
      /\ s_range s = d_range d /\ s_rangeRef s = d_rangeRef d
      /\ s_selectionRange s = d_selectionRange d /\ s_uri s = uri
      /\ Permutation (map d_rangeRef (d_children d)) (map s_rangeRef (s_children s))
      /\ s_size s = d_size d)
  /\ (forall s doc,
        let c := CSymbol_new sort s doc in
        name c = s_name s /\ detail c = s_detail s /\ kind c = s_kind s
        /\ range c = s_range s /\ rangeRef c = s_rangeRef s
        /\ selectionRange c = s_selectionRange s
        /\ uri c = doc_uri doc /\ document c = doc
        /\ Permutation (map s_rangeRef (s_children s)) (map rangeRef (children c))
        /\ c_size c = s_size s)
  /\ (forall documentSymbols uri,
        let tree := executeSourceSymbolProvider sort (Some documentSymbols) uri in
        executeSourceSymbolProvider sort None uri = []
        /\ Permutation (map d_rangeRef documentSymbols) (map s_rangeRef tree)
        /\ list_sum (map s_size tree) = list_sum (map d_size documentSymbols)).
Proof.
  split; [|split].
  - intros d uri s. subst s. unfold SourceSymbol_new at 1 2 3 4 5 6 7.
    repeat (split; [now destruct (d_height d)|]).
    split; [apply SourceSymbol_new_children_refs|].
    now apply buildSourceSymbol_size.
  - intros s doc c. subst c. unfold CSymbol_new at 1 2 3 4 5 6 7 8.
    repeat (split; [now destruct (s_height s); cbn; destruct (s_height s)|]).
    split; [apply CSymbol_new_children_refs|].
    now apply buildCSymbol_size.
  - intros documentSymbols uri tree. subst tree. cbn [executeSourceSymbolProvider].
    split; [reflexivity|]. rewrite !map_map. split.
    + rewrite (map_ext (fun x => s_rangeRef (SourceSymbol_new sort x uri)) d_rangeRef)
        by (intros d; apply buildSourceSymbol_rangeRef).
      apply Permutation_map, (sort_perm sort sort_ok).
    + rewrite (map_ext (fun x => s_size (SourceSymbol_new sort x uri)) d_size)
        by (intros d; now apply buildSourceSymbol_size).
      symmetry. apply list_sum_perm, (sort_perm sort sort_ok).
Qed.

End PassedOn.

Lemma constructors_pass_on_every_symbol_witness :
  (forall d uri,
      let s := SourceSymbol_new insertionSort d uri in
      s_name s = d_name d /\ s_detail s = d_detail d /\ s_kind s = d_kind d
      /\ s_range s = d_range d /\ s_rangeRef s = d_rangeRef d
      /\ s_selectionRange s = d_selectionRange d /\ s_uri s = uri
      /\ Permutation (map d_rangeRef (d_children d)) (map s_rangeRef (s_children s))
      /\ s_size s = d_size d)
  /\ (forall s doc,
        let c := CSymbol_new insertionSort s doc in
        name c = s_name s /\ detail c = s_detail s /\ kind c = s_kind s
        /\ range c = s_range s /\ rangeRef c = s_rangeRef s
        /\ selectionRange c = s_selectionRange s
        /\ uri c = doc_uri doc /\ document c = doc
        /\ Permutation (map s_rangeRef (s_children s)) (map rangeRef (children c))
        /\ c_size c = s_size s)
  /\ (forall documentSymbols uri,
        let tree :=
          executeSourceSymbolProvider insertionSort (Some documentSymbols) uri in
        executeSourceSymbolProvider insertionSort None uri = []
        /\ Permutation (map d_rangeRef documentSymbols) (map s_rangeRef tree)
        /\ list_sum (map s_size tree) = list_sum (map d_size documentSymbols)).
Proof.
  apply (constructors_pass_on_every_symbol insertionSort).
  exact insertionSort_is_ComparisonSort.
Defined.

(* ------------------------------------------------------------------ *)
(** ** More about the matcher: where nothing matches, and the first match *)

Lemma nil_of_none (A : Type) (l : list A) : (forall x, ~ In x l) -> l = [].
Proof. destruct l as [|x l]; [reflexivity|]. intros H. now destruct (H x (or_introl eq_refl)). Qed.

Lemma execFrom_none r s fuel :
  forall i, (forall j, i <= j <= i + fuel -> ends r s j = []) ->
            execFrom r s fuel i = None.
Proof.
  induction fuel as [|fuel IH]; intros i H; cbn [execFrom];
    rewrite (H i) by lia; [reflexivity|].
  apply IH. intros j Hj. apply H. lia.
Qed.

Lemma execFrom_none_inv r s fuel :
  forall i, execFrom r s fuel i = None ->
            forall j, i <= j <= i + fuel -> ends r s j = [].
Proof.
  induction fuel as [|fuel IH]; intros i; cbn [execFrom];
    destruct (ends r s i) as [|x l] eqn:E; try discriminate; intros H j Hj.
  - now replace j with i by lia.
  - destruct (Nat.eq_dec j i) as [->|Hne]; [assumption|].
    apply (IH (S i) H). lia.
Qed.

Lemma execFrom_first r s fuel :
  forall i a e, execFrom r s fuel i = Some (a, e) ->
                forall j, i <= j < a -> ends r s j = [].
Proof.
  induction fuel as [|fuel IH]; intros i a e; cbn [execFrom];
    destruct (ends r s i) as [|x l] eqn:E; try discriminate.
  - intros [= <- <-] j Hj. lia.
  - intros H j Hj. destruct (Nat.eq_dec j i) as [->|Hne]; [assumption|].
    apply (IH (S i) a e H). lia.
  - intros [= <- <-] j Hj. lia.
Qed.

Lemma exec_none r s lastIndex :
  (forall j, j <= length s -> ends r s j = []) -> exec r s lastIndex = None.
Proof.
  intros H. unfold exec. destruct (lastIndex <=? length s) eqn:E; [|reflexivity].
  apply Nat.leb_le in E. apply execFrom_none. intros j Hj. apply H. lia.
Qed.

Lemma replaceAll_no_match r f s :
  (forall j, j <= length s -> ends r s j = []) -> replaceAll r f s = s.
Proof.
  intros H. unfold replaceAll, matchAll. cbn [matchesFrom].
  now rewrite (exec_none r s 0 H).
Qed.

Lemma test_true r s i e :
  i <= length s -> In e (ends r s i) -> test r s = true.
Proof.
  intros Hi He. unfold test.
  destruct (exec r s 0) eqn:E; [reflexivity|]. exfalso.
  unfold exec in E. simpl in E.
  rewrite (execFrom_none_inv r s _ 0 E i) in He by lia. contradiction.
Qed.

Lemma test_false r s :
  (forall j, j <= length s -> ends r s j = []) -> test r s = false.
Proof. intros H. unfold test. now rewrite (exec_none r s 0 H). Qed.

Lemma ends_seq_char_nil p r s j :
  (forall c, nth_error s j = Some c -> p c = false) ->
  ends (Seq (Char p) r) s j = [].
Proof.
  intros H. cbn [ends]. destruct (nth_error s j) as [c|]; [|reflexivity].
  now rewrite (H c eq_refl).
Qed.

(* ------------------------------------------------------------------ *)
(** ** The masker, for any filler *)

Lemma Delimited_delimiter (s : str) (a e : nat) :
  Delimited s a e ->
  In slash s \/ In dquote s \/ In quote s \/ In langle s.
Proof.
  intros [k _ H _ _ _|k _ H _|q k [-> | ->] _ H _|k _ H _];
    apply nth_error_In in H; tauto.
Qed.

(** A text without a delimiter gives the masker nothing to match. *)
Lemma maskUnimportantTextWith_plain (c : N) (s : str) :
  ~ In slash s -> ~ In dquote s -> ~ In quote s -> ~ In langle s ->
  maskUnimportantTextWith [c] s = s.
Proof.
  intros N1 N2 N3 N4. unfold maskUnimportantTextWith.
  assert (Hno : forall a e, ~ Delimited s a e).
  { intros a e H. apply Delimited_delimiter in H. tauto. }
  cbv zeta.
  rewrite (replaceAll_no_match re_blockComment _ s).
  2:{ intros j _. apply nil_of_none. intros e He.
      now apply re_blockComment_delimited, Hno in He. }
  rewrite (replaceAll_no_match re_lineComment _ s).
  2:{ intros j _. apply nil_of_none. intros e He.
      now apply re_lineComment_delimited, Hno in He. }
  rewrite (replaceAll_no_match (re_quoted dquote) _ s).
  2:{ intros j _. apply nil_of_none. intros e He.
      apply re_quoted_delimited, Hno in He; [assumption|now left]. }
  rewrite (replaceAll_no_match (re_quoted (chr "'")) _ s).
  2:{ intros j _. apply nil_of_none. intros e He.
      apply re_quoted_delimited, Hno in He; [assumption|now right]. }
  apply replaceAll_no_match. intros j _. apply nil_of_none. intros e He.
  now apply re_templateArgs_delimited, Hno in He.
Qed.

(** X17. With a filler of one unit, whatever it is, [maskUnimportantText]
    keeps the length of the text, and each unit of the result is the unit
    of the text at the same offset or the filler. A text that holds no
    slash, no quote of either kind and no [<] is returned as it is. *)
Theorem maskUnimportantText_with_any_filler (c : N) (s : str) :
  length (maskUnimportantTextWith [c] s) = length s
  /\ (forall i x, nth_error (maskUnimportantTextWith [c] s) i = Some x ->
                  nth_error s i = Some x \/ x = c)
  /\ (~ In slash s -> ~ In dquote s -> ~ In quote s -> ~ In langle s ->
      maskUnimportantTextWith [c] s = s).
Proof.
  unfold maskUnimportantTextWith.
  change (fun m : str => str_repeat [c] (length m)) with (fill c). cbv zeta.
  set (s1 := replaceAll re_blockComment (fill c) s).
  set (s2 := replaceAll re_lineComment (fill c) s1).
  set (s3 := replaceAll (re_quoted dquote) (fill c) s2).
  set (s4 := replaceAll (re_quoted (chr "'")) (fill c) s3).
  destruct (replaceAll_fill c re_blockComment s) as [L1 U1]. fold s1 in L1, U1.
  destruct (replaceAll_fill c re_lineComment s1) as [L2 U2]. fold s2 in L2, U2.
  destruct (replaceAll_fill c (re_quoted dquote) s2) as [L3 U3]. fold s3 in L3, U3.
  destruct (replaceAll_fill c (re_quoted (chr "'")) s3) as [L4 U4]. fold s4 in L4, U4.
  destruct (replaceAll_fill c re_templateArgs s4) as [L5 U5].
  split; [congruence|]. split.
  - intros i x H.
    destruct (U5 i x H) as [H5|[-> _]]; [|now right].
    destruct (U4 i x H5) as [H4|[-> _]]; [|now right].
    destruct (U3 i x H4) as [H3|[-> _]]; [|now right].
    destruct (U2 i x H3) as [H2|[-> _]]; [|now right].
    destruct (U1 i x H2) as [H1|[-> _]]; [now left|now right].
  - intros N1 N2 N3 N4.
    pose proof (maskUnimportantTextWith_plain c s N1 N2 N3 N4) as E.
    unfold maskUnimportantTextWith in E.
    change (fun m : str => str_repeat [c] (length m)) with (fill c) in E.
    exact E.
Qed.

(* ------------------------------------------------------------------ *)
(** ** Parameters without default values *)

Lemma includes_unit (s : str) (c : N) : In c s -> includes s [c] = true.
Proof.
  induction s as [|x s IH]; [contradiction|].
  intros [->|H]; cbn [includes startsWith].
  - rewrite N.eqb_refl. now destruct s.
  - rewrite (IH H). apply orb_true_r.
Qed.

Lemma includes_two (s : str) (a b : N) (j : nat) :
  nth_error s j = Some a -> nth_error s (S j) = Some b ->
  includes s [a; b] = true.
Proof.
  revert j. induction s as [|x s IH]; intros [|j]; try discriminate.
  - destruct s as [|y s]; [discriminate|]. intros [= ->] [= ->].
    cbn [includes startsWith]. rewrite !N.eqb_refl. now destruct s.
  - intros Ha Hb. cbn [includes]. rewrite (IH j Ha Hb). apply orb_true_r.
Qed.

Lemma stripLoop_acc (parameters : str) (pieces : list str) :
  forall charPos acc,
    stripLoop parameters pieces charPos acc
    = acc ++ stripLoop parameters pieces charPos [].
Proof.
  induction pieces as [|m pieces IH]; intros charPos acc; cbn [stripLoop].
  - now rewrite app_nil_r.
  - rewrite IH. symmetry. rewrite IH.
    destruct (includes m (units "=")); cbn [app]; now rewrite !app_assoc.
Qed.

Lemma split_cons (sep : N) (s : str) : exists piece pieces, split sep s = piece :: pieces.
Proof.
  destruct s as [|c s]; cbn [split]; [now eexists; eexists|].
  destruct (N.eqb c sep); [now eexists; eexists|].
  destruct (split sep s); now eexists; eexists.
Qed.

Lemma substring_step (s : str) (pos n : nat) (x : N) :
  nth_error s pos = Some x ->
  substring s pos (pos + S n) = x :: substring s (S pos) (S pos + n).
Proof.
  intros H. unfold substring.
  replace (pos + S n - pos) with (S n) by lia.
  replace (S pos + n - S pos) with n by lia.
  rewrite (skipn_nth_error s pos), H. reflexivity.
Qed.

Lemma substring_empty (s : str) (pos : nat) : substring s pos (pos + 0) = [].
Proof. unfold substring. now replace (pos + 0 - pos) with 0 by lia. Qed.

Lemma includes_unit_inv (s : str) (c : N) : includes s [c] = true -> In c s.
Proof.
  induction s as [|x s IH]; cbn [includes startsWith]; [discriminate|].
  intros H. apply orb_true_iff in H. destruct H as [H|H].
  - apply andb_true_iff in H. destruct H as [H _]. apply N.eqb_eq in H. now left.
  - right. now apply IH.
Qed.

Lemma split_first_piece (sep : N) (s : str) (piece : str) (pieces : list str) :
  split sep s = piece :: pieces -> forall x, In x piece -> In x s.
Proof.
  revert piece pieces. induction s as [|c s IH]; intros piece pieces; cbn [split].
  - intros [= <- <-] x [].
  - destruct (N.eqb c sep).
    + intros [= <- <-] x [].
    + destruct (split sep s) as [|p ps] eqn:E.
      * intros [= <- <-] x [->|[]]. now left.
      * intros [= <- <-] x [->|H]; [now left|]. right. now apply (IH p ps).
Qed.

(** The loop over the pieces of a masked text that holds no [=] copies the
    parameters, piece by piece, with a comma after each piece. *)
Lemma stripLoop_copies (parameters : str) (masked : str) :
  forall charPos,
    charPos + length masked = length parameters ->
    (forall i, nth_error masked i = Some (chr ",") ->
               nth_error parameters (charPos + i) = Some (chr ",")) ->
    ~ In (chr "=") masked ->
    stripLoop parameters (split (chr ",") masked) charPos []
    = skipn charPos parameters ++ units ",".
Proof.
  induction masked as [|c masked IH]; intros charPos Hlen Hcomma Hno.
  - cbn [split stripLoop]. change (units "=") with [chr "="].
    cbn [includes startsWith length orb app]. rewrite substring_empty.
    rewrite skipn_all2 by (simpl in Hlen; lia). reflexivity.
  - assert (Hpos : exists x, nth_error parameters charPos = Some x).
    { destruct (nth_error parameters charPos) eqn:E; [eauto|].
      apply nth_error_None in E. simpl in Hlen. lia. }
    destruct Hpos as [x Hx].
    assert (IH' : stripLoop parameters (split (chr ",") masked) (S charPos) []
                  = skipn (S charPos) parameters ++ units ",").
    { apply IH.
      - simpl in Hlen. lia.
      - intros i Hi. replace (S charPos + i) with (charPos + S i) by lia.
        now apply Hcomma.
      - intros H. apply Hno. now right. }
    rewrite (skipn_nth_error parameters charPos), Hx.
    cbn [split]. destruct (N.eqb c (chr ",")) eqn:Ec.
    + apply N.eqb_eq in Ec. subst c.
      pose proof (Hcomma 0 eq_refl) as H0. rewrite Nat.add_0_r, Hx in H0.
      injection H0 as ->.
      cbn [stripLoop]. change (units "=") with [chr "="].
      cbn [includes startsWith length orb]. rewrite substring_empty.
      rewrite stripLoop_acc.
      replace (charPos + 0 + 1) with (S charPos) by lia.
      rewrite IH'. reflexivity.
    + destruct (split_cons (chr ",") masked) as [piece [pieces Es]].
      rewrite Es in *. cbn [stripLoop] in *.
      assert (Hpiece : forall y, In y piece -> In y masked)
        by (apply (split_first_piece _ _ _ _ Es)).
      assert (Hp : includes piece (units "=") = false).
      { destruct (includes piece (units "=")) eqn:Ep; [|reflexivity].
        exfalso. apply Hno. right. apply Hpiece.
        now apply includes_unit_inv. }
      assert (Hcp : includes (c :: piece) (units "=") = false).
      { destruct (includes (c :: piece) (units "=")) eqn:Ep; [|reflexivity].
        exfalso. apply Hno. apply includes_unit_inv in Ep.
        destruct Ep as [->|Ep]; [now left|]. right. now apply Hpiece. }
      rewrite Hp in IH'. rewrite Hcp.
      rewrite stripLoop_acc in IH'. rewrite stripLoop_acc.
      cbn [length app] in *.
      rewrite (substring_step parameters charPos (length piece) x Hx).
      replace (charPos + S (length piece) + 1) with (S charPos + length piece + 1)
        by lia.
      cbn [app]. f_equal. exact IH'.
Qed.

Lemma stripDefaultValues_unchanged (parameters : str) :
  includes parameters (units "=") = false ->
  includes parameters (units "()") = false ->
  stripDefaultValues parameters = parameters.
Proof.
  intros Heq Hpar.
  assert (Hno : ~ In (chr "=") parameters).
  { intros H. apply includes_unit in H. change [chr "="] with (units "=") in H.
    congruence. }
  unfold stripDefaultValues.
  assert (E1 : replaceAll re_operatorAssign erase parameters = parameters).
  { apply replaceAll_no_match. intros j _. apply nil_of_none. intros e He.
    unfold re_operatorAssign in He. cbn [cat] in He.
    apply in_ends_seq in He. destruct He as [k [Hk He]].
    apply in_ends_lit in He. destruct He as [_ He].
    apply nth_error_In in He. contradiction. }
  rewrite E1.
  assert (E2 : replaceAll re_assign (fun _ => units "=") parameters = parameters).
  { apply replaceAll_no_match. intros j _. apply nil_of_none. intros e He.
    unfold re_assign in He. cbn [cat] in He.
    apply in_ends_seq in He. destruct He as [k1 [_ He]].
    apply in_ends_seq in He. destruct He as [k2 [_ He]].
    apply in_ends_seq in He. destruct He as [k3 [He _]].
    apply in_ends_lit in He. destruct He as [_ He].
    apply nth_error_In in He. contradiction. }
  rewrite E2.
  assert (E3 : replaceAll re_emptyParens erase parameters = parameters).
  { apply replaceAll_no_match. intros j _. apply nil_of_none. intros e He.
    unfold re_emptyParens in He. cbn [cat] in He.
    apply in_ends_two in He. destruct He as [_ [H1 H2]].
    pose proof (includes_two parameters _ _ j H1 H2) as H.
    change (includes parameters (units "()") = true) in H. congruence. }
  rewrite E3. cbv zeta.
  destruct (maskUnimportantText_Masked parameters) as [Hlen Hunits].
  rewrite stripLoop_copies.
  - cbn [skipn]. unfold substring. rewrite length_app. cbn [length skipn].
    change (length (units ",")) with 1.
    replace (length parameters + 1 - 1 - 0) with (length parameters + 0) by lia.
    rewrite firstn_app_2. cbn [firstn]. apply app_nil_r.
  - simpl. exact Hlen.
  - intros i Hi. simpl. destruct (Hunits i _ Hi) as [H|[H _]]; [assumption|].
    discriminate.
  - intros H. apply In_nth_error in H. destruct H as [i Hi].
    destruct (Hunits i _ Hi) as [H|[H _]]; [|discriminate].
    apply nth_error_In in H. contradiction.
Qed.

(** X18. [stripDefaultValues] returns a parameter list that holds no [=]
    and no empty pair of parentheses as it is: the three replacements find
    nothing, and the pieces of the masked text, separated at its commas,
    are copied from the text itself, comma by comma. *)
Theorem stripDefaultValues_without_default_values (parameters : str) :
  includes parameters (units "=") = false ->
  includes parameters (units "()") = false ->
  stripDefaultValues parameters = parameters.
Proof. apply stripDefaultValues_unchanged. Qed.

(** A declaration [int a, const std::string& b]. *)
Lemma stripDefaultValues_without_default_values_witness :
  stripDefaultValues (units "int a, const std::string& b")
  = units "int a, const std::string& b".
Proof.
  apply (stripDefaultValues_without_default_values
           (units "int a, const std::string& b")); reflexivity.
Defined.

(* ------------------------------------------------------------------ *)
(** ** More about the matcher: runs of one class, and anchored patterns *)

Lemma star_self (step : nat -> list nat) (fuel i : nat) : In i (star step fuel i).
Proof. destruct fuel; cbn [star]; [now left|]. apply in_or_app. right. now left. Qed.

(** What a run of units of one class passes over. *)
Lemma in_star_char p s fuel :
  forall i e, In e (star (ends (Char p) s) fuel i) ->
  i <= e /\ forall j, i <= j < e -> exists c, nth_error s j = Some c /\ p c = true.
Proof.
  induction fuel as [|fuel IH]; intros i e; cbn [star].
  - intros [<-|[]]. split; [lia|intros j Hj; lia].
  - intros H. apply in_app_or in H. destruct H as [H|[<-|[]]].
    + apply in_flat_map in H. destruct H as [k [Hk H]].
      apply in_ends_char in Hk. destruct Hk as [-> [c [Hc Hp]]].
      replace (i <? S i) with true in H by (symmetry; apply Nat.ltb_lt; lia).
      apply IH in H. destruct H as [Hle Hrun]. split; [lia|].
      intros j Hj. destruct (Nat.eq_dec j i) as [->|Hne]; [now exists c|].
      apply Hrun. lia.
    + split; [lia|intros j Hj; lia].
Qed.

Lemma in_ends_star_char p s i e :
  In e (ends (Star (Char p)) s i) ->
  i <= e /\ forall j, i <= j < e -> exists c, nth_error s j = Some c /\ p c = true.
Proof. cbn [ends]. apply in_star_char. Qed.

Lemma in_ends_plus_char p s i e :
  In e (ends (plus (Char p)) s i) ->
  i < e /\ forall j, i <= j < e -> exists c, nth_error s j = Some c /\ p c = true.
Proof.
  unfold plus. intros H. apply in_ends_seq in H. destruct H as [k [Hk H]].
  apply in_ends_char in Hk. destruct Hk as [-> [c [Hc Hp]]].
  apply in_ends_star_char in H. destruct H as [Hle Hrun]. split; [lia|].
  intros j Hj. destruct (Nat.eq_dec j i) as [->|Hne]; [now exists c|].
  apply Hrun. lia.
Qed.

(** A run of units of one class reaches every position up to which the
    units are of the class. *)
Lemma star_char_reach p s (e : nat) :
  forall n i, e - i = n -> i <= e ->
    (forall j, i <= j < e -> exists c, nth_error s j = Some c /\ p c = true) ->
    In e (ends (Star (Char p)) s i).
Proof.
  induction n as [|n IH]; intros i Hn Hle Hrun; cbn [ends].
  - replace e with i by lia. apply star_self.
  - destruct (Hrun i) as [c [Hc Hp]]; [lia|].
    assert (Hi : i < length s) by (apply nth_error_Some; congruence).
    destruct (length s - i) as [|fuel] eqn:Ef; [lia|].
    cbn [star ends]. rewrite Hc, Hp. cbn [flat_map].
    replace (i <? S i) with true by (symmetry; apply Nat.ltb_lt; lia).
    apply in_or_app. left. rewrite app_nil_r.
    replace fuel with (length s - S i) by lia.
    apply (IH (S i)); [lia|lia|]. intros j Hj. apply Hrun. lia.
Qed.

Lemma in_ends_eol s i e : In e (ends Eol s i) <-> e = i /\ i = length s.
Proof.
  cbn [ends]. destruct (i =? length s) eqn:E.
  - apply Nat.eqb_eq in E. split; [intros [<-|[]]; now split|intros [-> _]; now left].
  - apply Nat.eqb_neq in E. split; [intros []|intros [_ H]; contradiction].
Qed.

Lemma in_ends_bol s i e : In e (ends Bol s i) <-> e = i /\ i = 0.
Proof.
  cbn [ends]. destruct (i =? 0) eqn:E.
  - apply Nat.eqb_eq in E. split; [intros [<-|[]]; now split|intros [-> _]; now left].
  - apply Nat.eqb_neq in E. split; [intros []|intros [_ H]; contradiction].
Qed.

Lemma in_ends_char_iff p s i e :
  In e (ends (Char p) s i) <->
  e = S i /\ exists c, nth_error s i = Some c /\ p c = true.
Proof.
  split; [apply in_ends_char|].
  intros [-> [c [Hc Hp]]]. cbn [ends]. rewrite Hc, Hp. now left.
Qed.

(** A pattern anchored at the start matches when it matches at offset 0. *)
Lemma test_bol r s : test (Seq Bol r) s = nonempty (ends r s 0).
Proof.
  destruct (ends r s 0) as [|e l] eqn:E; cbn [nonempty].
  - apply test_false. intros j _. apply nil_of_none. intros e He.
    apply in_ends_seq in He. destruct He as [k [Hk He]].
    apply in_ends_bol in Hk. destruct Hk as [-> ->]. rewrite E in He. contradiction.
  - apply (test_true _ s 0 e); [lia|].
    apply in_ends_seq. exists 0. split; [now apply in_ends_bol|].
    rewrite E. now left.
Qed.

Lemma nonempty_false (l : list nat) : (forall e, ~ In e l) -> nonempty l = false.
Proof. intros H. now rewrite (nil_of_none _ l H). Qed.

Lemma nonempty_true (l : list nat) e : In e l -> nonempty l = true.
Proof. destruct l; [contradiction|reflexivity]. Qed.

Lemma startsWith_nil (s : str) : startsWith s [] = true.
Proof. now destruct s. Qed.

Lemma endsWith_unit (s : str) (c : N) :
  endsWith s [c] = true <-> s <> [] /\ nth_error s (length s - 1) = Some c.
Proof.
  unfold endsWith. destruct s as [|x s] using rev_ind.
  - simpl. split; [discriminate|now intros [H _]].
  - clear IHs. rewrite rev_app_distr. cbn [rev app startsWith].
    rewrite length_app. cbn [length].
    replace (length s + 1 - 1) with (length s) by lia.
    rewrite nth_error_app2, Nat.sub_diag by lia. cbn [nth_error].
    replace (startsWith (rev s) []) with true by (now destruct (rev s)).
    rewrite andb_true_r. split.
    + intros H. apply N.eqb_eq in H. subst. split; [now destruct s|reflexivity].
    + intros [_ [= ->]]. apply N.eqb_refl.
Qed.

Lemma startsWith_nth (s : str) (c : N) :
  startsWith s [c] = true <-> nth_error s 0 = Some c.
Proof.
  destruct s as [|x s]; cbn [startsWith nth_error].
  - split; discriminate.
  - replace (startsWith s []) with true by (now destruct s).
    rewrite andb_true_r. split.
    + intros H. apply N.eqb_eq in H. now subst.
    + intros [= ->]. apply N.eqb_refl.
Qed.

(* ------------------------------------------------------------------ *)
(** ** The base name of a member, by naming scheme *)

(** The first pattern of [baseName] needs an underscore at the start. *)
Lemma re_underscoresAround_start (s : str) :
  startsWith s (units "_") = false -> test re_underscoresAround s = false.
Proof.
  intros H. unfold re_underscoresAround. cbn [cat]. rewrite test_bol.
  apply nonempty_false. intros e He.
  apply in_ends_seq in He. destruct He as [k [Hk _]].
  apply in_ends_plus_char in Hk. destruct Hk as [Hlt Hrun].
  destruct (Hrun 0) as [c [Hc Hp]]; [lia|].
  apply N.eqb_eq in Hp. subst c.
  apply startsWith_nth in Hc. change [chr "_"] with (units "_") in Hc. congruence.
Qed.

(** The second pattern of [baseName] needs an underscore at the end. *)
Lemma re_underscoresAfter_end (s : str) :
  endsWith s (units "_") = false -> test re_underscoresAfter s = false.
Proof.
  intros H. unfold re_underscoresAfter. cbn [cat]. rewrite test_bol.
  apply nonempty_false. intros e He.
  apply in_ends_seq in He. destruct He as [k1 [_ He]].
  apply in_ends_seq in He. destruct He as [k2 [_ He]].
  apply in_ends_seq in He. destruct He as [k3 [_ He]].
  apply in_ends_seq in He. destruct He as [k4 [Hk He]].
  apply in_ends_eol in He. destruct He as [-> ->].
  apply in_ends_plus_char in Hk. destruct Hk as [Hlt Hrun].
  destruct (Hrun (length s - 1)) as [c [Hc Hp]]; [lia|].
  apply N.eqb_eq in Hp. subst c.
  assert (Hends : endsWith s [chr "_"] = true).
  { apply endsWith_unit. split; [|assumption]. intros ->. simpl in Hlt. lia. }
  change [chr "_"] with (units "_") in Hends. congruence.
Qed.

(** The third pattern of [baseName] needs [m_] at the start. *)
Lemma re_mPrefix_start (s : str) :
  startsWith s (units "m_") = false -> test re_mPrefix s = false.
Proof.
  intros H. unfold re_mPrefix. cbn [cat]. rewrite test_bol.
  apply nonempty_false. intros e He.
  apply in_ends_seq in He. destruct He as [k1 [H1 He]].
  apply in_ends_seq in He. destruct He as [k2 [H2 _]].
  apply in_ends_lit in H1. destruct H1 as [-> H1].
  apply in_ends_lit in H2. destruct H2 as [_ H2].
  assert (E : startsWith s (units "m_") = true).
  { destruct s as [|x [|y s]]; try discriminate H1; try discriminate H2.
    simpl in H1, H2. inversion H1. inversion H2. subst.
    cbn. now destruct s. }
  congruence.
Qed.

Lemma re_mPrefix_matches (w : str) :
  w <> [] -> Forall (fun c => is_word c = true) w ->
  test re_mPrefix (units "m_" ++ w) = true.
Proof.
  intros Hw Hword. unfold re_mPrefix. cbn [cat]. rewrite test_bol.
  destruct w as [|c w]; [congruence|].
  apply Forall_cons_iff in Hword. destruct Hword as [Hc Hword].
  change (units "m_" ++ c :: w) with (chr "m" :: chr "_" :: c :: w).
  set (s := chr "m" :: chr "_" :: c :: w).
  apply (nonempty_true _ (length s)).
  apply in_ends_seq. exists 1. split; [now left|].
  apply in_ends_seq. exists 2. split; [now left|].
  apply in_ends_seq. exists 3. split.
  { apply in_ends_char_iff. split; [reflexivity|]. now exists c. }
  apply in_ends_seq. exists (length s). split; [|now apply in_ends_eol].
  apply (star_char_reach is_word s (length s) (length s - 3)); [reflexivity| |].
  - subst s. simpl. lia.
  - intros j Hj. subst s. cbn [length] in *.
    destruct j as [|[|[|j]]]; try lia. cbn [nth_error].
    destruct (nth_error w j) as [x|] eqn:Ex.
    + exists x. split; [reflexivity|].
      apply nth_error_In in Ex. now apply (proj1 (Forall_forall _ _) Hword).
    + apply nth_error_None in Ex. simpl in Hj. lia.
Qed.

Lemma replaceFirst_stripM (w : str) :
  replaceFirst re_stripM erase (units "m_" ++ w) = w.
Proof. reflexivity. Qed.

Lemma startsWith_m (w : str) : startsWith (units "m_" ++ w) (units "_") = false.
Proof. reflexivity. Qed.

Lemma endsWith_app (a w : str) (c : N) :
  w <> [] -> endsWith (a ++ w) [c] = endsWith w [c].
Proof.
  intros Hw. unfold endsWith. rewrite rev_app_distr.
  destruct (rev w) as [|x l] eqn:E.
  - apply (f_equal (@rev N)) in E. rewrite rev_involutive in E. now destruct Hw.
  - cbn [rev app startsWith]. now rewrite !startsWith_nil.
Qed.

(** The base name of [m_] followed by a name. *)
Lemma baseNameOf_m_prefix (w : str) :
  w <> [] -> Forall (fun c => is_word c = true) w ->
  endsWith w (units "_") = false ->
  baseNameOf (units "m_" ++ w) = w.
Proof.
  intros Hw Hword Hend. unfold baseNameOf.
  rewrite (re_underscoresAround_start _ (startsWith_m w)).
  rewrite re_underscoresAfter_end
    by (change (units "_") with [chr "_"]; now rewrite endsWith_app).
  rewrite (re_mPrefix_matches w Hw Hword), replaceFirst_stripM.
  cbn. now destruct w.
Qed.

(** The base name of a name without decoration. *)
Lemma baseNameOf_plain (s : str) :
  startsWith s (units "_") = false ->
  endsWith s (units "_") = false ->
  startsWith s (units "m_") = false ->
  baseNameOf s = s.
Proof.
  intros H1 H2 H3. unfold baseNameOf.
  now rewrite (re_underscoresAround_start s H1), (re_underscoresAfter_end s H2),
    (re_mPrefix_start s H3).
Qed.

(** X19. A member variable named [m_] followed by a name of word units that
    does not end in an underscore has that name as its base name and as the
    name of its getter; its setter is [set] followed by the capitalized
    name. *)
Theorem accessor_names_of_an_m_prefixed_member (this : CSymbol) (w : str) :
  isMemberVariable this = true ->
  id this = units "m_" ++ w ->
  w <> [] ->
  Forall (fun c => is_word c = true) w ->
  endsWith w (units "_") = false ->
  baseName this = w
  /\ getterName this = w
  /\ setterName this = units "set" ++ firstCharToUpper w.
Proof.
  intros Hm Hid Hw Hword Hend.
  assert (Hb : baseName this = w)
    by (unfold baseName; rewrite Hid; now apply baseNameOf_m_prefix).
  split; [assumption|].
  rewrite (getterName_unfold this Hm), (setterName_unfold this Hm), Hb, Hid.
  split; [|reflexivity].
  replace (str_eqb w (units "m_" ++ w)) with false; [reflexivity|].
  symmetry. apply str_eqb_neq. intros E.
  apply (f_equal (@length N)) in E. rewrite length_app in E. simpl in E. lia.
Qed.

Lemma accessor_names_of_an_m_prefixed_member_witness :
  baseName sym_m_count = units "count"
  /\ getterName sym_m_count = units "count"
  /\ setterName sym_m_count = units "set" ++ firstCharToUpper (units "count").
Proof.
  apply (accessor_names_of_an_m_prefixed_member sym_m_count (units "count"));
    try reflexivity.
  - discriminate.
  - repeat constructor.
Defined.

(** X20. A member variable whose identifier neither starts nor ends with an
    underscore and does not start with [m_] is its own base name: its getter
    is [get] and its setter [set], followed by the capitalized identifier. *)
Theorem accessor_names_of_a_plain_member (this : CSymbol) :
  isMemberVariable this = true ->
  startsWith (id this) (units "_") = false ->
  endsWith (id this) (units "_") = false ->
  startsWith (id this) (units "m_") = false ->
  baseName this = id this
  /\ getterName this = units "get" ++ firstCharToUpper (id this)
  /\ setterName this = units "set" ++ firstCharToUpper (id this).
Proof.
  intros Hm H1 H2 H3.
  assert (Hb : baseName this = id this)
    by (unfold baseName; now apply baseNameOf_plain).
  split; [assumption|].
  rewrite (getterName_unfold this Hm), (setterName_unfold this Hm), Hb.
  now rewrite str_eqb_refl.
Qed.

Lemma accessor_names_of_a_plain_member_witness :
  baseName sym_count = id sym_count
  /\ getterName sym_count = units "get" ++ firstCharToUpper (id sym_count)
  /\ setterName sym_count = units "set" ++ firstCharToUpper (id sym_count).
Proof.
  apply (accessor_names_of_a_plain_member sym_count); reflexivity.
Defined.

(* ------------------------------------------------------------------ *)
(** ** More about the matcher: the greedy end comes first *)


Lemma star_char_list p s fuel :
  forall i, length s - i <= fuel ->
    star (ends (Char p) s) fuel i = rev (seq i (S (run p (skipn i s)))).
Proof.
  induction fuel as [|fuel IH]; intros i Hf.
  - cbn [star]. rewrite skipn_all2 by lia. reflexivity.
  - cbn [star ends]. rewrite (skipn_nth_error s i).
    destruct (nth_error s i) as [x|] eqn:Ex; [|reflexivity].
    cbn [run]. destruct (p x); [|reflexivity].
    cbn [flat_map].
    replace (i <? S i) with true by (symmetry; apply Nat.ltb_lt; lia).
    rewrite app_nil_r, IH by lia.
    change (seq i (S (S (run p (skipn (S i) s)))))
      with (i :: seq (S i) (S (run p (skipn (S i) s)))).
    reflexivity.
Qed.

Lemma ends_star_char p s i :
  ends (Star (Char p)) s i = rev (seq i (S (run p (skipn i s)))).
Proof. cbn [ends]. now apply star_char_list. Qed.

Lemma rev_seq_head i n : exists l, rev (seq i (S n)) = (i + n) :: l.
Proof.
  rewrite seq_S, rev_app_distr. cbn. now eexists.
Qed.

(** The greedy end of a run comes first. *)
Lemma ends_star_char_head p s i :
  exists l, ends (Star (Char p)) s i = (i + run p (skipn i s)) :: l.
Proof. rewrite ends_star_char. apply rev_seq_head. Qed.

Lemma ends_plus_char_head p s i x :
  nth_error s i = Some x -> p x = true ->
  exists l, ends (plus (Char p)) s i = (i + run p (skipn i s)) :: l.
Proof.
  intros Hx Hp. unfold plus. cbn [ends]. rewrite Hx, Hp. cbn [flat_map].
  rewrite app_nil_r. fold (ends (Star (Char p)) s (S i)).
  destruct (ends_star_char_head p s (S i)) as [l E]. rewrite E.
  rewrite (skipn_nth_error s i), Hx. cbn [run]. rewrite Hp.
  exists l. f_equal. lia.
Qed.

Lemma exec_at r s lastIndex a e l :
  lastIndex <= a -> a <= length s ->
  (forall j, lastIndex <= j < a -> ends r s j = []) ->
  ends r s a = e :: l ->
  exec r s lastIndex = Some (a, e).
Proof.
  intros Hl Ha Hskip He. unfold exec.
  replace (lastIndex <=? length s) with true by (symmetry; apply Nat.leb_le; lia).
  remember (length s - lastIndex) as fuel eqn:Ef.
  assert (Hfuel : a <= lastIndex + fuel) by lia. clear Ef.
  revert lastIndex Hl Hskip Hfuel.
  induction fuel as [|fuel IH]; intros i Hl Hskip Hfuel; cbn [execFrom].
  - replace i with a by lia. now rewrite He.
  - destruct (Nat.eq_dec i a) as [->|Hne]; [now rewrite He|].
    rewrite (Hskip i) by lia. apply IH; [lia| |lia].
    intros j Hj. apply Hskip. lia.
Qed.

Lemma exec_none_from r s lastIndex :
  (forall j, lastIndex <= j <= length s -> ends r s j = []) ->
  exec r s lastIndex = None.
Proof.
  intros H. unfold exec. destruct (lastIndex <=? length s) eqn:E; [|reflexivity].
  apply Nat.leb_le in E. apply execFrom_none. intros j Hj. apply H. lia.
Qed.

(* ------------------------------------------------------------------ *)
(** ** The base name of a name between underscores *)

Lemma decorated_length k w n : length (decorated k w n) = k + length w + n.
Proof. unfold decorated, underscores. rewrite !length_app, !repeat_length. lia. Qed.

Lemma decorated_before k w n j : j < k -> nth_error (decorated k w n) j = Some underscore.
Proof.
  intros Hj. unfold decorated, underscores.
  rewrite nth_error_app1 by (rewrite repeat_length; lia).
  now apply nth_error_repeat.
Qed.

Lemma decorated_name k w n j :
  k <= j < k + length w -> nth_error (decorated k w n) j = nth_error w (j - k).
Proof.
  intros Hj. unfold decorated, underscores.
  rewrite nth_error_app2 by (rewrite repeat_length; lia).
  rewrite repeat_length. apply nth_error_app1. lia.
Qed.

Lemma decorated_after k w n j :
  k + length w <= j < k + length w + n -> nth_error (decorated k w n) j = Some underscore.
Proof.
  intros Hj. unfold decorated, underscores.
  rewrite nth_error_app2 by (rewrite repeat_length; lia).
  rewrite repeat_length.
  rewrite nth_error_app2 by lia.
  apply nth_error_repeat. lia.
Qed.

Lemma bareName_first w :
  bareName w -> exists c w', w = c :: w' /\ is_word c = true /\ c <> underscore.
Proof.
  intros [Hne [Hword [Hstart _]]]. destruct w as [|c w']; [now destruct Hne|].
  exists c, w'. split; [reflexivity|]. split.
  - now apply Forall_cons_iff in Hword.
  - intros ->.
    assert (E : startsWith (underscore :: w') [underscore] = true) by now apply startsWith_nth.
    change [underscore] with (units "_") in E. congruence.
Qed.

Lemma bareName_last w : bareName w -> nth_error w (length w - 1) <> Some underscore.
Proof.
  intros [Hne [_ [_ Hend]]] H.
  assert (E : endsWith w [underscore] = true) by (apply endsWith_unit; now split).
  change [underscore] with (units "_") in E. congruence.
Qed.

Lemma bareName_length w : bareName w -> 0 < length w.
Proof. intros [Hne _]. destruct w; [now destruct Hne|simpl; lia]. Qed.

Lemma decorated_word k w n j :
  bareName w -> j < length (decorated k w n) ->
  exists c, nth_error (decorated k w n) j = Some c /\ is_word c = true.
Proof.
  intros [_ [Hword _]]. rewrite decorated_length. intros Hj.
  destruct (Nat.lt_ge_cases j k) as [H1|H1].
  - exists underscore. split; [now apply decorated_before|reflexivity].
  - destruct (Nat.lt_ge_cases j (k + length w)) as [H2|H2].
    + rewrite decorated_name by lia.
      destruct (nth_error w (j - k)) as [c|] eqn:E.
      * exists c. split; [reflexivity|]. apply nth_error_In in E.
        now apply (proj1 (Forall_forall _ _) Hword).
      * apply nth_error_None in E. lia.
    + exists underscore. split; [apply decorated_after; lia|reflexivity].
Qed.

Lemma decorated_run k w n :
  bareName w -> run (N.eqb underscore) (decorated k w n) = k.
Proof.
  intros Hw. unfold decorated, underscores.
  induction k as [|k' IH]; cbn [repeat app run].
  - destruct (bareName_first w Hw) as [c [w' [-> [_ Hne]]]].
    cbn [app run]. replace (N.eqb underscore c) with false; [reflexivity|].
    symmetry. apply N.eqb_neq. congruence.
  - change (N.eqb underscore (chr "_")) with true. cbv iota. now rewrite IH.
Qed.

(** No run of underscores from inside the name reaches the end of the
    name. *)
Lemma decorated_no_run k w n j e :
  bareName w ->
  j < k + length w -> k + length w <= e ->
  ~ (forall i, j <= i < e ->
       exists c, nth_error (decorated k w n) i = Some c /\ N.eqb underscore c = true).
Proof.
  intros Hw Hj He Hrun. pose proof (bareName_length w Hw) as Hlen.
  destruct (Nat.lt_ge_cases (k + length w - 1) j) as [H'|H']; [lia|].
  destruct (Hrun (k + length w - 1)) as [c [Hc Hp]]; [lia|].
  rewrite decorated_name in Hc by lia. apply N.eqb_eq in Hp. subst c.
  apply (bareName_last w Hw).
  now replace (length w - 1) with (k + length w - 1 - k) by lia.
Qed.

Lemma same_head (l : list nat) (x : nat) :
  In x l -> (forall e, In e l -> e = x) -> exists l', l = x :: l'.
Proof.
  destruct l as [|y l]; [contradiction|]. intros _ H.
  exists l. f_equal. apply H. now left.
Qed.

Lemma ends_seq_bol_later r s j : j <> 0 -> ends (Seq Bol r) s j = [].
Proof.
  intros Hj. cbn [ends]. destruct (j =? 0) eqn:E; [|reflexivity].
  apply Nat.eqb_eq in E. contradiction.
Qed.

Lemma ends_seq_bol_0 r s : ends (Seq Bol r) s 0 = ends r s 0.
Proof. cbn [ends]. cbn. apply app_nil_r. Qed.

Lemma ends_alt r1 r2 s i : ends (Alt r1 r2) s i = ends r1 s i ++ ends r2 s i.
Proof. reflexivity. Qed.

Lemma matchesFrom_S r s fuel i :
  matchesFrom r s (S fuel) i
  = match exec r s i with
    | None => []
    | Some (a, e) => (a, e) :: matchesFrom r s fuel (if e =? a then S e else e)
    end.
Proof. reflexivity. Qed.

Lemma matchAll_more_fuel r s :
  matchAll r s = matchesFrom r s (S (S (S (S (length s))))) 0.
Proof. unfold matchAll. apply matchesFrom_fuel; lia. Qed.

Lemma substitute_cons f s pos i e ms :
  pos <= i ->
  substitute f s pos ((i, e) :: ms)
  = substring s pos i ++ f (substring s i e) ++ substitute f s e ms.
Proof.
  intros H. cbn [substitute].
  now replace (pos <=? i) with true by (symmetry; apply Nat.leb_le; lia).
Qed.

Lemma substring_same s i : substring s i i = [].
Proof. unfold substring. now rewrite Nat.sub_diag. Qed.

Lemma substring_decorated k w n :
  substring (decorated k w n) k (k + length w) = w.
Proof.
  unfold substring, decorated, underscores.
  replace (k + length w - k) with (length w + 0) by lia.
  rewrite skipn_app, repeat_length, Nat.sub_diag, skipn_all2
    by (rewrite repeat_length; lia).
  cbn [skipn app]. rewrite firstn_app_2. cbn [firstn]. apply app_nil_r.
Qed.

Lemma skipn_length (s : str) : skipn (length s) s = [].
Proof. apply skipn_all. Qed.

(** *** Underscores before the name, and perhaps after it *)

Lemma re_underscoresAround_matches k w n :
  bareName w -> 0 < k -> test re_underscoresAround (decorated k w n) = true.
Proof.
  intros Hw Hk. set (s := decorated k w n).
  pose proof (bareName_length w Hw) as Hlen.
  pose proof (decorated_length k w n) as Hs. fold s in Hs.
  unfold re_underscoresAround. cbn [cat]. rewrite test_bol.
  apply (nonempty_true _ (length s)).
  apply in_ends_seq. exists k. split.
  { unfold plus. apply in_ends_seq. exists 1. split.
    - apply in_ends_char_iff. split; [reflexivity|]. exists underscore.
      split; [apply decorated_before; lia|reflexivity].
    - apply (star_char_reach _ s k (k - 1)); [reflexivity|lia|].
      intros j Hj. exists underscore. split; [apply decorated_before; lia|reflexivity]. }
  apply in_ends_seq. exists (S k). split.
  { apply in_ends_char_iff. split; [reflexivity|].
    apply decorated_word; [assumption|fold s; lia]. }
  apply in_ends_seq. exists (length s). split.
  { apply (star_char_reach _ s (length s) (length s - S k)); [reflexivity|lia|].
    intros j Hj. apply decorated_word; [assumption|fold s; lia]. }
  apply in_ends_seq. exists (length s). split; [|now apply in_ends_eol].
  apply (star_char_reach _ s (length s) 0); [lia|lia|]. intros j Hj. lia.
Qed.

Lemma stripAround_first k w n :
  bareName w -> 0 < k ->
  exists l, ends re_stripAround (decorated k w n) 0 = k :: l.
Proof.
  intros Hw Hk. unfold re_stripAround. rewrite ends_alt, ends_seq_bol_0.
  destruct (ends_plus_char_head (N.eqb underscore) (decorated k w n) 0 underscore) as [l E];
    [apply decorated_before; lia|reflexivity|].
  change (lit "_") with (Char (N.eqb underscore)). rewrite E.
  cbn [skipn]. rewrite (decorated_run k w n Hw). cbn [Nat.add app].
  now eexists.
Qed.

Lemma stripAround_inside k w n j :
  bareName w -> 0 < k -> k <= j < k + length w ->
  ends re_stripAround (decorated k w n) j = [].
Proof.
  intros Hw Hk Hj. unfold re_stripAround.
  rewrite ends_alt, ends_seq_bol_later by lia. cbn [app].
  apply nil_of_none. intros e He.
  apply in_ends_seq in He. destruct He as [m [Hm He]].
  apply in_ends_eol in He. destruct He as [_ ->].
  apply in_ends_star_char in Hm. destruct Hm as [_ Hrun].
  apply (decorated_no_run k w n j (length (decorated k w n)) Hw); [lia| |assumption].
  rewrite decorated_length. lia.
Qed.

Lemma stripAround_tail k w n j :
  0 < k -> k + length w <= j <= length (decorated k w n) ->
  exists l, ends re_stripAround (decorated k w n) j
            = length (decorated k w n) :: l.
Proof.
  intros Hk Hj. unfold re_stripAround.
  rewrite ends_alt, ends_seq_bol_later by lia. cbn [app].
  apply same_head.
  - apply in_ends_seq. exists (length (decorated k w n)).
    split; [|now apply in_ends_eol].
    apply (star_char_reach _ _ _ (length (decorated k w n) - j)); [reflexivity|lia|].
    intros i Hi. exists underscore. split; [|reflexivity].
    apply decorated_after. rewrite decorated_length in *. lia.
  - intros e He. apply in_ends_seq in He. destruct He as [m [_ He]].
    apply in_ends_eol in He. lia.
Qed.

Lemma replaceAll_stripAround k w n :
  bareName w -> 0 < k -> replaceAll re_stripAround erase (decorated k w n) = w.
Proof.
  intros Hw Hk. set (s := decorated k w n).
  pose proof (bareName_length w Hw) as Hlen.
  pose proof (decorated_length k w n) as Hs. fold s in Hs.
  destruct (stripAround_first k w n Hw Hk) as [l0 E0]. fold s in E0.
  assert (X0 : exec re_stripAround s 0 = Some (0, k))
    by (apply (exec_at _ _ 0 0 k l0); [lia|lia|intros j Hj; lia|assumption]).
  destruct (stripAround_tail k w n (k + length w) Hk) as [l1 E1];
    [fold s; lia|]. fold s in E1.
  assert (X1 : exec re_stripAround s k = Some (k + length w, length s)).
  { apply (exec_at _ _ k (k + length w) (length s) l1); [lia|lia| |assumption].
    intros j Hj. now apply stripAround_inside. }
  assert (X3 : exec re_stripAround s (S (length s)) = None)
    by (apply exec_beyond; lia).
  unfold replaceAll. rewrite matchAll_more_fuel.
  rewrite matchesFrom_S, X0.
  replace (k =? 0) with false by (symmetry; apply Nat.eqb_neq; lia).
  rewrite matchesFrom_S, X1.
  rewrite substitute_cons by lia. rewrite substring_same. cbn [erase app].
  rewrite substitute_cons by lia. fold s.
  unfold s at 1. rewrite substring_decorated. fold s. cbn [erase app].
  destruct (length s =? k + length w) eqn:En.
  - rewrite matchesFrom_S, X3. cbn [substitute].
    rewrite skipn_length. apply app_nil_r.
  - apply Nat.eqb_neq in En.
    destruct (stripAround_tail k w n (length s) Hk) as [l2 E2];
      [fold s; lia|]. fold s in E2.
    assert (X2 : exec re_stripAround s (length s) = Some (length s, length s))
      by (apply (exec_at _ _ _ (length s) (length s) l2);
          [lia|lia|intros j Hj; lia|assumption]).
    rewrite matchesFrom_S, X2, Nat.eqb_refl, matchesFrom_S, X3.
    rewrite substitute_cons by lia. rewrite substring_same. cbn [erase app substitute].
    rewrite skipn_length. apply app_nil_r.
Qed.

(** *** Underscores after the name only *)

Lemma re_underscoresAfter_matches w n :
  bareName w -> 0 < n -> test re_underscoresAfter (decorated 0 w n) = true.
Proof.
  intros Hw Hn. set (s := decorated 0 w n).
  pose proof (bareName_length w Hw) as Hlen.
  pose proof (decorated_length 0 w n) as Hs. fold s in Hs.
  unfold re_underscoresAfter. cbn [cat]. rewrite test_bol.
  apply (nonempty_true _ (length s)).
  apply in_ends_seq. exists 0. split.
  { apply (star_char_reach _ s 0 0); [lia|lia|]. intros j Hj. lia. }
  apply in_ends_seq. exists 1. split.
  { apply in_ends_char_iff. split; [reflexivity|].
    apply decorated_word; [assumption|fold s; lia]. }
  apply in_ends_seq. exists (length w). split.
  { apply (star_char_reach _ s (length w) (length w - 1)); [reflexivity|lia|].
    intros j Hj. apply decorated_word; [assumption|fold s; lia]. }
  apply in_ends_seq. exists (length s). split; [|now apply in_ends_eol].
  unfold plus. apply in_ends_seq. exists (S (length w)). split.
  - apply in_ends_char_iff. split; [reflexivity|]. exists underscore.
    split; [apply decorated_after; lia|reflexivity].
  - apply (star_char_reach _ s (length s) (length s - S (length w)));
      [reflexivity|lia|].
    intros j Hj. exists underscore. split; [apply decorated_after; lia|reflexivity].
Qed.

Lemma stripAfter_first w n :
  bareName w -> exists l, ends re_stripAfter (decorated 0 w n) 0 = 0 :: l.
Proof.
  intros Hw. unfold re_stripAfter. rewrite ends_alt, ends_seq_bol_0.
  change (lit "_") with (Char (N.eqb underscore)).
  destruct (ends_star_char_head (N.eqb underscore) (decorated 0 w n) 0) as [l E].
  rewrite E. cbn [skipn]. rewrite (decorated_run 0 w n Hw). cbn [Nat.add app].
  now eexists.
Qed.

Lemma stripAfter_inside w n j :
  bareName w -> 1 <= j < length w -> ends re_stripAfter (decorated 0 w n) j = [].
Proof.
  intros Hw Hj. unfold re_stripAfter.
  rewrite ends_alt, ends_seq_bol_later by lia. cbn [app].
  apply nil_of_none. intros e He.
  apply in_ends_seq in He. destruct He as [m [Hm He]].
  apply in_ends_eol in He. destruct He as [_ ->].
  apply in_ends_plus_char in Hm. destruct Hm as [_ Hrun].
  apply (decorated_no_run 0 w n j (length (decorated 0 w n)) Hw); [lia| |assumption].
  rewrite decorated_length. lia.
Qed.

Lemma stripAfter_tail w n :
  bareName w -> 0 < n ->
  exists l, ends re_stripAfter (decorated 0 w n) (length w)
            = length (decorated 0 w n) :: l.
Proof.
  intros Hw Hn. pose proof (bareName_length w Hw) as Hlen.
  pose proof (decorated_length 0 w n) as Hs.
  unfold re_stripAfter.
  rewrite ends_alt, ends_seq_bol_later by lia. cbn [app].
  apply same_head.
  - apply in_ends_seq. exists (length (decorated 0 w n)).
    split; [|now apply in_ends_eol].
    unfold plus. apply in_ends_seq. exists (S (length w)). split.
    + apply in_ends_char_iff. split; [reflexivity|]. exists underscore.
      split; [apply decorated_after; lia|reflexivity].
    + apply (star_char_reach _ _ _ (length (decorated 0 w n) - S (length w)));
        [reflexivity|lia|].
      intros i Hi. exists underscore. split; [apply decorated_after; lia|reflexivity].
  - intros e He. apply in_ends_seq in He. destruct He as [m [_ He]].
    apply in_ends_eol in He. lia.
Qed.

Lemma stripAfter_end w n j :
  bareName w -> length (decorated 0 w n) <= j ->
  ends re_stripAfter (decorated 0 w n) j = [].
Proof.
  intros Hw Hj. pose proof (bareName_length w Hw) as Hlen.
  pose proof (decorated_length 0 w n) as Hs.
  unfold re_stripAfter.
  rewrite ends_alt, ends_seq_bol_later by lia. cbn [app].
  apply nil_of_none. intros e He.
  apply in_ends_seq in He. destruct He as [m [Hm _]].
  apply in_ends_plus_char in Hm. destruct Hm as [Hlt Hrun].
  destruct (Hrun j) as [c [Hc _]]; [lia|].
  assert (j < length (decorated 0 w n)) by (apply nth_error_Some; congruence).
  lia.
Qed.

Lemma replaceAll_stripAfter w n :
  bareName w -> 0 < n -> replaceAll re_stripAfter erase (decorated 0 w n) = w.
Proof.
  intros Hw Hn. set (s := decorated 0 w n).
  pose proof (bareName_length w Hw) as Hlen.
  pose proof (decorated_length 0 w n) as Hs. fold s in Hs.
  destruct (stripAfter_first w n Hw) as [l0 E0]. fold s in E0.
  assert (X0 : exec re_stripAfter s 0 = Some (0, 0))
    by (apply (exec_at _ _ 0 0 0 l0); [lia|lia|intros j Hj; lia|assumption]).
  destruct (stripAfter_tail w n Hw Hn) as [l1 E1]. fold s in E1.
  assert (X1 : exec re_stripAfter s 1 = Some (length w, length s)).
  { apply (exec_at _ _ 1 (length w) (length s) l1); [lia|lia| |assumption].
    intros j Hj. now apply stripAfter_inside. }
  assert (X2 : exec re_stripAfter s (length s) = None).
  { apply exec_none_from. intros j Hj. apply stripAfter_end; [assumption|]. fold s. lia. }
  unfold replaceAll. rewrite matchAll_more_fuel.
  rewrite matchesFrom_S, X0. cbn [Nat.eqb].
  rewrite matchesFrom_S, X1.
  replace (length s =? length w) with false by (symmetry; apply Nat.eqb_neq; lia).
  rewrite matchesFrom_S, X2.
  rewrite substitute_cons by lia. rewrite substring_same. cbn [erase app].
  rewrite substitute_cons by lia. cbn [erase app substitute].
  pose proof (substring_decorated 0 w n) as Hsub. cbn [Nat.add] in Hsub.
  fold s in Hsub. rewrite Hsub, skipn_length. apply app_nil_r.
Qed.

Lemma startsWith_decorated_0 w n :
  bareName w -> startsWith (decorated 0 w n) (units "_") = false.
Proof.
  intros Hw. destruct (bareName_first w Hw) as [c [w' [-> [_ Hne]]]].
  unfold decorated, underscores. cbn [repeat app].
  destruct (startsWith (c :: w' ++ repeat (chr "_") n) (units "_")) eqn:E;
    [|reflexivity].
  change (units "_") with [underscore] in E. apply startsWith_nth in E.
  injection E as ->. congruence.
Qed.

(** The base name of a name between underscores. *)
Lemma baseNameOf_decorated k w n :
  bareName w -> 0 < k + n -> baseNameOf (decorated k w n) = w.
Proof.
  intros Hw Hkn. pose proof (bareName_length w Hw) as Hlen.
  unfold baseNameOf. destruct k as [|k].
  - rewrite (re_underscoresAround_start _ (startsWith_decorated_0 w n Hw)).
    rewrite re_underscoresAfter_matches by (assumption || lia).
    rewrite replaceAll_stripAfter by (assumption || lia).
    destruct w as [|c w']; [simpl in Hlen; lia|].
    cbn [truthy negb andb]. now rewrite ?andb_false_r.
  - rewrite re_underscoresAround_matches by (assumption || lia).
    rewrite replaceAll_stripAround by (assumption || lia).
    destruct w as [|c w']; [simpl in Hlen; lia|].
    cbn [truthy negb andb]. now rewrite ?andb_false_r.
Qed.

(** X21. A member variable named by a name of word units that neither
    starts nor ends with an underscore, with underscores before it, after it
    or both, has that name as its base name and as the name of its getter;
    its setter is [set] followed by the capitalized name. *)
Theorem accessor_names_of_an_underscored_member
    (this : CSymbol) (k n : nat) (w : str) :
  isMemberVariable this = true ->
  id this = decorated k w n ->
  0 < k + n ->
  bareName w ->
  baseName this = w
  /\ getterName this = w
  /\ setterName this = units "set" ++ firstCharToUpper w.
Proof.
  intros Hm Hid Hkn Hw.
  assert (Hb : baseName this = w)
    by (unfold baseName; rewrite Hid; now apply baseNameOf_decorated).
  split; [assumption|].
  rewrite (getterName_unfold this Hm), (setterName_unfold this Hm), Hb, Hid.
  split; [|reflexivity].
  replace (str_eqb w (decorated k w n)) with false; [reflexivity|].
  symmetry. apply str_eqb_neq. intros E.
  apply (f_equal (@length N)) in E. rewrite decorated_length in E. lia.
Qed.

Lemma accessor_names_of_an_underscored_member_witness :
  baseName sym_value = units "value"
  /\ getterName sym_value = units "value"
  /\ setterName sym_value = units "set" ++ firstCharToUpper (units "value").
Proof.
  apply (accessor_names_of_an_underscored_member sym_value 1 1 (units "value"));
    try reflexivity.
  - simpl. lia.
  - repeat split; try reflexivity; [discriminate|repeat constructor].
Defined.

(* ------------------------------------------------------------------ *)
(** ** The header guard of a document *)

(** A literal word matches its units. *)
Lemma in_ends_lits (l : list ascii) (s : str) :
  forall i e,
    In e (ends (cat (map lit l)) s i) <->
    e = i + length l /\ firstn (length l) (skipn i s) = map chr l.
Proof.
  induction l as [|a l IH]; intros i e.
  - cbn. split; [intros [<-|[]]; split; [lia|reflexivity]|intros [-> _]; left; lia].
  - assert (Hchar : forall e', In e' (ends (lit a) s i) <->
                               e' = S i /\ nth_error s i = Some (chr a)).
    { intros e'. unfold lit. rewrite in_ends_char_iff. split.
      - intros [-> [c [Hc Hp]]]. apply N.eqb_eq in Hp. now subst.
      - intros [-> Hc]. split; [reflexivity|]. exists (chr a).
        split; [assumption|apply N.eqb_refl]. }
    assert (Hstep : forall e',
               (exists j, In j (ends (lit a) s i) /\
                          e' = j + length l
                          /\ firstn (length l) (skipn j s) = map chr l) <->
               e' = i + length (a :: l)
               /\ firstn (length (a :: l)) (skipn i s) = map chr (a :: l)).
    { intros e'. cbn [length map]. rewrite (skipn_nth_error s i). split.
      - intros [j [Hj [-> Hf]]]. apply Hchar in Hj. destruct Hj as [-> Hc].
        rewrite Hc. cbn [firstn]. rewrite Hf. split; [lia|reflexivity].
      - intros [-> Hf]. exists (S i).
        destruct (nth_error s i) as [c|] eqn:Ec; [|discriminate].
        cbn [firstn] in Hf. injection Hf as -> Hf.
        split; [now apply Hchar|]. split; [lia|assumption]. }
    destruct l as [|b l].
    + cbn [map cat]. rewrite Hchar. rewrite <- Hstep. split.
      * intros [-> Hc]. exists (S i). split; [now apply Hchar|].
        split; [simpl; lia|reflexivity].
      * intros [j [Hj [-> _]]]. apply Hchar in Hj. destruct Hj as [-> Hc].
        split; [simpl; lia|assumption].
    + change (cat (map lit (a :: b :: l)))
        with (Seq (lit a) (cat (map lit (b :: l)))).
      rewrite in_ends_seq. rewrite <- Hstep. split.
      * intros [j [Hj He]]. exists j. split; [assumption|]. now apply IH.
      * intros [j [Hj He]]. exists j. split; [assumption|]. now apply IH.
Qed.

Lemma in_ends_word (a : string) (s : str) (i e : nat) :
  In e (ends (word a) s i) <->
  e = i + length (units a) /\ firstn (length (units a)) (skipn i s) = units a.
Proof.
  unfold word, units. rewrite in_ends_lits, length_map. reflexivity.
Qed.

Lemma run_Forall (p : N -> bool) (s : str) (i e : nat) :
  (forall j, i <= j < e -> exists c, nth_error s j = Some c /\ p c = true) ->
  Forall (fun c => p c = true) (firstn (e - i) (skipn i s)).
Proof.
  intros Hrun. apply Forall_forall. intros x Hx.
  apply In_nth_error in Hx. destruct Hx as [m Hm].
  assert (Hlt : m < e - i).
  { assert (H : m < length (firstn (e - i) (skipn i s)))
      by (apply nth_error_Some; congruence).
    rewrite length_firstn in H. lia. }
  rewrite nth_error_firstn in Hm.
  replace (m <? e - i) with true in Hm by (symmetry; apply Nat.ltb_lt; lia).
  rewrite nth_error_skipn_add in Hm.
  destruct (Hrun (i + m)) as [c [Hc Hp]]; [lia|]. congruence.
Qed.

Lemma skipn_app_length (a b : str) : skipn (length a) (a ++ b) = b.
Proof. rewrite skipn_app, skipn_all, Nat.sub_diag. reflexivity. Qed.

Lemma firstn_app_length (a b : str) : firstn (length a) (a ++ b) = a.
Proof.
  replace (length a) with (length a + 0) by lia.
  rewrite firstn_app_2. cbn [firstn]. apply app_nil_r.
Qed.


Lemma Forall_nth (p : N -> bool) (l : str) (j : nat) :
  Forall (fun c => p c = true) l -> j < length l ->
  exists c, nth_error l j = Some c /\ p c = true.
Proof.
  intros H Hj. destruct (nth_error l j) as [c|] eqn:E.
  - exists c. split; [reflexivity|]. apply nth_error_In in E.
    now apply (proj1 (Forall_forall _ _) H).
  - apply nth_error_None in E. lia.
Qed.

Lemma skipn_firstn_split (s : str) (i n : nat) :
  skipn i s = firstn n (skipn i s) ++ skipn (i + n) s.
Proof.
  rewrite <- (firstn_skipn n (skipn i s)) at 1. f_equal.
  rewrite skipn_skipn. f_equal. lia.
Qed.

Lemma in_ends_wordBoundary_after (s : str) (j e : nat) :
  word_at s j = true ->
  (In e (ends WordBoundary s (S j)) <-> e = S j /\ word_at s (S j) = false).
Proof.
  intros Hw. cbn [ends]. rewrite Hw.
  destruct (word_at s (S j)); cbn [xorb].
  - split; [intros []|intros [_ H]; discriminate].
  - split; [intros [<-|[]]; now split|intros [-> _]; now left].
Qed.

Lemma re_pragmaOnce_sound (s : str) :
  test re_pragmaOnce s = true -> StartsWithPragmaOnce s.
Proof.
  unfold re_pragmaOnce. cbn [cat]. rewrite test_bol. intros H.
  destruct (ends (Seq (Star (Char is_space))
                   (Seq (word "#pragma")
                      (Seq (plus (Char is_space)) (Seq (word "once") WordBoundary))))
              s 0) as [|e l] eqn:E; [discriminate|]. clear H.
  assert (He : In e (e :: l)) by now left. rewrite <- E in He. clear E l.
  apply in_ends_seq in He. destruct He as [k1 [H1 He]].
  apply in_ends_seq in He. destruct He as [k2 [H2 He]].
  apply in_ends_seq in He. destruct He as [k3 [H3 He]].
  apply in_ends_seq in He. destruct He as [k4 [H4 He]].
  apply in_ends_star_char in H1. destruct H1 as [_ R1].
  apply in_ends_word in H2. destruct H2 as [-> P2].
  apply in_ends_plus_char in H3. destruct H3 as [L3 R3].
  apply in_ends_word in H4. destruct H4 as [-> P4].
  change (length (units "#pragma")) with 7 in *.
  change (length (units "once")) with 4 in *.
  exists (firstn k1 s), (firstn (k3 - (k1 + 7)) (skipn (k1 + 7) s)),
         (skipn (k3 + 4) s).
  split; [|split; [|split; [|split]]].
  - pose proof (skipn_firstn_split s k1 7) as E2. rewrite P2 in E2.
    pose proof (skipn_firstn_split s (k1 + 7) (k3 - (k1 + 7))) as E3.
    replace (k1 + 7 + (k3 - (k1 + 7))) with k3 in E3 by lia.
    pose proof (skipn_firstn_split s k3 4) as E4. rewrite P4 in E4.
    rewrite <- E4, <- E3, <- E2. symmetry. apply firstn_skipn.
  - pose proof (run_Forall is_space s 0 k1 R1) as H.
    now rewrite Nat.sub_0_r in H.
  - destruct (R3 (k1 + 7)) as [c [Hc _]]; [lia|].
    rewrite (skipn_nth_error s (k1 + 7)), Hc.
    destruct (k3 - (k1 + 7)) eqn:Ek; [lia|]. discriminate.
  - now apply run_Forall.
  - assert (Hlast : word_at s (k3 + 3) = true).
    { unfold word_at. rewrite <- nth_error_skipn_add.
      rewrite (skipn_firstn_split s k3 4), P4. reflexivity. }
    replace (k3 + 4) with (S (k3 + 3)) in He by lia.
    apply (in_ends_wordBoundary_after s (k3 + 3) e Hlast) in He.
    destruct He as [_ He]. unfold word_at in He.
    replace (k3 + 4) with (S (k3 + 3)) by lia.
    rewrite (skipn_nth_error s (S (k3 + 3))).
    destruct (nth_error s (S (k3 + 3))); [assumption|exact I].
Qed.

Lemma re_pragmaOnce_complete (s : str) :
  StartsWithPragmaOnce s -> test re_pragmaOnce s = true.
Proof.
  intros [ws [ws' [rest [-> [Hws [Hne [Hws' Hrest]]]]]]].
  unfold re_pragmaOnce. cbn [cat]. rewrite test_bol.
  set (s := ws ++ units "#pragma" ++ ws' ++ units "once" ++ rest).
  set (k1 := length ws). set (k3 := k1 + 7 + length ws').
  assert (Hlen' : 0 < length ws') by (destruct ws'; [congruence|simpl; lia]).
  assert (S1 : skipn k1 s = units "#pragma" ++ ws' ++ units "once" ++ rest)
    by apply skipn_app_length.
  assert (S2 : skipn (k1 + 7) s = ws' ++ units "once" ++ rest).
  { replace (k1 + 7) with (7 + k1) by lia. rewrite <- skipn_skipn, S1. reflexivity. }
  assert (S3 : skipn k3 s = units "once" ++ rest).
  { unfold k3. replace (k1 + 7 + length ws') with (length ws' + (k1 + 7)) by lia.
    rewrite <- skipn_skipn, S2. apply skipn_app_length. }
  apply (nonempty_true _ (k3 + 4)).
  apply in_ends_seq. exists k1. split.
  { apply (star_char_reach _ s k1 k1); [lia|lia|].
    intros j Hj. unfold s. rewrite nth_error_app1 by (fold k1; lia).
    apply Forall_nth; [assumption|fold k1; lia]. }
  apply in_ends_seq. exists (k1 + 7). split.
  { apply in_ends_word. split; [reflexivity|]. rewrite S1. reflexivity. }
  apply in_ends_seq. exists k3. split.
  { assert (R : forall j, k1 + 7 <= j < k3 ->
                          exists c, nth_error s j = Some c /\ is_space c = true).
    { intros j Hj. rewrite <- (Nat.sub_add (k1 + 7) j) by lia.
      rewrite Nat.add_comm, <- nth_error_skipn_add, S2.
      rewrite nth_error_app1 by (unfold k3 in Hj; lia).
      apply Forall_nth; [assumption|unfold k3 in Hj; lia]. }
    unfold plus. apply in_ends_seq. exists (S (k1 + 7)). split.
    - apply in_ends_char_iff. split; [reflexivity|]. apply R. unfold k3. lia.
    - apply (star_char_reach _ s k3 (k3 - S (k1 + 7))); [reflexivity|unfold k3; lia|].
      intros j Hj. apply R. lia. }
  apply in_ends_seq. exists (k3 + 4). split.
  { apply in_ends_word. split; [reflexivity|]. rewrite S3. reflexivity. }
  replace (k3 + 4) with (S (k3 + 3)) by lia.
  apply in_ends_wordBoundary_after.
  - unfold word_at. rewrite <- nth_error_skipn_add, S3. reflexivity.
  - split; [reflexivity|]. unfold word_at.
    replace (S (k3 + 3)) with (k3 + 4) by lia.
    rewrite <- nth_error_skipn_add, S3. cbn.
    destruct rest; [reflexivity|assumption].
Qed.

Section Guard.

Variable sort : forall A : Type, (A -> A -> Z) -> list A -> list A.
Variable host : Host.
Variable headerGuardDefine : str -> str.
Variable fileName : str -> str.

(** X22. [hasHeaderGuard] answers yes exactly when the text of the document
    starts, after white space only, with [#pragma], white space and [once]
    with no word unit after it, or when a symbol at the top level of the
    tree of the document has the name of the guard that the configuration
    derives from the name of the file. A [#pragma once] that follows
    anything else than white space, and a symbol of that name below the top
    level, do not count. *)
Theorem hasHeaderGuard_by_pragma_or_symbol (this : SourceDocument) :
  hasHeaderGuard sort host headerGuardDefine fileName this = true
  <-> StartsWithPragmaOnce (sd_text this)
      \/ exists symbol,
           In symbol (symbolsOf sort host this)
           /\ s_name symbol = headerGuardDefine (fileName (path (sd_uri this))).
Proof.
  unfold hasHeaderGuard.
  destruct (test re_pragmaOnce (sd_text this)) eqn:E.
  - split; [intros _; left; now apply re_pragmaOnce_sound|reflexivity].
  - rewrite existsb_exists. split.
    + intros [symbol [Hin Hn]]. right. exists symbol.
      split; [assumption|now apply str_eqb_eq].
    + intros [H|[symbol [Hin Hn]]].
      * apply re_pragmaOnce_complete in H. congruence.
      * exists symbol. split; [assumption|now apply str_eqb_eq].
Qed.

End Guard.

(* ------------------------------------------------------------------ *)
(** ** Qualifiers of a declaration *)

Lemma test_iff r s :
  test r s = true <-> exists i e, i <= length s /\ In e (ends r s i).
Proof.
  split.
  - unfold test. destruct (exec r s 0) as [[a e]|] eqn:E; [|discriminate].
    intros _. apply exec_some in E. destruct E as [_ [Ha [He Hin]]].
    exists a, e. split; [lia|assumption].
  - intros [i [e [Hi He]]]. now apply (test_true r s i e).
Qed.

Lemma wordBoundary_between (pre post : str) (e : nat) :
  In e (ends WordBoundary (pre ++ post) (length pre)) <->
  e = length pre /\ xorb (lastIsWord pre) (firstIsWord post) = true.
Proof.
  assert (E1 : match length pre with
               | 0 => false
               | S j => word_at (pre ++ post) j
               end = lastIsWord pre).
  { unfold lastIsWord. destruct pre as [|c pre] using rev_ind; [reflexivity|].
    rewrite rev_app_distr, length_app, Nat.add_1_r. cbn [rev app firstIsWord].
    unfold word_at. rewrite <- app_assoc. rewrite nth_error_app2, Nat.sub_diag by lia.
    reflexivity. }
  assert (E2 : word_at (pre ++ post) (length pre) = firstIsWord post).
  { unfold word_at. rewrite nth_error_app2, Nat.sub_diag by lia.
    now destruct post. }
  cbn [ends]. rewrite E1, E2.
  destruct (xorb (lastIsWord pre) (firstIsWord post)).
  - split; [intros [<-|[]]; now split|intros [-> _]; now left].
  - split; [intros []|intros [_ H]; discriminate].
Qed.

Lemma firstIsWord_app (w post : str) :
  w <> [] -> firstIsWord (w ++ post) = firstIsWord w.
Proof. destruct w; [congruence|reflexivity]. Qed.

Lemma lastIsWord_app (pre w : str) :
  w <> [] -> lastIsWord (pre ++ w) = lastIsWord w.
Proof.
  intros Hw. unfold lastIsWord. rewrite rev_app_distr. apply firstIsWord_app.
  intros E. apply (f_equal (@rev N)) in E. rewrite rev_involutive in E. contradiction.
Qed.

(** A word of word units starts and ends with a word unit. *)
Lemma word_ends (w : str) :
  w <> [] -> Forall (fun c => is_word c = true) w ->
  firstIsWord w = true /\ lastIsWord w = true.
Proof.
  intros Hw Hword. split.
  - destruct w as [|c w]; [congruence|]. now apply Forall_cons_iff in Hword.
  - unfold lastIsWord. destruct (rev w) as [|c l] eqn:E.
    + apply (f_equal (@rev N)) in E. rewrite rev_involutive in E. contradiction.
    + cbn. apply (proj1 (Forall_forall _ _) Hword). apply in_rev. rewrite E. now left.
Qed.

(** Where a word between word boundaries matches. *)
Lemma in_ends_bounded (r : regex) (w : str) (pre rest : str) (e : nat) :
  w <> [] -> Forall (fun c => is_word c = true) w ->
  (forall s i e', In e' (ends r s i) ->
                  e' = i + length w /\ firstn (length w) (skipn i s) = w) ->
  In e (ends (cat [WordBoundary; r; WordBoundary]) (pre ++ rest) (length pre)) ->
  exists post,
    rest = w ++ post /\ lastIsWord pre = false /\ firstIsWord post = false.
Proof.
  intros Hw Hword Hr He. cbn [cat] in He.
  destruct (word_ends w Hw Hword) as [Hfirst Hlast].
  apply in_ends_seq in He. destruct He as [k1 [H1 He]].
  apply in_ends_seq in He. destruct He as [k2 [H2 He]].
  apply wordBoundary_between in H1. destruct H1 as [-> B1].
  apply Hr in H2. destruct H2 as [-> P2].
  rewrite skipn_app_length in P2.
  exists (skipn (length w) rest).
  assert (Erest : rest = w ++ skipn (length w) rest)
    by (rewrite <- P2 at 1; symmetry; apply firstn_skipn).
  split; [assumption|].
  rewrite Erest, firstIsWord_app, Hfirst in B1 by assumption.
  split; [now destruct (lastIsWord pre)|].
  rewrite Erest, app_assoc in He.
  replace (length pre + length w) with (length (pre ++ w)) in He
    by (rewrite length_app; reflexivity).
  apply wordBoundary_between in He. destruct He as [_ B2].
  rewrite lastIsWord_app, Hlast in B2 by assumption.
  now destruct (firstIsWord (skipn (length w) rest)).
Qed.

Lemma in_ends_bounded_at (r : regex) (w : str) (pre post : str) :
  w <> [] -> Forall (fun c => is_word c = true) w ->
  (forall s i, firstn (length w) (skipn i s) = w -> In (i + length w) (ends r s i)) ->
  lastIsWord pre = false -> firstIsWord post = false ->
  In (length pre + length w)
     (ends (cat [WordBoundary; r; WordBoundary]) (pre ++ w ++ post) (length pre)).
Proof.
  intros Hw Hword Hr Hpre Hpost. cbn [cat].
  destruct (word_ends w Hw Hword) as [Hfirst Hlast].
  apply in_ends_seq. exists (length pre). split.
  { apply wordBoundary_between. split; [reflexivity|].
    now rewrite firstIsWord_app, Hfirst, Hpre by assumption. }
  apply in_ends_seq. exists (length pre + length w). split.
  { apply Hr. rewrite skipn_app_length. apply firstn_app_length. }
  rewrite app_assoc.
  replace (length pre + length w) with (length (pre ++ w))
    by (rewrite length_app; reflexivity).
  apply wordBoundary_between. split; [reflexivity|].
  now rewrite lastIsWord_app, Hlast, Hpost by assumption.
Qed.

Lemma split_at (s : str) (i : nat) :
  i <= length s -> exists pre rest, s = pre ++ rest /\ length pre = i.
Proof.
  intros Hi. exists (firstn i s), (skipn i s).
  split; [symmetry; apply firstn_skipn|]. rewrite length_firstn. lia.
Qed.

(** A keyword is found exactly where it stands as a whole word. *)
Lemma re_keyword_WholeWord (w : string) (s : str) :
  units w <> [] -> Forall (fun c => is_word c = true) (units w) ->
  (test (re_keyword w) s = true <-> WholeWord (units w) s).
Proof.
  intros Hw Hword. rewrite test_iff. unfold re_keyword. split.
  - intros [i [e [Hi He]]].
    destruct (split_at s i Hi) as [pre [rest [-> <-]]].
    apply (in_ends_bounded _ (units w)) in He; try assumption.
    + destruct He as [post [-> [H1 H2]]]. now exists pre, post.
    + intros s i e' H. now apply in_ends_word in H.
  - intros [pre [post [-> [H1 H2]]]].
    exists (length pre), (length pre + length (units w)).
    split; [rewrite length_app; lia|].
    apply in_ends_bounded_at; try assumption.
    intros s i H. apply in_ends_word. now split.
Qed.

Lemma in_ends_bounded_alt r1 r2 s i e :
  In e (ends (cat [WordBoundary; Alt r1 r2; WordBoundary]) s i) <->
  In e (ends (cat [WordBoundary; r1; WordBoundary]) s i)
  \/ In e (ends (cat [WordBoundary; r2; WordBoundary]) s i).
Proof.
  cbn [cat]. rewrite !in_ends_seq. split.
  - intros [k1 [H1 He]]. apply in_ends_seq in He. destruct He as [k2 [H2 He]].
    rewrite ends_alt in H2. apply in_app_or in H2. destruct H2 as [H2|H2];
      [left|right]; exists k1; (split; [assumption|]);
      apply in_ends_seq; exists k2; now split.
  - intros [[k1 [H1 He]]|[k1 [H1 He]]];
      apply in_ends_seq in He; destruct He as [k2 [H2 He]];
      exists k1; (split; [assumption|]); apply in_ends_seq; exists k2;
      (split; [|assumption]); rewrite ends_alt; apply in_or_app; tauto.
Qed.

Lemma test_bounded_alts rs s :
  forall r,
    test (cat [WordBoundary; alts r rs; WordBoundary]) s = true <->
    Exists (fun r' => test (cat [WordBoundary; r'; WordBoundary]) s = true) (r :: rs).
Proof.
  induction rs as [|r' rs IH]; intros r.
  - cbn [alts]. rewrite Exists_cons, Exists_nil. tauto.
  - cbn [alts]. rewrite Exists_cons, <- IH, !test_iff. split.
    + intros [i [e [Hi He]]]. apply in_ends_bounded_alt in He.
      destruct He as [He|He]; [left|right]; now exists i, e.
    + intros [[i [e [Hi He]]]|[i [e [Hi He]]]]; exists i, e;
        (split; [assumption|]); apply in_ends_bounded_alt; tauto.
Qed.

Lemma primitiveTypes_keywords :
  Forall (fun w => units w <> [] /\ Forall (fun c => is_word c = true) (units w))
         ("void"%string :: primitiveTypes).
Proof. repeat constructor; discriminate. Qed.

Lemma re_primitiveType_WholeWord (s : str) :
  test re_primitiveType s = true <->
  exists w, In w ("void"%string :: primitiveTypes) /\ WholeWord (units w) s.
Proof.
  unfold re_primitiveType. rewrite test_bounded_alts.
  change (word "void" :: map word primitiveTypes)
    with (map word ("void"%string :: primitiveTypes)).
  rewrite Exists_map, Exists_exists.
  split; intros [w [Hin H]]; exists w; (split; [assumption|]);
    destruct (proj1 (Forall_forall _ _) primitiveTypes_keywords w Hin) as [Hw Hword];
    now apply (re_keyword_WholeWord w s Hw Hword).
Qed.

Lemma re_angleBracket_none (s : str) :
  test re_angleBracket s = false <-> ~ In (chr "<") s /\ ~ In (chr ">") s.
Proof.
  split.
  - intros H. assert (Hno : forall x, In x s -> N.eqb x (chr "<") || N.eqb x (chr ">") = false).
    { intros x Hx. destruct (N.eqb x (chr "<") || N.eqb x (chr ">")) eqn:E; [|reflexivity].
      apply In_nth_error in Hx. destruct Hx as [i Hi].
      assert (Hlt : i < length s) by (apply nth_error_Some; congruence).
      rewrite (test_true re_angleBracket s i (S i)) in H; [discriminate|lia|].
      apply in_ends_char_iff. split; [reflexivity|]. now exists x. }
    split; intros Hin; apply Hno in Hin; discriminate.
  - intros [H1 H2]. apply test_false. intros j _. apply nil_of_none. intros e He.
    apply in_ends_char in He. destruct He as [_ [c [Hc Hp]]].
    apply nth_error_In in Hc. apply orb_true_iff in Hp.
    destruct Hp as [Hp|Hp]; apply N.eqb_eq in Hp; subst c; contradiction.
Qed.

Lemma if_bool (b : bool) : (if b then true else false) = b.
Proof. now destruct b. Qed.

(** X23. The qualifier tests read the text of the symbol before its
    identifier: [isConstexpr], [isInline] and [isConst] answer yes exactly
    when their keyword occurs there as a whole word, with no word unit right
    before or after it; [isPointer] exactly when a star occurs there;
    [isPrimitive] exactly when the name of a primitive type occurs there as
    a whole word and no angle bracket occurs there. *)
Theorem qualifiers_are_whole_words_before_the_identifier (this : CSymbol) :
  (isConstexpr this = true <-> WholeWord (units "constexpr") (leading this))
  /\ (isInline this = true <-> WholeWord (units "inline") (leading this))
  /\ (isConst this = true <-> WholeWord (units "const") (leading this))
  /\ (isPointer this = true <-> In (chr "*") (leading this))
  /\ (isPrimitive this = true <->
      (exists w, In w ("void"%string :: primitiveTypes)
                 /\ WholeWord (units w) (leading this))
      /\ ~ In (chr "<") (leading this) /\ ~ In (chr ">") (leading this)).
Proof.
  unfold isConstexpr, isInline, isConst, isPointer, isPrimitive.
  cbv zeta. rewrite !if_bool.
  split; [apply re_keyword_WholeWord; [discriminate|repeat constructor]|].
  split; [apply re_keyword_WholeWord; [discriminate|repeat constructor]|].
  split; [apply re_keyword_WholeWord; [discriminate|repeat constructor]|].
  split.
  - split; [apply includes_unit_inv|apply includes_unit].
  - rewrite andb_true_iff, negb_true_iff, re_primitiveType_WholeWord,
      re_angleBracket_none. reflexivity.
Qed.

(* ------------------------------------------------------------------ *)
(** ** The definition of a declared function *)

Lemma startsWith_app (t b : str) : startsWith (t ++ b) t = true.
Proof.
  induction t as [|x t IH]; [apply startsWith_nil|].
  cbn [app startsWith]. now rewrite N.eqb_refl, IH.
Qed.

(** Where a text occurs, it is found there or before. *)
Lemma findFrom_occurs (t a b : str) :
  forall i, exists j, findFrom t (a ++ t ++ b) i = Some j /\ i <= j <= i + length a.
Proof.
  induction a as [|x a IH]; intros i.
  - exists i. cbn [app]. destruct (t ++ b) as [|y l] eqn:E.
    + cbn [findFrom]. rewrite <- E, startsWith_app. split; [reflexivity|simpl; lia].
    + cbn [findFrom]. rewrite <- E, startsWith_app. split; [reflexivity|simpl; lia].
  - cbn [app findFrom].
    destruct (startsWith (x :: a ++ t ++ b) t).
    + exists i. split; [reflexivity|simpl; lia].
    + destruct (IH (S i)) as [j [Hj Hb]]. exists j. split; [assumption|simpl; lia].
Qed.

(** A unit that does not occur before is found where it stands. *)
Lemma findFrom_unit (c : N) (a b : str) :
  ~ In c a -> forall i, findFrom [c] (a ++ c :: b) i = Some (i + length a).
Proof.
  induction a as [|x a IH]; intros Hno i.
  - cbn [app findFrom startsWith length]. rewrite N.eqb_refl, startsWith_nil.
    cbn. f_equal. lia.
  - cbn [app findFrom startsWith length].
    replace (N.eqb x c) with false.
    2:{ symmetry. apply N.eqb_neq. intros ->. apply Hno. now left. }
    cbn [andb]. rewrite IH by (intros H; apply Hno; now right). f_equal. lia.
Qed.

Lemma findFrom_none (t s : str) :
  includes s t = false -> forall i, findFrom t s i = None.
Proof.
  induction s as [|x s IH]; cbn [includes findFrom]; intros H i.
  - apply orb_false_iff in H. destruct H as [H _]. now rewrite H.
  - apply orb_false_iff in H. destruct H as [H1 H2]. rewrite H1. now apply IH.
Qed.

Lemma In_skipn (A : Type) (x : A) (k : nat) (l : list A) :
  In x (skipn k l) -> In x l.
Proof.
  intros H. rewrite <- (firstn_skipn k l). apply in_or_app. now right.
Qed.

Lemma clampIndex_nat (s : str) (i : nat) :
  i <= length s -> clampIndex s (Z.of_nat i) = i.
Proof. intros H. unfold clampIndex. rewrite Nat2Z.id. lia. Qed.

Lemma indexOfFrom_unit (c : N) (a b : str) (k : nat) :
  ~ In c a -> k <= length a ->
  indexOfFrom (a ++ c :: b) [c] (Z.of_nat k) = Z.of_nat (length a).
Proof.
  intros Hno Hk. unfold indexOfFrom.
  rewrite clampIndex_nat by (rewrite length_app; lia).
  rewrite skipn_app. replace (k - length a) with 0 by lia. cbn [skipn].
  rewrite findFrom_unit by (intros H; apply Hno; now apply In_skipn in H).
  rewrite length_skipn. f_equal. lia.
Qed.

Lemma indexOfFrom_occurs (t a b : str) :
  exists j, indexOfFrom (a ++ t ++ b) t 0 = Z.of_nat j /\ j <= length a.
Proof.
  unfold indexOfFrom. unfold clampIndex. cbn [Z.to_nat Nat.min skipn].
  destruct (findFrom_occurs t a b 0) as [j [Hj Hb]]. rewrite Hj.
  exists j. split; [reflexivity|lia].
Qed.

Lemma lastIndexOf_unit (c : N) (a b : str) :
  ~ In c b -> lastIndexOf (a ++ c :: b) c = Z.of_nat (length a).
Proof.
  intros Hno. unfold lastIndexOf.
  rewrite rev_app_distr. cbn [rev]. rewrite <- app_assoc. cbn [app].
  rewrite findFrom_unit by (intros H; apply Hno; now apply in_rev).
  rewrite length_rev, length_app. cbn [length]. f_equal. lia.
Qed.

Lemma substringZ_nat (s : str) (a b : nat) :
  a <= b -> b <= length s ->
  substringZ s (Z.of_nat a) (Z.of_nat b) = substring s a b.
Proof.
  intros Hab Hb. unfold substringZ.
  rewrite !clampIndex_nat by lia. now rewrite Nat.min_l, Nat.max_r by lia.
Qed.

Lemma substring_mid (pre mid post : str) :
  substring (pre ++ mid ++ post) (length pre) (length pre + length mid) = mid.
Proof.
  unfold substring. rewrite skipn_app_length.
  replace (length pre + length mid - length pre) with (length mid) by lia.
  apply firstn_app_length.
Qed.

Lemma substringZ_tail (pre rest : str) (c : N) :
  substringZ (pre ++ c :: rest) (Z.of_nat (length pre) + 1)
    (Z.of_nat (length (pre ++ c :: rest)) - 1)
  = match rest with [] => [c] | _ :: _ => removelast rest end.
Proof.
  unfold substringZ, clampIndex. rewrite length_app. cbn [length].
  destruct rest as [|x rest].
  - cbn [length].
    replace (Z.to_nat (Z.of_nat (length pre) + 1)) with (length pre + 1) by lia.
    replace (Z.to_nat (Z.of_nat (length pre + 1) - 1)) with (length pre) by lia.
    rewrite Nat.min_id, (Nat.min_l (length pre)), Nat.min_r, Nat.max_l by lia.
    unfold substring. rewrite skipn_app_length.
    now replace (length pre + 1 - length pre) with 1 by lia.
  - remember (x :: rest) as r eqn:Er.
    replace (Z.to_nat (Z.of_nat (length pre) + 1)) with (length pre + 1) by lia.
    replace (Z.to_nat (Z.of_nat (length pre + S (length r)) - 1))
      with (length pre + length r) by lia.
    rewrite (Nat.min_l (length pre + 1)), (Nat.min_l (length pre + length r)) by lia.
    assert (Hr : 1 <= length r) by (rewrite Er; cbn [length]; lia).
    rewrite Nat.min_l, Nat.max_r by lia.
    unfold substring.
    replace (pre ++ c :: r) with ((pre ++ [c]) ++ r) by (now rewrite <- app_assoc).
    replace (length pre + 1) with (length (pre ++ [c]))
      by (rewrite length_app; reflexivity).
    rewrite skipn_app_length.
    replace (length pre + length r - length (pre ++ [c])) with (length r - 1)
      by (rewrite length_app; cbn [length]; lia).
    rewrite Er at 1. rewrite <- Er. rewrite removelast_firstn_len.
    f_equal. unfold Nat.pred. destruct (length r); lia.
Qed.

(** A sequence that starts with a class of units needs a unit of the class. *)
Lemma in_ends_cat_char p rs s j e :
  In e (ends (cat (Char p :: rs)) s j) ->
  exists c, nth_error s j = Some c /\ p c = true.
Proof.
  destruct rs as [|r rs]; cbn [cat]; intros H.
  - apply in_ends_char_iff in H. tauto.
  - apply in_ends_seq in H. destruct H as [k [H _]].
    apply in_ends_char_iff in H. tauto.
Qed.

Lemma in_ends_lineStartAnchor s j e :
  In e (ends lineStartAnchor s j) ->
  e = j /\ (j = 0 \/ exists k c, j = S k /\ nth_error s k = Some c
                                 /\ is_line_terminator c = true).
Proof.
  unfold lineStartAnchor. rewrite ends_alt. intros H.
  apply in_app_or in H. destruct H as [H|H].
  - apply in_ends_bol in H. destruct H as [-> ->]. split; [reflexivity|now left].
  - apply in_ends_behind in H. destruct H as [-> [k [_ H]]].
    apply in_ends_char_iff in H. destruct H as [-> [c [Hc Hp]]].
    split; [reflexivity|]. right. now exists k, c.
Qed.

(** The alignment pattern finds nothing in a single line that does not
    start with a space. *)
Lemma replaceAll_newLineAlignment_none (n : nat) f (s : str) :
  0 < n ->
  (forall c, In c s -> is_line_terminator c = false) ->
  (forall c, nth_error s 0 = Some c -> c <> chr " ") ->
  replaceAll (re_newLineAlignment n) f s = s.
Proof.
  intros Hn Hline Hfirst. apply replaceAll_no_match. intros j _.
  apply nil_of_none. intros e H.
  destruct n as [|n]; [lia|]. unfold re_newLineAlignment in H.
  cbn [repeat] in H.
  change (cat (lineStartAnchor :: lit " " :: repeat (lit " ") n))
    with (Seq lineStartAnchor (cat (lit " " :: repeat (lit " ") n))) in H.
  apply in_ends_seq in H. destruct H as [k [Ha Hs]].
  apply in_ends_lineStartAnchor in Ha. destruct Ha as [-> Ha].
  destruct Ha as [->|[k [c [-> [Hc Ht]]]]].
  - apply in_ends_cat_char in Hs. destruct Hs as [c [Hc Hp]].
    apply N.eqb_eq in Hp. apply (Hfirst c Hc). now symmetry.
  - apply nth_error_In in Hc. rewrite (Hline c Hc) in Ht. discriminate.
Qed.

Lemma word_units_without (c : N) (w : str) :
  is_word c = false -> Forall (fun x => is_word x = true) w -> ~ In c w.
Proof.
  intros Hc Hw H. rewrite Forall_forall in Hw. apply Hw in H. congruence.
Qed.

Lemma leadingSpaces_le (s : str) : leadingSpaces s <= length s.
Proof.
  induction s as [|c s IH]; cbn [leadingSpaces length]; [lia|].
  destruct (is_space c); lia.
Qed.

(** The indentation of a line of the document, as line 470 measures it. *)
Lemma lineAt_leadingIndent (d : TextDocument) (n : nat) (l : TextLine) :
  lineAt d n = Some l ->
  length (substringZ (text l) 0 (Z.of_nat (firstNonWhitespaceCharacterIndex l)))
  = firstNonWhitespaceCharacterIndex l.
Proof.
  unfold lineAt. destruct (nth_error (doc_lines d) n) as [t|]; [|discriminate].
  intros H. inversion H; subst l. cbn [text firstNonWhitespaceCharacterIndex].
  pose proof (leadingSpaces_le t) as Hle.
  change 0%Z with (Z.of_nat 0). rewrite substringZ_nat by lia.
  unfold substring. cbn [skipn]. rewrite length_firstn. lia.
Qed.

Section DefinitionOfAPlainDeclaration.

Variable sort : forall A : Type, (A -> A -> Z) -> list A -> list A.
Variable host : Host.

(** X24. [CSymbol.newFunctionDefinition] on a plain declaration.  Let the
    text of a function declaration be the leading text, the name, an opening
    parenthesis, the parameters, a closing parenthesis and a rest, in one
    line and without comments, literals, templates, default values and
    trailing return type, and let the line of the declaration be indented or
    the leading text not be empty.  Then the result is, with every
    [override] and [final] erased: the leading text without its [virtual],
    [static], [explicit] and [friend], the scopes that the target does not
    hold, the name with the parameters in parentheses, and the rest without
    its last unit (the semicolon of the declaration).  When the text ends at
    the closing parenthesis, the rest is empty and [substring] swaps its
    two indices: the result then ends with a second closing parenthesis. *)
Theorem newFunctionDefinition_of_a_plain_declaration
    (this : CSymbol) (scopes : list CSymbol)
    (target : SourceDocument) (position : option Position)
    (leadingText funcName parameters rest : str) (l : TextLine) :
  isFunctionDeclaration this = true ->
  leading this = leadingText ->
  id this = funcName ->
  CSymbol_text this
  = leadingText ++ funcName ++ units "(" ++ parameters ++ units ")" ++ rest ->
  PlainDeclaration leadingText funcName parameters rest ->
  lineAt (document this) (line (start (range this))) = Some l ->
  0 < firstNonWhitespaceCharacterIndex l + length leadingText ->
  newFunctionDefinition sort host this scopes target position
  = Some (replaceAll re_overrideFinal erase
            (replaceAll re_specifiers erase leadingText
             ++ scopeStringFrom sort host target position scopes []
             ++ funcName ++ units "(" ++ parameters ++ units ")"
             ++ match rest with
                | [] => units ")"
                | _ :: _ => removelast rest
                end)).
Proof.
  intros Hdecl HL HI Htext [Hne [Hword [HnoL [HnoR [Hplain [Harrow [Heq Hpar]]]]]]]
    Hline Hindent.
  unfold newFunctionDefinition. rewrite Hdecl. cbn [negb].
  rewrite HL, HI, Htext, Hline.
  set (decl := leadingText ++ funcName ++ units "(" ++ parameters ++ units ")" ++ rest)
    in *.
  (* nothing is masked *)
  assert (Hmask : maskUnimportantText decl = decl).
  { unfold maskUnimportantText. change (units " ") with [chr " "].
    apply maskUnimportantTextWith_plain; intros H; apply Hplain in H; tauto. }
  rewrite Hmask.
  (* the name is found in or before its place *)
  destruct (indexOfFrom_occurs funcName leadingText
              (units "(" ++ parameters ++ units ")" ++ rest)) as [j [Hj Hjle]].
  fold decl in Hj. rewrite Hj.
  (* the parenthesis after it opens the parameters *)
  assert (HnoP : ~ In (chr "(") (leadingText ++ funcName)).
  { intros H. apply in_app_or in H. destruct H as [H|H]; [now apply HnoL|].
    revert H. now apply word_units_without. }
  assert (Hstart : indexOfFrom decl (units "(")
                     (Z.of_nat j + Z.of_nat (length funcName))
                   = Z.of_nat (length (leadingText ++ funcName))).
  { rewrite <- Nat2Z.inj_add. unfold decl. rewrite app_assoc.
    change (units "(" ++ parameters ++ units ")" ++ rest)
      with (chr "(" :: parameters ++ units ")" ++ rest).
    change (units "(") with [chr "("].
    apply indexOfFrom_unit; [exact HnoP|]. rewrite length_app. lia. }
  rewrite Hstart.
  set (pre := leadingText ++ funcName ++ units "(").
  assert (Epre : (Z.of_nat (length (leadingText ++ funcName)) + 1)%Z
                 = Z.of_nat (length pre)).
  { unfold pre. rewrite !length_app. cbn [length units]. 
    change (length (units "(")) with 1. lia. }
  rewrite Epre.
  (* the last parenthesis closes them *)
  assert (Edecl : decl = (pre ++ parameters) ++ chr ")" :: rest).
  { unfold decl, pre. now rewrite <- !app_assoc. }
  assert (Hlast : lastIndexOf decl (chr ")") = Z.of_nat (length (pre ++ parameters))).
  { rewrite Edecl. now apply lastIndexOf_unit. }
  rewrite Hlast.
  assert (Hparams : substringZ decl (Z.of_nat (length pre))
                      (Z.of_nat (length (pre ++ parameters))) = parameters).
  { rewrite substringZ_nat.
    - rewrite Edecl, <- app_assoc, length_app. apply substring_mid.
    - rewrite length_app. lia.
    - rewrite Edecl, !length_app. lia. }
  rewrite Hparams.
  (* no trailing return type *)
  assert (Hnoarrow : indexOfFrom parameters (units "->") 0 = (-1)%Z).
  { unfold indexOfFrom, clampIndex. cbn [Z.to_nat Nat.min skipn].
    now rewrite findFrom_none. }
  rewrite Hnoarrow. cbn [Z.eqb Pos.eqb].
  rewrite Hparams, (stripDefaultValues_unchanged parameters Heq Hpar).
  (* what follows the parameters *)
  assert (Htail : substringZ decl (Z.of_nat (length (pre ++ parameters)) + 1)
                    (Z.of_nat (length decl) - 1)
                  = match rest with [] => units ")" | _ :: _ => removelast rest end).
  { rewrite Edecl. apply substringZ_tail. }
  rewrite Htail.
  (* a single line is not aligned *)
  rewrite replaceAll_newLineAlignment_none; [reflexivity| | | ].
  - rewrite (lineAt_leadingIndent _ _ _ Hline). exact Hindent.
  - intros c Hc. 
    assert (Hin : In c decl \/ c = chr ")").
    { unfold decl. repeat (apply in_app_or in Hc; destruct Hc as [Hc|Hc]).
      - left. apply in_or_app. right. apply in_or_app. now left.
      - left. apply in_or_app. right. apply in_or_app. right. apply in_or_app. now left.
      - left. apply in_or_app. right. apply in_or_app. right. apply in_or_app. right.
        apply in_or_app. now left.
      - left. do 4 (apply in_or_app; right). apply in_or_app. now left.
      - destruct rest as [|x rest']; [destruct Hc as [<-|[]]; now right|].
        left. do 5 (apply in_or_app; right).
        revert Hc. generalize (x :: rest'). intros r Hc.
        rewrite removelast_firstn_len in Hc.
        rewrite <- (firstn_skipn (Nat.pred (length r)) r). apply in_or_app. now left. }
    destruct Hin as [Hin| ->]; [apply Hplain in Hin; tauto|reflexivity].
  - intros c Hc. destruct funcName as [|x w]; [congruence|].
    cbn in Hc. inversion Hc; subst c. inversion Hword as [|? ? Hx _]; subst.
    intros ->. discriminate.
Qed.

End DefinitionOfAPlainDeclaration.

(** The declaration [int getX();] of the class [A], for a target without
    symbols: with its semicolon, and without it. *)
Lemma newFunctionDefinition_of_a_plain_declaration_witness :
  newFunctionDefinition insertionSort host_silent classA_getX_declaration [classA]
    (mkSourceDocument doc_classA (Some [])) None
  = Some (units "int A::getX()")
  /\ newFunctionDefinition insertionSort host_silent classA_getX [classA]
       (mkSourceDocument doc_classA (Some [])) None
     = Some (units "int A::getX())").
Proof.
  assert (Hplain : forall rest, ~ In (chr ")") rest ->
            (forall c, In c rest ->
               c <> slash /\ c <> dquote /\ c <> quote /\ c <> langle
               /\ is_line_terminator c = false) ->
            PlainDeclaration (units "int ") (units "getX") [] rest).
  { intros rest Hno Hrest. unfold PlainDeclaration.
    split; [discriminate|]. split; [repeat constructor|].
    split; [cbn; intros H; repeat (destruct H as [H|H]; [discriminate|]); exact H|].
    split; [exact Hno|]. split; [|repeat split; reflexivity].
    intros c Hc. cbn in Hc.
    repeat (destruct Hc as [<-|Hc];
            [repeat split; (discriminate || reflexivity)|]).
    now apply Hrest. }
  split.
  - apply (newFunctionDefinition_of_a_plain_declaration insertionSort host_silent
             classA_getX_declaration [classA] (mkSourceDocument doc_classA (Some []))
             None (units "int ") (units "getX") [] (units ";")
             (mkTextLine 2 (units "  int getX();") (span 2 0 2 13) 2 false));
      try reflexivity; [|cbn; lia].
    apply Hplain.
    + cbn. intros [H|[]]. discriminate.
    + intros c [<-|[]]. repeat split; (discriminate || reflexivity).
  - apply (newFunctionDefinition_of_a_plain_declaration insertionSort host_silent
             classA_getX [classA] (mkSourceDocument doc_classA (Some []))
             None (units "int ") (units "getX") [] []
             (mkTextLine 2 (units "  int getX();") (span 2 0 2 13) 2 false));
      try reflexivity; [|cbn; lia].
    apply Hplain; [intros []|intros c []].
Defined.

(* ------------------------------------------------------------------ *)
(** ** The position of a header guard: what is passed over *)


Lemma replaceAll_maskedFrom r s : replaceAll r (fill space) s = maskedFrom r s 0.
Proof. reflexivity. Qed.








(* ------------------------------------------------------------------ *)
(** Iteration of a pattern that passes one unit at a time. *)








(* ------------------------------------------------------------------ *)
(** The first star *)









(* ------------------------------------------------------------------ *)
(** The first replacement, part by part *)

Lemma is_space_not_slash (c : N) : is_space c = true -> c <> slash.
Proof. intros H ->. discriminate H. Qed.









(* ------------------------------------------------------------------ *)
(** The second replacement, part by part *)








(* ------------------------------------------------------------------ *)
(** The masked text and its first unit that is not white space *)












